(** * seal/util/rlwe.cpp: noise samplers and encryptions of zero

    A shallow embedding of the four polynomial samplers
    ([sample_poly_ternary], [sample_poly_normal], [sample_poly_cbd],
    [sample_poly_uniform]) and of the two zero-ciphertext generators
    ([encrypt_zero_asymmetric], [encrypt_zero_symmetric]).

    Conventions.
    - A [uint64_t] is a [Z] in [[0, 2^64)]; unsigned arithmetic is written
      out with [to_uint64].
    - A buffer ([uint64_t *]) is a [list Z] together with an offset into it;
      [destination[p] = v] is [<[p := v]>], which leaves the list alone when
      [p] is out of range (the source expects pre-sized buffers).
    - A random generator is the finite tape of bytes it is going to emit.
      Asking for more bytes than the tape holds yields no result: the tape
      handed in was too short a prefix of the generator's output.
    - Exceptions are explicit results. *)

From Stdlib Require Import ZArith QArith Lia Bool String.
From Stdlib.Strings Require Import Byte.
From stdpp Require Import base list numbers.

Local Open Scope Z_scope.

(** ** Machine integers *)

(** [static_cast<uint64_t>] of a mathematical integer. *)
Definition to_uint64 (x : Z) : Z := x mod 2 ^ 64.

(** [static_cast<int8_t>] of a mathematical integer. *)
Definition to_int8 (x : Z) : Z := (x + 128) mod 256 - 128.

(** The unsigned value of a byte of the tape. *)
Definition byte_value (b : byte) : Z := Z.of_N (Byte.to_N b).

(** ** Data model *)

Record Modulus := { value : Z }.

Record EncryptionParameters := {
  poly_modulus_degree : nat;
  coeff_modulus : list Modulus
}.

(** [global_variables::noise_standard_deviation] and
    [global_variables::noise_max_deviation].  A finite [double] is a
    rational number, and the two tests the source performs on these values
    (equality with a literal, closeness to zero) are exact on rationals. *)
Record global_variables := {
  noise_standard_deviation : Q;
  noise_max_deviation : Q
}.

(** The [double] literal [3.2]: the binary64 number nearest to 16/5. *)
Definition double_3_2 : Q := (3602879701896397 # 1125899906842624)%Q.

Definition Qabs' (x : Q) : Q := if Qle_bool 0 x then x else Qopp x.
Definition Qmax' (x y : Q) : Q := if Qle_bool x y then y else x.
Definition Qlt_bool (x y : Q) : bool := negb (Qle_bool y x).

(** Modelled from the spec: [are_close] is declared in seal/util/common.h,
    which is not among the sources.  The spec reads the test
    [are_close(noise_max_deviation, 0.0)] as "the maximum deviation is
    numerically zero"; it is rendered as equality up to the binary64
    machine epsilon, scaled by the larger magnitude (at least one). *)
Definition are_close (value1 value2 : Q) : bool :=
  let scale_factor := Qmax' (Qmax' (Qabs' value1) (Qabs' value2)) 1 in
  Qlt_bool (Qabs' (value1 - value2)) ((1 # 4503599627370496) * scale_factor)%Q.

Inductive exception :=
| invalid_argument (what : string)
| logic_error (what : string).

(** The error kinds of the spec, as the exceptions the source throws. *)
Definition UnsupportedParameter : exception :=
  logic_error
    "center binomial distribution only supports standard deviation 3.2, use discrete Gaussian instead".

(** Result of a sampler: it returns, it throws, or the tape ran dry. *)
Inductive result (A : Type) :=
| Ok (a : A)
| Throw (e : exception)
| Starved.
Arguments Ok {A} a.
Arguments Throw {A} e.
Arguments Starved {A}.

Definition of_option {A} (o : option A) : result A :=
  match o with Some a => Ok a | None => Starved end.

(** ** The randomness source *)

(** [rng->generate(n, buffer)]: the next [n] bytes of the tape. *)
Definition generate (n : nat) (rng : list byte) : option (list byte * list byte) :=
  if (n <=? length rng)%nat then Some (take n rng, drop n rng) else None.

(** Little-endian value of a run of bytes. *)
Definition le_value (bs : list byte) : Z :=
  foldr (fun b acc => byte_value b + 256 * acc) 0 bs.

(** Modelled from the spec: [RandomToStandardAdapter] is declared in
    seal/randomtostd.h, which is not among the sources.  The spec calls
    the source byte-oriented and has the uniform sampler take "32-bit
    draws from the source": one call of [engine()] reads four bytes. *)
Definition engine (rng : list byte) : option (Z * list byte) :=
  match generate 4 rng with
  | Some (bs, rng') => Some (le_value bs, rng')
  | None => None
  end.

(** ** Buffers *)

(** The [n] words at [ptr]; a word past the end of the buffer reads as
    zero (the source never reads there). *)
Definition read_block (mem : list Z) (ptr n : nat) : list Z :=
  (fun p => mem !!! p) <$> seq ptr n.

(** Store the words of [blk] at [ptr], [ptr + 1], ... *)
Fixpoint write_block (mem : list Z) (ptr : nat) (blk : list Z) : list Z :=
  match blk with
  | [] => mem
  | v :: blk' => write_block (<[ptr := v]> mem) (S ptr) blk'
  end.

(** The inner [SEAL_ITERATE] of the three noise samplers: a [StrideIter]
    starting at [ptr] zipped with the moduli; [body] is the lambda's right
    hand side. *)
Fixpoint stride_store (body : Modulus -> Z) (ptr stride : nat)
    (moduli : list Modulus) (mem : list Z) : list Z :=
  match moduli with
  | [] => mem
  | q :: moduli' =>
      stride_store body (ptr + stride) stride moduli' (<[ptr := body q]> mem)
  end.

(** The outer [SEAL_ITERATE(iter(destination), coeff_count, ...)]: one
    [draw] per coefficient position [I], then the strided stores. *)
Fixpoint iterate_coeffs (draw : list byte -> option (Z * list byte))
    (body : Z -> Modulus -> Z) (count I stride : nat)
    (moduli : list Modulus) (rng : list byte) (mem : list Z)
    : option (list Z * list byte) :=
  match count with
  | O => Some (mem, rng)
  | S count' =>
      match draw rng with
      | None => None
      | Some (x, rng') =>
          iterate_coeffs draw body count' (S I) stride moduli rng'
            (stride_store (body x) I stride moduli mem)
      end
  end.

(** [n] successive draws, in order. *)
Fixpoint draws (draw : list byte -> option (Z * list byte)) (n : nat)
    (rng : list byte) : option (list Z * list byte) :=
  match n with
  | O => Some ([], rng)
  | S n' =>
      match draw rng with
      | None => None
      | Some (x, rng') =>
          match draws draw n' rng' with
          | None => None
          | Some (xs, rng'') => Some (x :: xs, rng'')
          end
      end
  end.

(** The limb-major layout of one value per coefficient, stored through
    [body] in every limb. *)
Definition limb_major (body : Z -> Modulus -> Z) (moduli : list Modulus)
    (xs : list Z) : list Z :=
  concat (map (fun q => map (fun x => body x q) xs) moduli).

(** ** Collaborators outside rlwe.cpp *)

Record NTTTables := {
  ntt_modulus : Modulus;
  ntt_root : Z
}.

Definition parms_id_type := nat.

(** Modelled from the spec: [Ciphertext] is declared in seal/ciphertext.h,
    which is not among the sources.  The spec: "an ordered sequence of
    [encrypted_size] polynomials (RNS form) plus a boolean [is_ntt_form]
    flag and a floating scale factor"; component [j] is the [j]-th run of
    [poly_modulus_degree * coeff_modulus_size] words of [ct_data]. *)
Record Ciphertext := {
  ct_parms_id : parms_id_type;
  is_ntt_form : bool;
  scale : Q;
  ct_size : nat;
  ct_poly_modulus_degree : nat;
  ct_coeff_modulus_size : nat;
  ct_data : list Z
}.

(** [ciphertext.data(j)] as an offset into [ct_data]. *)
Definition ct_component (c : Ciphertext) (j : nat) : nat :=
  (j * (ct_poly_modulus_degree c * ct_coeff_modulus_size c))%nat.

Definition with_data (c : Ciphertext) (mem : list Z) : Ciphertext :=
  {| ct_parms_id := ct_parms_id c; is_ntt_form := is_ntt_form c;
     scale := scale c; ct_size := ct_size c;
     ct_poly_modulus_degree := ct_poly_modulus_degree c;
     ct_coeff_modulus_size := ct_coeff_modulus_size c;
     ct_data := mem |}.

Definition with_flags (c : Ciphertext) (ntt : bool) (s : Q) : Ciphertext :=
  {| ct_parms_id := ct_parms_id c; is_ntt_form := ntt;
     scale := s; ct_size := ct_size c;
     ct_poly_modulus_degree := ct_poly_modulus_degree c;
     ct_coeff_modulus_size := ct_coeff_modulus_size c;
     ct_data := ct_data c |}.

(** The secret key: one polynomial, [secret_key.data().data()]. *)
Record SecretKey := { sk_data : list Z }.

(** The public key: a ciphertext-shaped object, [public_key.data()]. *)
Record PublicKey := { pk_data : Ciphertext }.

Record ContextData := {
  parms : EncryptionParameters;
  small_ntt_tables : list NTTTables
}.

(** [context.get_context_data(parms_id)] is dereferenced without a test:
    the parameter set is one the context knows. *)
Record SEALContext := {
  get_context_data : parms_id_type -> ContextData
}.

#[global] Instance Modulus_inhabited : Inhabited Modulus :=
  populate {| value := 0 |}.
#[global] Instance NTTTables_inhabited : Inhabited NTTTables :=
  populate {| ntt_modulus := inhabitant; ntt_root := 0 |}.

(** The preprocessor symbols the file is compiled under. *)
Record build := {
  SEAL_DEBUG : bool;
  SEAL_USE_GAUSSIAN : bool
}.

(** What rlwe.cpp takes from the rest of the library without looking
    inside: the standard library's integer distribution, the clipped normal
    distribution, the seeded generator, and the transforms.  The laws are
    the range and size guarantees of those interfaces. *)
Class Collaborators := {
  (** [random_seed_type().size()]: the seed length in 64-bit words. *)
  prng_seed_uint64_count : nat;
  (** [uniform_int_distribution<uint64_t> dist(0, 2); dist(engine)]. *)
  uniform_int_0_2 : list byte -> option (Z * list byte);
  uniform_int_0_2_range :
    forall rng r rng', uniform_int_0_2 rng = Some (r, rng') -> 0 <= r <= 2;
  (** [static_cast<int64_t>(dist(engine))] for the
      [ClippedNormalDistribution] built from the two globals. *)
  clipped_normal : global_variables -> list byte -> option (Z * list byte);
  (** [BlakePRNGFactory(seed).create()]: the tape of the seeded generator. *)
  blake_prng : list Z -> list byte;
  ntt_negacyclic_harvey : NTTTables -> list Z -> list Z;
  inverse_ntt_negacyclic_harvey : NTTTables -> list Z -> list Z;
  ntt_length :
    forall t a, length (ntt_negacyclic_harvey t a) = length a;
  inverse_ntt_length :
    forall t a, length (inverse_ntt_negacyclic_harvey t a) = length a;
  inverse_ntt_range :
    forall t a, 0 < value (ntt_modulus t) ->
      Forall (fun x => 0 <= x < value (ntt_modulus t))
             (inverse_ntt_negacyclic_harvey t a);
  (** [is_valid_for(key, context)], consulted in debug builds only. *)
  is_valid_for_secret_key : SecretKey -> SEALContext -> bool;
  is_valid_for_public_key : PublicKey -> SEALContext -> bool
}.

(** ** The samplers *)

Section Samplers.
Context `{Collaborators}.

Definition ternary_body (rand : Z) : Modulus -> Z :=
  let flag := to_uint64 (- Z.b2z (rand =? 0)) in
  fun J => to_uint64 (rand + Z.land flag (value J) - 1).

Definition sample_poly_ternary (rng : list byte)
    (parms : EncryptionParameters) (mem : list Z) (destination : nat)
    : result (list Z * list byte) :=
  let coeff_modulus := coeff_modulus parms in
  let coeff_count := poly_modulus_degree parms in
  of_option
    (iterate_coeffs uniform_int_0_2 ternary_body coeff_count destination
       coeff_count coeff_modulus rng mem).

(** [set_zero_poly(coeff_count, coeff_modulus_size, destination)]. *)
Definition set_zero_poly (coeff_count coeff_modulus_size : nat)
    (mem : list Z) (destination : nat) : list Z :=
  write_block mem destination
    (replicate (coeff_count * coeff_modulus_size) 0).

(** The lambda shared by the Gaussian and the binomial sampler:
    [static_cast<uint64_t>(noise) + (flag & modulus)]. *)
Definition noise_body (noise : Z) : Modulus -> Z :=
  let flag := to_uint64 (- Z.b2z (noise <? 0)) in
  fun J => to_uint64 (to_uint64 noise + Z.land flag (value J)).

Definition sample_poly_normal (g : global_variables) (rng : list byte)
    (parms : EncryptionParameters) (mem : list Z) (destination : nat)
    : result (list Z * list byte) :=
  let coeff_modulus := coeff_modulus parms in
  let coeff_modulus_size := length coeff_modulus in
  let coeff_count := poly_modulus_degree parms in
  if are_close (noise_max_deviation g) 0 then
    Ok (set_zero_poly coeff_count coeff_modulus_size mem destination, rng)
  else
    of_option
      (iterate_coeffs (clipped_normal g) noise_body coeff_count destination
         coeff_count coeff_modulus rng mem).

(** The lambda [hw]: Hamming weight of an [int8_t], computed on [int32_t]. *)
Definition hw (x : Z) : Z :=
  let t := Z.land x 0x55 in
  let t := t + Z.land (Z.shiftr x 1) 0x55 in
  let hw := Z.land t 0x3 in
  let hw := hw + Z.land (Z.shiftr t 2) 0x3 in
  let hw := hw + Z.land (Z.shiftr t 4) 0x3 in
  let hw := hw + Z.land (Z.shiftr t 6) 0x3 in
  hw.

(** The six bytes of one draw, after the two masks, as [int8_t]. *)
Definition cbd_bytes (b0 b1 b2 b3 b4 b5 : byte) : list Z :=
  let x0 := to_int8 (byte_value b0) in
  let x1 := to_int8 (byte_value b1) in
  let x2 := to_int8 (byte_value b2) in
  let x3 := to_int8 (byte_value b3) in
  let x4 := to_int8 (byte_value b4) in
  let x5 := to_int8 (byte_value b5) in
  let x2 := to_int8 (Z.land x2 0x1F) in
  let x5 := to_int8 (Z.land x5 0x1F) in
  [x0; x1; x2; x3; x4; x5].

Definition cbd_value (b0 b1 b2 b3 b4 b5 : byte) : Z :=
  match cbd_bytes b0 b1 b2 b3 b4 b5 with
  | [x0; x1; x2; x3; x4; x5] =>
      hw x0 + hw x1 + hw x2 - hw x3 - hw x4 - hw x5
  | _ => 0
  end.

(** The lambda [cbd]. *)
Definition cbd (rng : list byte) : option (Z * list byte) :=
  match generate 6 rng with
  | Some ([b0; b1; b2; b3; b4; b5], rng') =>
      Some (cbd_value b0 b1 b2 b3 b4 b5, rng')
  | _ => None
  end.

Definition sample_poly_cbd (g : global_variables) (rng : list byte)
    (parms : EncryptionParameters) (mem : list Z) (destination : nat)
    : result (list Z * list byte) :=
  let coeff_modulus := coeff_modulus parms in
  let coeff_modulus_size := length coeff_modulus in
  let coeff_count := poly_modulus_degree parms in
  if are_close (noise_max_deviation g) 0 then
    Ok (set_zero_poly coeff_count coeff_modulus_size mem destination, rng)
  else if negb (Qeq_bool (noise_standard_deviation g) double_3_2) then
    Throw UnsupportedParameter
  else
    of_option
      (iterate_coeffs cbd noise_body coeff_count destination coeff_count
         coeff_modulus rng mem).

(** Modelled from the spec: [barrett_reduce_64] is declared in
    seal/util/uintarithsmallmod.h, which is not among the sources.  The
    spec: "a Barrett-style reduction of a 64-bit value into a modulus's
    range". *)
Definition barrett_reduce_64 (input : Z) (modulus : Modulus) : Z :=
  input mod value modulus.

Definition max_random : Z := 0xFFFFFFFFFFFFFFFF.

Definition max_multiple_of (modulus : Modulus) : Z :=
  to_uint64 (to_uint64 (max_random - barrett_reduce_64 max_random modulus) - 1).

(** The [do ... while (rand >= max_multiple)] loop.  Every turn reads
    eight bytes, so [fuel] turns are enough for a tape of [fuel] bytes.
    The left operand of [|] is taken to be evaluated first. *)
Fixpoint draw_rand (fuel : nat) (max_multiple : Z) (rng : list byte)
    : option (Z * list byte) :=
  match fuel with
  | O => None
  | S fuel' =>
      match engine rng with
      | None => None
      | Some (hi, rng1) =>
          match engine rng1 with
          | None => None
          | Some (lo, rng2) =>
              let rand := Z.lor (to_uint64 (Z.shiftl hi 32)) lo in
              if rand >=? max_multiple
              then draw_rand fuel' max_multiple rng2
              else Some (rand, rng2)
          end
      end
  end.

(** The inner [for] over [i], from [i] for [count] more turns. *)
Fixpoint uniform_coeffs (count i j coeff_count : nat) (modulus : Modulus)
    (max_multiple : Z) (destination : nat) (rng : list byte)
    (mem : list Z) : option (list Z * list byte) :=
  match count with
  | O => Some (mem, rng)
  | S count' =>
      match draw_rand (S (length rng)) max_multiple rng with
      | None => None
      | Some (rand, rng') =>
          uniform_coeffs count' (S i) j coeff_count modulus max_multiple
            destination rng'
            (<[(destination + (i + j * coeff_count))%nat :=
                 barrett_reduce_64 rand modulus]> mem)
      end
  end.

(** The outer [for] over [j], from [j] through the remaining moduli. *)
Fixpoint uniform_limbs (moduli : list Modulus) (j coeff_count : nat)
    (destination : nat) (rng : list byte) (mem : list Z)
    : option (list Z * list byte) :=
  match moduli with
  | [] => Some (mem, rng)
  | modulus :: moduli' =>
      let max_multiple := max_multiple_of modulus in
      match uniform_coeffs coeff_count 0 j coeff_count modulus max_multiple
              destination rng mem with
      | None => None
      | Some (mem', rng') =>
          uniform_limbs moduli' (S j) coeff_count destination rng' mem'
      end
  end.

Definition sample_poly_uniform (rng : list byte)
    (parms : EncryptionParameters) (mem : list Z) (destination : nat)
    : result (list Z * list byte) :=
  let coeff_modulus := coeff_modulus parms in
  let coeff_count := poly_modulus_degree parms in
  of_option (uniform_limbs coeff_modulus 0 coeff_count destination rng mem).

End Samplers.

(** ** Kernels of the modular arithmetic *)

(** Modelled from the spec: [dyadic_product_coeffmod], [add_poly_coeffmod]
    and [negate_poly_coeffmod] are declared in
    seal/util/polyarithsmallmod.h, which is not among the sources.  The
    spec: "per-modulus add, negate, pointwise-multiply".  Operands and
    result are (buffer, offset) pairs; the result buffer is returned. *)
Definition dyadic_product_coeffmod (operand1 : list Z) (p1 : nat)
    (operand2 : list Z) (p2 : nat) (coeff_count : nat) (modulus : Modulus)
    (mem : list Z) (result : nat) : list Z :=
  write_block mem result
    (zip_with (fun a b => (a * b) mod value modulus)
       (read_block operand1 p1 coeff_count)
       (read_block operand2 p2 coeff_count)).

Definition add_poly_coeffmod (operand1 : list Z) (p1 : nat)
    (operand2 : list Z) (p2 : nat) (coeff_count : nat) (modulus : Modulus)
    (mem : list Z) (result : nat) : list Z :=
  write_block mem result
    (zip_with (fun a b => (a + b) mod value modulus)
       (read_block operand1 p1 coeff_count)
       (read_block operand2 p2 coeff_count)).

Definition negate_poly_coeffmod (operand : list Z) (p : nat)
    (coeff_count : nat) (modulus : Modulus) (mem : list Z) (result : nat)
    : list Z :=
  write_block mem result
    ((fun a => (- a) mod value modulus) <$> read_block operand p coeff_count).

(** Modelled from the spec: [Ciphertext::resize] is declared in
    seal/ciphertext.h, which is not among the sources.  The spec: "Resize
    destination to exactly two components" (respectively "to match the
    public key's component count").  The buffer takes the new length; words
    it already held stay, new words are zero. *)
Definition resize (destination : Ciphertext) (context : SEALContext)
    (parms_id : parms_id_type) (size : nat) : Ciphertext :=
  let p := parms (get_context_data context parms_id) in
  let n := poly_modulus_degree p in
  let k := length (coeff_modulus p) in
  {| ct_parms_id := parms_id;
     is_ntt_form := is_ntt_form destination;
     scale := scale destination;
     ct_size := size;
     ct_poly_modulus_degree := n;
     ct_coeff_modulus_size := k;
     ct_data :=
       take (size * (n * k)) (ct_data destination ++ replicate (size * (n * k)) 0) |}.

(** [allocate_poly(coeff_count, coeff_modulus_size, pool)]: a fresh buffer.
    Its words are written by a sampler before they are read. *)
Definition allocate_poly (coeff_count coeff_modulus_size : nat) : list Z :=
  replicate (coeff_count * coeff_modulus_size) 0.

(** The words of a seed read from the bytes [generate] delivered into
    [public_rng_seed.data()] (little-endian host). *)
Fixpoint seed_words (count : nat) (bs : list byte) : list Z :=
  match count with
  | O => []
  | S count' => le_value (take 8 bs) :: seed_words count' (drop 8 bs)
  end.

(** How a zero-ciphertext generator ends. *)
Inductive outcome :=
| Returned
| Threw (e : exception)
| Ran_dry.

(** ** The zero-ciphertext generators *)

Section Encryption.
Context `{Collaborators}.

(** A transform applied in place to the [coeff_count] words at [ptr]. *)
Definition transform_at (f : NTTTables -> list Z -> list Z)
    (tables : NTTTables) (coeff_count : nat) (mem : list Z) (ptr : nat)
    : list Z :=
  write_block mem ptr (f tables (read_block mem ptr coeff_count)).

(** [for (i = ...; i < coeff_modulus_size; i++) f(ptr + i * coeff_count,
    ntt_tables[i])], from [i] for [count] more turns. *)
Fixpoint transform_limbs (f : NTTTables -> list Z -> list Z)
    (count i coeff_count : nat) (ntt_tables : list NTTTables)
    (mem : list Z) (ptr : nat) : list Z :=
  match count with
  | O => mem
  | S count' =>
      transform_limbs f count' (S i) coeff_count ntt_tables
        (transform_at f (ntt_tables !!! i) coeff_count mem
           (ptr + i * coeff_count)%nat)
        ptr
  end.

(** The noise sampler the build selects. *)
Definition sample_noise (b : build) (g : global_variables)
    (rng : list byte) (parms : EncryptionParameters) (mem : list Z)
    (destination : nat) : result (list Z * list byte) :=
  if SEAL_USE_GAUSSIAN b
  then sample_poly_normal g rng parms mem destination
  else sample_poly_cbd g rng parms mem destination.

(** *** encrypt_zero_asymmetric *)

(** The loop over the components [j] inside limb [i]. *)
Fixpoint asymmetric_components (count j i coeff_count : nat)
    (is_ntt : bool) (modulus : Modulus) (tables : NTTTables)
    (u : list Z) (public_key : Ciphertext) (destination : Ciphertext)
    (mem : list Z) : list Z :=
  match count with
  | O => mem
  | S count' =>
      let dst := (ct_component destination j + i * coeff_count)%nat in
      let mem :=
        dyadic_product_coeffmod u (i * coeff_count)
          (ct_data public_key) (ct_component public_key j + i * coeff_count)
          coeff_count modulus mem dst in
      let mem :=
        if negb is_ntt
        then transform_at inverse_ntt_negacyclic_harvey tables coeff_count mem dst
        else mem in
      asymmetric_components count' (S j) i coeff_count is_ntt modulus
        tables u public_key destination mem
  end.

(** The loop over the limbs [i] that multiplies [u] into every component. *)
Fixpoint asymmetric_limbs (count i coeff_count encrypted_size : nat)
    (is_ntt : bool) (coeff_modulus : list Modulus)
    (ntt_tables : list NTTTables) (public_key destination : Ciphertext)
    (u mem : list Z) : list Z * list Z :=
  match count with
  | O => (u, mem)
  | S count' =>
      let u :=
        transform_at ntt_negacyclic_harvey (ntt_tables !!! i) coeff_count u
          (i * coeff_count) in
      let mem :=
        asymmetric_components encrypted_size 0 i coeff_count is_ntt
          (coeff_modulus !!! i) (ntt_tables !!! i) u public_key destination
          mem in
      asymmetric_limbs count' (S i) coeff_count encrypted_size is_ntt
        coeff_modulus ntt_tables public_key destination u mem
  end.

(** The loop over the limbs [i] that adds the noise into component [j]. *)
Fixpoint asymmetric_add_noise (count i j coeff_count : nat) (is_ntt : bool)
    (coeff_modulus : list Modulus) (ntt_tables : list NTTTables)
    (destination : Ciphertext) (u mem : list Z) : list Z * list Z :=
  match count with
  | O => (u, mem)
  | S count' =>
      let u :=
        if is_ntt
        then transform_at ntt_negacyclic_harvey (ntt_tables !!! i)
               coeff_count u (i * coeff_count)
        else u in
      let dst := (ct_component destination j + i * coeff_count)%nat in
      let mem :=
        add_poly_coeffmod u (i * coeff_count) mem dst coeff_count
          (coeff_modulus !!! i) mem dst in
      asymmetric_add_noise count' (S i) j coeff_count is_ntt coeff_modulus
        ntt_tables destination u mem
  end.

(** The loop over the components [j] that draws and adds the noise. *)
Fixpoint asymmetric_noise (count j : nat) (b : build)
    (g : global_variables) (parms : EncryptionParameters)
    (is_ntt : bool) (ntt_tables : list NTTTables)
    (destination : Ciphertext) (rng : list byte) (u mem : list Z)
    : outcome * list Z :=
  match count with
  | O => (Returned, mem)
  | S count' =>
      match sample_noise b g rng parms u 0 with
      | Throw e => (Threw e, mem)
      | Starved => (Ran_dry, mem)
      | Ok (u, rng) =>
          let '(u, mem) :=
            asymmetric_add_noise (length (coeff_modulus parms)) 0 j
              (poly_modulus_degree parms) is_ntt (coeff_modulus parms)
              ntt_tables destination u mem in
          asymmetric_noise count' (S j) b g parms is_ntt ntt_tables
            destination rng u mem
      end
  end.

(** [entropy] is the tape of the generator that
    [parms.random_generator()->create()] returns. *)
Definition encrypt_zero_asymmetric (b : build) (g : global_variables)
    (entropy : list byte) (public_key : PublicKey) (context : SEALContext)
    (parms_id : parms_id_type) (is_ntt : bool) (destination : Ciphertext)
    : outcome * Ciphertext :=
  if SEAL_DEBUG b && negb (is_valid_for_public_key public_key context) then
    (Threw (invalid_argument
              "public key is not valid for the encryption parameters"),
     destination)
  else
    let context_data := get_context_data context parms_id in
    let parms := parms context_data in
    let coeff_modulus := coeff_modulus parms in
    let coeff_modulus_size := length coeff_modulus in
    let coeff_count := poly_modulus_degree parms in
    let ntt_tables := small_ntt_tables context_data in
    let encrypted_size := ct_size (pk_data public_key) in
    let destination := resize destination context parms_id encrypted_size in
    let destination := with_flags destination is_ntt 1 in
    let rng := entropy in
    let u := allocate_poly coeff_count coeff_modulus_size in
    match sample_poly_ternary rng parms u 0 with
    | Throw e => (Threw e, destination)
    | Starved => (Ran_dry, destination)
    | Ok (u, rng) =>
        let '(u, mem) :=
          asymmetric_limbs coeff_modulus_size 0 coeff_count encrypted_size
            is_ntt coeff_modulus ntt_tables (pk_data public_key)
            destination u (ct_data destination) in
        let '(o, mem) :=
          asymmetric_noise encrypted_size 0 b g parms is_ntt ntt_tables
            destination rng u mem in
        (o, with_data destination mem)
    end.

(** *** encrypt_zero_symmetric *)

(** The loop over the limbs [i] that computes [c0]. *)
Fixpoint symmetric_limbs (count i coeff_count : nat) (is_ntt : bool)
    (coeff_modulus : list Modulus) (ntt_tables : list NTTTables)
    (secret_key : SecretKey) (c0 c1 : nat) (noise mem : list Z)
    : list Z * list Z :=
  match count with
  | O => (noise, mem)
  | S count' =>
      let off := (i * coeff_count)%nat in
      let mem :=
        dyadic_product_coeffmod (sk_data secret_key) off mem (c1 + off)
          coeff_count (coeff_modulus !!! i) mem (c0 + off) in
      let '(noise, mem) :=
        if is_ntt
        then (transform_at ntt_negacyclic_harvey (ntt_tables !!! i)
                coeff_count noise off, mem)
        else (noise,
              transform_at inverse_ntt_negacyclic_harvey (ntt_tables !!! i)
                coeff_count mem (c0 + off)) in
      let mem :=
        add_poly_coeffmod noise off mem (c0 + off) coeff_count
          (coeff_modulus !!! i) mem (c0 + off) in
      let mem :=
        negate_poly_coeffmod mem (c0 + off) coeff_count
          (coeff_modulus !!! i) mem (c0 + off) in
      symmetric_limbs count' (S i) coeff_count is_ntt coeff_modulus
        ntt_tables secret_key c0 c1 noise mem
  end.

(** The capacity test in front of the resize. *)
Definition seed_fits (save_seed : bool) (poly_uint64_count : nat) : bool :=
  if save_seed && (poly_uint64_count <? prng_seed_uint64_count + 1)%nat
  then false
  else save_seed.

(** [entropy] is the tape of [bootstrap_rng]. *)
Definition encrypt_zero_symmetric (b : build) (g : global_variables)
    (entropy : list byte) (secret_key : SecretKey) (context : SEALContext)
    (parms_id : parms_id_type) (is_ntt save_seed : bool)
    (destination : Ciphertext) : outcome * Ciphertext :=
  if SEAL_DEBUG b && negb (is_valid_for_secret_key secret_key context) then
    (Threw (invalid_argument
              "secret key is not valid for the encryption parameters"),
     destination)
  else
    let context_data := get_context_data context parms_id in
    let parms := parms context_data in
    let coeff_modulus := coeff_modulus parms in
    let coeff_modulus_size := length coeff_modulus in
    let coeff_count := poly_modulus_degree parms in
    let ntt_tables := small_ntt_tables context_data in
    let encrypted_size := 2%nat in
    (* mul_safe: the two sizes are natural numbers, their product is exact *)
    let poly_uint64_count := (coeff_count * coeff_modulus_size)%nat in
    let save_seed := seed_fits save_seed poly_uint64_count in
    let destination := resize destination context parms_id encrypted_size in
    let destination := with_flags destination is_ntt 1 in
    let bootstrap_rng := entropy in
    match generate (8 * prng_seed_uint64_count) bootstrap_rng with
    | None => (Ran_dry, destination)
    | Some (seed_bytes, bootstrap_rng) =>
        let public_rng_seed := seed_words prng_seed_uint64_count seed_bytes in
        let ciphertext_rng := blake_prng public_rng_seed in
        let c0 := ct_component destination 0 in
        let c1 := ct_component destination 1 in
        let sampled :=
          if is_ntt || negb save_seed then
            sample_poly_uniform ciphertext_rng parms (ct_data destination) c1
          else if save_seed then
            match sample_poly_uniform ciphertext_rng parms
                    (ct_data destination) c1 with
            | Ok (mem, rng) =>
                Ok (transform_limbs ntt_negacyclic_harvey
                      coeff_modulus_size 0 coeff_count ntt_tables mem c1,
                    rng)
            | r => r
            end
          else Ok (ct_data destination, ciphertext_rng) in
        match sampled with
        | Throw e => (Threw e, destination)
        | Starved => (Ran_dry, destination)
        | Ok (mem, _) =>
            let noise := allocate_poly coeff_count coeff_modulus_size in
            match sample_noise b g bootstrap_rng parms noise 0 with
            | Throw e => (Threw e, with_data destination mem)
            | Starved => (Ran_dry, with_data destination mem)
            | Ok (noise, _) =>
                let '(_, mem) :=
                  symmetric_limbs coeff_modulus_size 0 coeff_count is_ntt
                    coeff_modulus ntt_tables secret_key c0 c1 noise mem in
                let mem :=
                  if negb is_ntt && negb save_seed
                  then transform_limbs inverse_ntt_negacyclic_harvey
                         coeff_modulus_size 0 coeff_count ntt_tables mem c1
                  else mem in
                let mem :=
                  if save_seed
                  then write_block (<[c1 := 0xFFFFFFFFFFFFFFFF]> mem)
                         (c1 + 1) public_rng_seed
                  else mem in
                (Returned, with_data destination mem)
            end
        end
    end.

End Encryption.

(** ** A reference instance of the collaborators

    Small executable stand-ins on which the model can be run: a quadratic
    negacyclic transform, a congruential generator in place of the seeded
    one, and one-byte distributions. *)

Module Reference.

Definition byte_of_Z (z : Z) : byte :=
  match Byte.of_N (Z.to_N (z mod 256)) with
  | Some b => b
  | None => x00
  end.

(** [n] bytes of a 64-bit congruential generator started at [state]. *)
Fixpoint lcg_bytes (n : nat) (state : Z) : list byte :=
  match n with
  | O => []
  | S n' =>
      let state' :=
        (state * 6364136223846793005 + 1442695040888963407) mod 2 ^ 64 in
      byte_of_Z (state' / 2 ^ 56) :: lcg_bytes n' state'
  end.

Definition prng (seed : list Z) : list byte :=
  lcg_bytes 4096 (foldr Z.add 0 seed mod 2 ^ 64).

Definition one_byte (f : Z -> Z) (rng : list byte) : option (Z * list byte) :=
  match rng with
  | [] => None
  | b :: rng' => Some (f (byte_value b), rng')
  end.

Definition sum_list (l : list Z) : Z := foldr Z.add 0 l.

(** Evaluation at the odd powers of the root [psi] of [X^n + 1]. *)
Definition ntt (t : NTTTables) (a : list Z) : list Z :=
  let n := Z.of_nat (length a) in
  let q := value (ntt_modulus t) in
  (fun k : nat =>
     sum_list
       (imap (fun j aj =>
                aj * ntt_root t ^ (((2 * Z.of_nat k + 1) * Z.of_nat j) mod (2 * n)))
             a) mod q)
    <$> seq 0 (length a).

(** Interpolation from those values; [q] is prime, [n] invertible. *)
Definition inverse_ntt (t : NTTTables) (a : list Z) : list Z :=
  let n := Z.of_nat (length a) in
  let q := value (ntt_modulus t) in
  let n_inv := n ^ (q - 2) mod q in
  (fun j : nat =>
     (n_inv *
      sum_list
        (imap (fun k ak =>
                 ak * ntt_root t ^
                   ((2 * n - ((2 * Z.of_nat k + 1) * Z.of_nat j) mod (2 * n))
                      mod (2 * n)))
              a)) mod q)
    <$> seq 0 (length a).

Definition key_words (context : SEALContext) : nat :=
  let p := parms (get_context_data context 0%nat) in
  (poly_modulus_degree p * length (coeff_modulus p))%nat.

#[refine] Instance collaborators : Collaborators := {|
  prng_seed_uint64_count := 8;
  uniform_int_0_2 := one_byte (fun v => v mod 3);
  clipped_normal := fun _ => one_byte (fun v => v mod 3 - 1);
  blake_prng := prng;
  ntt_negacyclic_harvey := ntt;
  inverse_ntt_negacyclic_harvey := inverse_ntt;
  is_valid_for_secret_key :=
    fun sk context => (length (sk_data sk) =? key_words context)%nat;
  is_valid_for_public_key :=
    fun pk context =>
      (length (ct_data (pk_data pk)) =?
         ct_size (pk_data pk) * key_words context)%nat
|}.
Proof.
  - intros rng r rng'. destruct rng as [|b rng0]; simpl; [discriminate|].
    intros [= <- _]. pose proof (Z.mod_pos_bound (byte_value b) 3). lia.
  - intros t a. unfold ntt. by rewrite length_fmap, length_seq.
  - intros t a. unfold inverse_ntt. by rewrite length_fmap, length_seq.
  - intros t a Hq. unfold inverse_ntt. apply Forall_fmap, Forall_forall.
    intros j _. simpl. apply Z.mod_pos_bound, Hq.
Defined.

(** Parameter sets used in the examples. *)
Definition q97 : Modulus := {| value := 97 |}.
Definition q113 : Modulus := {| value := 113 |}.

(** Degree 8 with the limbs 97 and 113, both congruent to 1 modulo 16. *)
Definition parms_8x2 : EncryptionParameters :=
  {| poly_modulus_degree := 8; coeff_modulus := [q97; q113] |}.

End Reference.

(** * Properties *)

(** ** Buffers *)

Lemma length_write_block (blk mem : list Z) (ptr : nat) :
  length (write_block mem ptr blk) = length mem.
Proof.
  revert mem ptr. induction blk as [|v blk IH]; intros mem ptr; simpl; [done|].
  by rewrite IH, length_insert.
Qed.

Lemma lookup_write_block_out (blk mem : list Z) (ptr x : nat) :
  (x < ptr \/ ptr + length blk <= x)%nat ->
  write_block mem ptr blk !! x = mem !! x.
Proof.
  revert mem ptr. induction blk as [|v blk IH]; intros mem ptr Hx; simpl in *; [done|].
  rewrite IH by lia. apply list_lookup_insert_ne. lia.
Qed.

Lemma lookup_write_block_in (blk mem : list Z) (ptr x : nat) :
  (ptr <= x < ptr + length blk)%nat -> (x < length mem)%nat ->
  write_block mem ptr blk !! x = blk !! (x - ptr)%nat.
Proof.
  revert mem ptr. induction blk as [|v blk IH]; intros mem ptr Hx Hm; simpl in *; [lia|].
  destruct (decide (x = ptr)) as [->|Hne].
  - rewrite lookup_write_block_out by lia.
    rewrite Nat.sub_diag. simpl. by apply list_lookup_insert_eq.
  - rewrite IH by (rewrite ?length_insert; lia).
    replace (x - ptr)%nat with (S (x - S ptr)) by lia. done.
Qed.

Lemma length_read_block (mem : list Z) (ptr n : nat) :
  length (read_block mem ptr n) = n.
Proof. unfold read_block. by rewrite length_fmap, length_seq. Qed.

Lemma lookup_read_block (mem : list Z) (ptr n i : nat) :
  (i < n)%nat -> read_block mem ptr n !! i = Some (mem !!! (ptr + i)%nat).
Proof.
  intros Hi. unfold read_block. rewrite list_lookup_fmap.
  by rewrite lookup_seq_lt.
Qed.

Lemma read_block_ext (mem mem' : list Z) (ptr n : nat) :
  (forall x, (ptr <= x < ptr + n)%nat -> mem !! x = mem' !! x) ->
  read_block mem ptr n = read_block mem' ptr n.
Proof.
  intros Hext. apply list_eq. intros i.
  destruct (decide (i < n)%nat) as [Hi|Hi].
  - rewrite !lookup_read_block by done. f_equal.
    rewrite !list_lookup_total_alt. by rewrite Hext by lia.
  - rewrite !lookup_ge_None_2; [done|rewrite length_read_block; lia..].
Qed.

Lemma read_write_block_same (blk mem : list Z) (ptr : nat) :
  (ptr + length blk <= length mem)%nat ->
  read_block (write_block mem ptr blk) ptr (length blk) = blk.
Proof.
  intros Hfit. apply list_eq. intros i.
  destruct (decide (i < length blk)%nat) as [Hi|Hi].
  - rewrite lookup_read_block by done.
    rewrite list_lookup_total_alt, lookup_write_block_in by lia.
    replace (ptr + i - ptr)%nat with i by lia.
    destruct (lookup_lt_is_Some_2 blk i Hi) as [v Hv]. by rewrite Hv.
  - rewrite !lookup_ge_None_2; [done|rewrite ?length_read_block; lia..].
Qed.

Lemma read_write_block_disjoint (blk mem : list Z) (ptr ptr' n : nat) :
  (ptr' + n <= ptr \/ ptr + length blk <= ptr')%nat ->
  read_block (write_block mem ptr blk) ptr' n = read_block mem ptr' n.
Proof.
  intros Hd. apply read_block_ext. intros x Hx.
  apply lookup_write_block_out. lia.
Qed.

(** Reading a block that lies inside the buffer. *)
Lemma read_block_take_drop (mem : list Z) (ptr n : nat) :
  (ptr + n <= length mem)%nat ->
  read_block mem ptr n = take n (drop ptr mem).
Proof.
  intros Hfit. apply list_eq. intros i.
  destruct (decide (i < n)%nat) as [Hi|Hi].
  - rewrite lookup_read_block, lookup_take_lt, lookup_drop by done.
    rewrite list_lookup_total_alt.
    destruct (lookup_lt_is_Some_2 mem (ptr + i)%nat) as [v Hv]; [lia|].
    by rewrite Hv.
  - rewrite lookup_ge_None_2 by (rewrite length_read_block; lia).
    symmetry. apply lookup_ge_None_2. rewrite length_take. lia.
Qed.

(** Two buffers of one length that agree outside a block, and on it. *)
Lemma write_block_unique (mem mem' blk : list Z) (ptr : nat) :
  length mem' = length mem ->
  (ptr + length blk <= length mem)%nat ->
  (forall x, (x < ptr \/ ptr + length blk <= x)%nat -> mem' !! x = mem !! x) ->
  (forall i, (i < length blk)%nat -> mem' !! (ptr + i)%nat = blk !! i) ->
  mem' = write_block mem ptr blk.
Proof.
  intros Hlen Hfit Hout Hin. apply list_eq. intros x.
  destruct (decide (ptr <= x < ptr + length blk)%nat) as [Hx|Hx].
  - rewrite lookup_write_block_in by lia.
    replace x with (ptr + (x - ptr))%nat at 1 by lia. apply Hin. lia.
  - rewrite lookup_write_block_out by lia. apply Hout. lia.
Qed.

(** ** The strided stores of the noise samplers *)

Lemma stride_index_inj (n a b j j' : nat) :
  (a < n)%nat -> (b < n)%nat -> (a + j * n = b + j' * n)%nat -> a = b /\ j = j'.
Proof.
  intros Ha Hb Heq.
  assert (Hj : j = j').
  { assert (((a + j * n) / n)%nat = j) as H1
      by (rewrite Nat.div_add by lia; rewrite Nat.div_small by lia; lia).
    assert (((b + j' * n) / n)%nat = j') as H2
      by (rewrite Nat.div_add by lia; rewrite Nat.div_small by lia; lia).
    rewrite Heq in H1. congruence. }
  subst j'. split; [lia|done].
Qed.

Lemma length_stride_store body ptr stride moduli mem :
  length (stride_store body ptr stride moduli mem) = length mem.
Proof.
  revert ptr mem. induction moduli as [|q moduli IH]; intros ptr mem; simpl; [done|].
  by rewrite IH, length_insert.
Qed.

Lemma stride_store_miss body ptr stride moduli mem (x : nat) :
  (forall j, (j < length moduli)%nat -> x <> (ptr + j * stride)%nat) ->
  stride_store body ptr stride moduli mem !! x = mem !! x.
Proof.
  revert ptr mem. induction moduli as [|q moduli IH]; intros ptr mem Hx; simpl in *; [done|].
  rewrite IH.
  - apply list_lookup_insert_ne. specialize (Hx 0%nat). lia.
  - intros j Hj. specialize (Hx (S j)). lia.
Qed.

Lemma stride_store_hit body ptr stride moduli mem (j : nat) q :
  (0 < stride)%nat -> moduli !! j = Some q ->
  (ptr + j * stride < length mem)%nat ->
  stride_store body ptr stride moduli mem !! (ptr + j * stride)%nat = Some (body q).
Proof.
  intros Hs. revert ptr mem j.
  induction moduli as [|q0 moduli IH]; intros ptr mem j Hq Hfit; simpl in *; [done|].
  destruct j as [|j]; simpl in *.
  - injection Hq as ->. rewrite stride_store_miss by (intros; nia).
    rewrite Nat.add_0_r. apply list_lookup_insert_eq. lia.
  - replace (ptr + (stride + j * stride))%nat with (ptr + stride + j * stride)%nat by lia.
    apply IH; [done|]. rewrite length_insert. lia.
Qed.

Lemma length_limb_major body moduli xs :
  length (limb_major body moduli xs) = (length moduli * length xs)%nat.
Proof.
  unfold limb_major. induction moduli as [|q moduli IH]; simpl; [done|].
  by rewrite length_app, length_map, IH.
Qed.

Lemma lookup_limb_major body moduli xs (i j : nat) x q :
  xs !! i = Some x -> moduli !! j = Some q ->
  limb_major body moduli xs !! (i + j * length xs)%nat = Some (body x q).
Proof.
  intros Hx. unfold limb_major. revert j.
  induction moduli as [|q0 moduli IH]; intros j Hq; simpl in *; [done|].
  destruct j as [|j]; simpl in *.
  - injection Hq as ->. rewrite Nat.add_0_r, lookup_app_l.
    + by rewrite list_lookup_fmap, Hx.
    + rewrite length_map. by eapply lookup_lt_Some.
  - rewrite lookup_app_r by (rewrite length_map; lia).
    rewrite length_map.
    replace (i + (length xs + j * length xs) - length xs)%nat
      with (i + j * length xs)%nat by lia.
    by apply IH.
Qed.

Section Strided.
Variable draw : list byte -> option (Z * list byte).
Variable body : Z -> Modulus -> Z.
Variable moduli : list Modulus.
Variable n : nat.
Variable base : nat.

Lemma length_draws count rng xs rng' :
  draws draw count rng = Some (xs, rng') -> length xs = count.
Proof.
  revert rng xs. induction count as [|count IH]; intros rng xs; simpl.
  - by intros [= <- _].
  - destruct (draw rng) as [[x rng1]|]; [|done].
    destruct (draws draw count rng1) as [[xs1 rng2]|] eqn:E; [|done].
    intros [= <- <-]. simpl. f_equal. by eapply IH.
Qed.

Lemma iterate_coeffs_draws count i0 rng mem :
  (i0 + count <= n)%nat ->
  match draws draw count rng with
  | None => iterate_coeffs draw body count (base + i0) n moduli rng mem = None
  | Some (xs, rng') =>
      exists mem',
        iterate_coeffs draw body count (base + i0) n moduli rng mem
          = Some (mem', rng')
        /\ length mem' = length mem
        /\ (forall i j x q, xs !! i = Some x -> moduli !! j = Some q ->
              (base + i0 + i + j * n < length mem)%nat ->
              mem' !! (base + i0 + i + j * n)%nat = Some (body x q))
        /\ (forall p,
              (forall i j, (i < count)%nat -> (j < length moduli)%nat ->
                           p <> (base + i0 + i + j * n)%nat) ->
              mem' !! p = mem !! p)
  end.
Proof.
  revert i0 rng mem. induction count as [|count IH]; intros i0 rng mem Hle; simpl.
  - exists mem. split; [done|]. split; [done|]. split; [|done].
    intros i j x q Hx. done.
  - destruct (draw rng) as [[x rng1]|]; [|done].
    set (mem1 := stride_store (body x) (base + i0) n moduli mem).
    specialize (IH (S i0) rng1 mem1 ltac:(lia)).
    replace (S (base + i0)) with (base + S i0)%nat by lia.
    destruct (draws draw count rng1) as [[xs rng2]|]; [|done].
    destruct IH as (mem' & Hrun & Hlen & Hin & Hout).
    assert (Hlen1 : length mem1 = length mem) by apply length_stride_store.
    exists mem'. split; [done|]. split; [congruence|]. split.
    + intros i j y q Hy Hq Hfit. destruct i as [|i]; simpl in Hy.
      * injection Hy as ->. rewrite Hout.
        -- rewrite Nat.add_0_r. apply stride_store_hit; [lia|done|lia].
        -- intros i' j' Hi' Hj' Heq.
           destruct (stride_index_inj n i0 (S i0 + i') j j') as [? _]; lia.
      * replace (base + i0 + S i + j * n)%nat with (base + S i0 + i + j * n)%nat by lia.
        apply Hin; [done..|lia].
    + intros p Hp. rewrite Hout.
      * apply stride_store_miss. intros j Hj. specialize (Hp 0%nat j). lia.
      * intros i j Hi Hj. specialize (Hp (S i) j). lia.
Qed.

(** A strided sampler stores the limb-major image of its draws. *)
Lemma iterate_coeffs_closed rng mem :
  (base + n * length moduli <= length mem)%nat ->
  iterate_coeffs draw body n base n moduli rng mem
  = match draws draw n rng with
    | None => None
    | Some (xs, rng') =>
        Some (write_block mem base (limb_major body moduli xs), rng')
    end.
Proof.
  intros Hfit. pose proof (iterate_coeffs_draws n 0 rng mem ltac:(lia)) as Hrun.
  rewrite Nat.add_0_r in Hrun.
  destruct (draws draw n rng) as [[xs rng']|] eqn:Hd; [|done].
  destruct Hrun as (mem' & -> & Hlen & Hin & Hout).
  pose proof (length_draws _ _ _ _ Hd) as Hxs.
  f_equal. f_equal. apply write_block_unique; [done| | |].
  - rewrite length_limb_major. nia.
  - rewrite length_limb_major. intros x Hx. apply Hout.
    intros i j Hi Hj. nia.
  - rewrite length_limb_major. intros idx Hidx.
    assert (Hn : (0 < n)%nat) by nia.
    pose proof (Nat.div_mod idx n ltac:(lia)) as Hdm.
    pose proof (Nat.mod_upper_bound idx n ltac:(lia)) as Hm.
    assert (Hj : (idx / n < length moduli)%nat).
    { apply Nat.Div0.div_lt_upper_bound. nia. }
    destruct (lookup_lt_is_Some_2 xs (idx mod n)%nat ltac:(lia)) as [x Hx].
    destruct (lookup_lt_is_Some_2 moduli (idx / n)%nat Hj) as [q Hq].
    pose proof (lookup_limb_major body moduli xs _ _ _ _ Hx Hq) as Hl.
    rewrite Hxs in Hl.
    replace (base + idx)%nat with (base + idx mod n + idx / n * n)%nat by lia.
    rewrite (Hin _ _ _ _ Hx Hq) by nia.
    rewrite <- Hl. f_equal. lia.
Qed.

End Strided.

(** ** Machine-integer facts *)

Lemma to_uint64_small (x : Z) : 0 <= x < 2 ^ 64 -> to_uint64 x = x.
Proof. intros Hx. unfold to_uint64. by apply Z.mod_small. Qed.

Lemma to_uint64_range (x : Z) : 0 <= to_uint64 x < 2 ^ 64.
Proof. unfold to_uint64. apply Z.mod_pos_bound. lia. Qed.

Lemma land_all_ones (q : Z) :
  0 <= q < 2 ^ 64 -> Z.land (2 ^ 64 - 1) q = q.
Proof.
  intros Hq. rewrite Z.land_comm. change (2 ^ 64 - 1) with (Z.ones 64).
  rewrite Z.land_ones by lia. by apply Z.mod_small.
Qed.

Lemma mod_minus_one (q : Z) : 2 <= q -> (- 1) mod q = q - 1.
Proof.
  intros Hq. symmetry. apply (Z.mod_unique (-1) q (-1)); lia.
Qed.

(** The mask of the samplers: all ones when the test holds, else zero. *)
Lemma flag_value (b : bool) :
  to_uint64 (- Z.b2z b) = if b then 2 ^ 64 - 1 else 0.
Proof. by destruct b. Qed.

Lemma draws_Forall draw (P : Z -> Prop) n rng xs rng' :
  (forall r0 x r1, draw r0 = Some (x, r1) -> P x) ->
  draws draw n rng = Some (xs, rng') -> Forall P xs.
Proof.
  intros HP. revert rng xs. induction n as [|n IH]; intros rng xs; simpl.
  - intros [= <- _]. constructor.
  - destruct (draw rng) as [[x rng1]|] eqn:Ed; [|done].
    destruct (draws draw n rng1) as [[xs1 rng2]|] eqn:E; [|done].
    intros [= <- <-]. constructor; [by eapply HP|by eapply IH].
Qed.

(** ** The ternary sampler *)

Section Ternary.
Context `{Collaborators}.

Lemma ternary_body_value (r : Z) (q : Modulus) :
  0 <= r <= 2 -> 2 <= value q < 2 ^ 64 ->
  let mask := if r =? 0 then 2 ^ 64 - 1 else 0 in
  ternary_body r q = r + Z.land mask (value q) - 1
  /\ ternary_body r q = (r - 1) mod value q
  /\ (ternary_body r q = 0 \/ ternary_body r q = 1
      \/ ternary_body r q = value q - 1).
Proof.
  intros Hr Hq. unfold ternary_body. rewrite flag_value.
  assert (r = 0 \/ r = 1 \/ r = 2) as [Hr0|[Hr0|Hr0]] by lia; subst r; simpl.
  - rewrite land_all_ones by lia. rewrite mod_minus_one by lia.
    rewrite to_uint64_small by lia. lia.
  - rewrite Z.land_0_l. change (1 + 0 - 1) with 0. change (1 - 1) with 0.
    rewrite Z.mod_0_l by lia. rewrite to_uint64_small by lia. lia.
  - rewrite Z.land_0_l. change (2 + 0 - 1) with 1. change (2 - 1) with 1.
    rewrite Z.mod_small by lia. rewrite to_uint64_small by lia. lia.
Qed.

(** C3.  [sample_poly_ternary] consumes exactly one draw of the
    distribution over {0,1,2} per coefficient position, not one per limb:
    the tape is left where [poly_modulus_degree] successive draws leave
    it.  With [r] the draw of position [i], the word stored for limb [j]
    is [r + (mask & modulus_j) - 1], where [mask] is all ones exactly
    when [r = 0]; this is [r - 1] reduced modulo [modulus_j], one of
    [0], [1], [modulus_j - 1], so every limb of a position represents
    the same value of {-1,0,1}. *)
Theorem sample_poly_ternary_one_draw_per_coefficient
    (rng : list byte) (parms : EncryptionParameters) (mem : list Z)
    (destination : nat) :
  let n := poly_modulus_degree parms in
  Forall (fun q => 2 <= value q < 2 ^ 64) (coeff_modulus parms) ->
  (destination + n * length (coeff_modulus parms) <= length mem)%nat ->
  match draws uniform_int_0_2 n rng with
  | None => sample_poly_ternary rng parms mem destination = Starved
  | Some (rs, rng') =>
      exists mem',
        sample_poly_ternary rng parms mem destination = Ok (mem', rng')
        /\ length rs = n
        /\ forall i j r q,
             rs !! i = Some r -> coeff_modulus parms !! j = Some q ->
             let mask := if r =? 0 then 2 ^ 64 - 1 else 0 in
             let stored := r + Z.land mask (value q) - 1 in
             0 <= r <= 2
             /\ mem' !! (destination + (i + j * n))%nat = Some stored
             /\ stored = (r - 1) mod value q
             /\ (stored = 0 \/ stored = 1 \/ stored = value q - 1)
  end.
Proof.
  intros n Hmod Hfit. unfold sample_poly_ternary. fold n.
  rewrite iterate_coeffs_closed by done.
  destruct (draws uniform_int_0_2 n rng) as [[rs rng']|] eqn:Hd; [|done].
  pose proof (length_draws _ _ _ _ _ Hd) as Hlen.
  pose proof (draws_Forall _ (fun r => 0 <= r <= 2) _ _ _ _
                uniform_int_0_2_range Hd) as Hrange.
  eexists. split; [reflexivity|]. split; [done|].
  intros i j r q Hr Hq.
  assert (Hr2 : 0 <= r <= 2).
  { rewrite Forall_lookup in Hrange. by apply (Hrange i). }
  assert (Hq2 : 2 <= value q < 2 ^ 64).
  { rewrite Forall_lookup in Hmod. by apply (Hmod j). }
  pose proof (ternary_body_value r q Hr2 Hq2) as Ht. cbv zeta in Ht.
  destruct Ht as (Hv & Hm & Hs). rewrite Hv in Hm, Hs.
  split; [done|]. split; [|by split].
  pose proof (lookup_lt_Some _ _ _ Hr) as Hi.
  pose proof (lookup_lt_Some _ _ _ Hq) as Hj.
  rewrite lookup_write_block_in.
  - replace (destination + (i + j * n) - destination)%nat
      with (i + j * length rs)%nat by lia.
    rewrite (lookup_limb_major _ _ _ _ _ _ _ Hr Hq). by rewrite Hv.
  - rewrite length_limb_major. nia.
  - nia.
Qed.

End Ternary.

(** ** The centered-binomial sampler *)

(** Number of set bits among the low eight bits. *)
Definition popcount (v : Z) : Z :=
  Z.b2z (Z.testbit v 0) + Z.b2z (Z.testbit v 1) + Z.b2z (Z.testbit v 2)
  + Z.b2z (Z.testbit v 3) + Z.b2z (Z.testbit v 4) + Z.b2z (Z.testbit v 5)
  + Z.b2z (Z.testbit v 6) + Z.b2z (Z.testbit v 7).

Lemma hw_is_popcount (b : byte) :
  hw (to_int8 (byte_value b)) = popcount (byte_value b)
  /\ 0 <= popcount (byte_value b) <= 8.
Proof. destruct b; vm_compute; intuition discriminate. Qed.

Lemma hw_masked_is_popcount (b : byte) :
  hw (to_int8 (Z.land (to_int8 (byte_value b)) 0x1F))
    = popcount (Z.land (byte_value b) 0x1F)
  /\ 0 <= popcount (Z.land (byte_value b) 0x1F) <= 5.
Proof. destruct b; vm_compute; intuition discriminate. Qed.

Lemma cbd_value_popcount (b0 b1 b2 b3 b4 b5 : byte) :
  cbd_value b0 b1 b2 b3 b4 b5
    = popcount (byte_value b0) + popcount (byte_value b1)
      + popcount (Z.land (byte_value b2) 0x1F)
      - popcount (byte_value b3) - popcount (byte_value b4)
      - popcount (Z.land (byte_value b5) 0x1F)
  /\ -21 <= cbd_value b0 b1 b2 b3 b4 b5 <= 21.
Proof.
  unfold cbd_value, cbd_bytes.
  destruct (hw_is_popcount b0) as [-> ?], (hw_is_popcount b1) as [-> ?],
    (hw_is_popcount b3) as [-> ?], (hw_is_popcount b4) as [-> ?],
    (hw_masked_is_popcount b2) as [-> ?], (hw_masked_is_popcount b5) as [-> ?].
  lia.
Qed.

Lemma draws_cbd_tape (n : nat) (rng : list byte) xs rng' :
  draws cbd n rng = Some (xs, rng') -> rng' = drop (n * 6) rng.
Proof.
  revert rng xs. induction n as [|n IH]; intros rng xs; simpl.
  - by intros [= _ <-].
  - unfold cbd at 1, generate.
    destruct (6 <=? length rng)%nat eqn:E6; [|done].
    destruct rng as [|b0 [|b1 [|b2 [|b3 [|b4 [|b5 rest]]]]]]; simpl in *; try done.
    change (drop 0 rest) with rest.
    destruct (draws cbd n rest) as [[xs1 rng2]|] eqn:E; [|done].
    intros [= _ <-]. by apply (IH _ _ E).
Qed.

Example are_close_zero : are_close 0 0 = true.
Proof. reflexivity. Qed.

Example are_close_six : are_close 6 0 = false.
Proof. reflexivity. Qed.

Example double_3_2_is_nearest :
  (Qlt_bool (Qabs' (double_3_2 - (16 # 5))) (1 # 4503599627370496) = true)%Q.
Proof. reflexivity. Qed.

(** A configuration under which the binomial sampler draws. *)
Definition cbd_active (g : global_variables) : Prop :=
  are_close (noise_max_deviation g) 0 = false
  /\ Qeq_bool (noise_standard_deviation g) double_3_2 = true.

Lemma sample_poly_cbd_closed (g : global_variables) (rng : list byte)
    (parms : EncryptionParameters) (mem : list Z) (destination : nat) :
  cbd_active g ->
  (destination + poly_modulus_degree parms * length (coeff_modulus parms)
     <= length mem)%nat ->
  sample_poly_cbd g rng parms mem destination
  = match draws cbd (poly_modulus_degree parms) rng with
    | None => Starved
    | Some (vs, rng') =>
        Ok (write_block mem destination
              (limb_major noise_body (coeff_modulus parms) vs), rng')
    end.
Proof.
  intros [Hdev Hsd] Hfit. unfold sample_poly_cbd. rewrite Hdev, Hsd. simpl.
  rewrite iterate_coeffs_closed by done.
  by destruct (draws cbd (poly_modulus_degree parms) rng) as [[vs rng']|].
Qed.

(** C6 (amended).  One call of the lambda [cbd] reads six bytes, masks the
    third and the sixth to their low five bits and returns
    [popcount b0 + popcount b1 + popcount b2 - popcount b3 - popcount b4 -
    popcount b5] of the bytes so masked, an integer in [[-21, 21]]; and,
    under a configuration that lets it draw, [sample_poly_cbd] makes one
    such call per coefficient, so it reads six bytes per coefficient. *)
Theorem cbd_popcount_difference_within_21
    (g : global_variables) (rng : list byte) (parms : EncryptionParameters)
    (mem : list Z) (destination : nat) :
  cbd_active g ->
  (destination + poly_modulus_degree parms * length (coeff_modulus parms)
     <= length mem)%nat ->
  (forall b0 b1 b2 b3 b4 b5 rest,
     let v := popcount (byte_value b0) + popcount (byte_value b1)
              + popcount (Z.land (byte_value b2) 0x1F)
              - popcount (byte_value b3) - popcount (byte_value b4)
              - popcount (Z.land (byte_value b5) 0x1F) in
     cbd (b0 :: b1 :: b2 :: b3 :: b4 :: b5 :: rest) = Some (v, rest)
     /\ -21 <= v <= 21)
  /\ match draws cbd (poly_modulus_degree parms) rng with
     | None => sample_poly_cbd g rng parms mem destination = Starved
     | Some (vs, rng') =>
         sample_poly_cbd g rng parms mem destination
         = Ok (write_block mem destination
                 (limb_major noise_body (coeff_modulus parms) vs), rng')
         /\ rng' = drop (poly_modulus_degree parms * 6) rng
         /\ length vs = poly_modulus_degree parms
         /\ Forall (fun v => -21 <= v <= 21) vs
     end.
Proof.
  intros Hg Hfit. split.
  - intros b0 b1 b2 b3 b4 b5 rest v.
    destruct (cbd_value_popcount b0 b1 b2 b3 b4 b5) as [Hv Hr].
    fold v in Hv. rewrite Hv in Hr. split; [|done].
    unfold cbd, generate. simpl. change (drop 0 rest) with rest.
    by rewrite Hv.
  - rewrite sample_poly_cbd_closed by done.
    destruct (draws cbd (poly_modulus_degree parms) rng) as [[vs rng']|] eqn:Hd;
      [|done].
    split; [done|]. split; [by eapply draws_cbd_tape|].
    split; [by eapply length_draws|].
    eapply draws_Forall; [|exact Hd].
    intros r0 x r1. unfold cbd.
    destruct (generate 6 r0) as [[[|b0 [|b1 [|b2 [|b3 [|b4 [|b5 [|]]]]]]] r2]|];
      try done.
    intros [= <- _]. apply cbd_value_popcount.
Qed.

(** C6, as stated, fails: six bytes whose value is 21. *)
Lemma cbd_value_outside_fifteen :
  cbd [xff; xff; xff; x00; x00; x00] = Some (21, [])
  /\ ~ (-15 <= cbd_value xff xff xff x00 x00 x00 <= 15).
Proof. split; [reflexivity|]. vm_compute. intros [_ Hle]. by apply Hle. Qed.

(** C5 (amended).  With a configured standard deviation other than 3.2,
    [sample_poly_cbd] throws the [UnsupportedParameter] error exactly when
    the maximum deviation is not numerically zero; when it is, the zero
    test in front of the deviation test wins and the destination is
    zero-filled without an error. *)
Theorem sample_poly_cbd_unsupported_deviation
    (g : global_variables) (rng : list byte) (parms : EncryptionParameters)
    (mem : list Z) (destination : nat) :
  Qeq_bool (noise_standard_deviation g) double_3_2 = false ->
  sample_poly_cbd g rng parms mem destination
  = if are_close (noise_max_deviation g) 0
    then Ok (set_zero_poly (poly_modulus_degree parms)
               (length (coeff_modulus parms)) mem destination, rng)
    else Throw UnsupportedParameter.
Proof.
  intros Hsd. unfold sample_poly_cbd. rewrite Hsd. simpl.
  by destruct (are_close (noise_max_deviation g) 0).
Qed.

(** C5, as stated, fails: deviation 1 with maximum deviation 0 returns. *)
Lemma sample_poly_cbd_zero_deviation_returns :
  let g := {| noise_standard_deviation := 1; noise_max_deviation := 0 |} in
  Qeq_bool (noise_standard_deviation g) double_3_2 = false
  /\ sample_poly_cbd g [] Reference.parms_8x2 (replicate 16 7) 0
     = Ok (replicate 16 0, [])
  /\ sample_poly_cbd g [] Reference.parms_8x2 (replicate 16 7) 0
     <> Throw UnsupportedParameter.
Proof. split; [reflexivity|]. split; [reflexivity|]. discriminate. Qed.

(** ** The uniform sampler *)

(** One accepted draw, reduced: what position [(i, j)] receives. *)
Definition uniform_draw (modulus : Modulus) (rng : list byte)
    : option (Z * list byte) :=
  match draw_rand (S (length rng)) (max_multiple_of modulus) rng with
  | Some (rand, rng') => Some (barrett_reduce_64 rand modulus, rng')
  | None => None
  end.

(** The words the uniform sampler produces from a tape, limb after limb. *)
Fixpoint uniform_values (moduli : list Modulus) (n : nat) (rng : list byte)
    : option (list Z * list byte) :=
  match moduli with
  | [] => Some ([], rng)
  | q :: moduli' =>
      match draws (uniform_draw q) n rng with
      | None => None
      | Some (vs, rng') =>
          match uniform_values moduli' n rng' with
          | None => None
          | Some (ws, rng'') => Some (vs ++ ws, rng'')
          end
      end
  end.

Lemma write_block_app (vs ws mem : list Z) (ptr : nat) :
  write_block mem ptr (vs ++ ws)
  = write_block (write_block mem ptr vs) (ptr + length vs) ws.
Proof.
  revert mem ptr. induction vs as [|v vs IH]; intros mem ptr; simpl.
  - by rewrite Nat.add_0_r.
  - rewrite IH. f_equal. lia.
Qed.

Lemma uniform_coeffs_closed (count i j n : nat) (modulus : Modulus)
    (destination : nat) (rng : list byte) (mem : list Z) :
  uniform_coeffs count i j n modulus (max_multiple_of modulus) destination
    rng mem
  = match draws (uniform_draw modulus) count rng with
    | None => None
    | Some (vs, rng') =>
        Some (write_block mem (destination + (i + j * n)) vs, rng')
    end.
Proof.
  revert i rng mem. induction count as [|count IH]; intros i rng mem; [done|].
  cbn [uniform_coeffs draws]. unfold uniform_draw at 1.
  destruct (draw_rand (S (length rng)) (max_multiple_of modulus) rng)
    as [[rand rng1]|]; [|done].
  rewrite IH.
  destruct (draws (uniform_draw modulus) count rng1) as [[vs rng2]|]; [|done].
  cbn [write_block]. do 3 f_equal. lia.
Qed.

Lemma uniform_limbs_closed (moduli : list Modulus) (j n : nat)
    (destination : nat) (rng : list byte) (mem : list Z) :
  uniform_limbs moduli j n destination rng mem
  = match uniform_values moduli n rng with
    | None => None
    | Some (vs, rng') => Some (write_block mem (destination + j * n) vs, rng')
    end.
Proof.
  revert j rng mem. induction moduli as [|q moduli IH]; intros j rng mem; [done|].
  cbn [uniform_limbs uniform_values]. rewrite uniform_coeffs_closed.
  destruct (draws (uniform_draw q) n rng) as [[vs rng1]|] eqn:Hd; [|done].
  rewrite IH.
  destruct (uniform_values moduli n rng1) as [[ws rng2]|]; [|done].
  rewrite write_block_app, (length_draws _ _ _ _ _ Hd).
  do 3 f_equal; lia.
Qed.

(** The uniform sampler stores [uniform_values] at [destination]. *)
Lemma sample_poly_uniform_closed (rng : list byte)
    (parms : EncryptionParameters) (mem : list Z) (destination : nat) :
  sample_poly_uniform rng parms mem destination
  = match uniform_values (coeff_modulus parms) (poly_modulus_degree parms) rng with
    | None => Starved
    | Some (vs, rng') => Ok (write_block mem destination vs, rng')
    end.
Proof.
  unfold sample_poly_uniform. rewrite uniform_limbs_closed.
  destruct (uniform_values _ _ rng) as [[vs rng']|]; [|done].
  simpl. by rewrite Nat.add_0_r.
Qed.

Lemma length_uniform_values (moduli : list Modulus) (n : nat) rng vs rng' :
  uniform_values moduli n rng = Some (vs, rng') ->
  length vs = (length moduli * n)%nat.
Proof.
  revert rng vs. induction moduli as [|q moduli IH]; intros rng vs; simpl.
  - by intros [= <- _].
  - destruct (draws (uniform_draw q) n rng) as [[xs rng1]|] eqn:Hd; [|done].
    destruct (uniform_values moduli n rng1) as [[ws rng2]|] eqn:Hu; [|done].
    intros [= <- <-]. rewrite length_app, (length_draws _ _ _ _ _ Hd).
    by rewrite (IH _ _ Hu).
Qed.

(** Every word of limb [j] is a residue of that limb's modulus. *)
Lemma uniform_values_residue (moduli : list Modulus) (n : nat) rng vs rng' :
  uniform_values moduli n rng = Some (vs, rng') ->
  forall i j q v, (i < n)%nat -> moduli !! j = Some q -> 0 < value q ->
    vs !! (i + j * n)%nat = Some v -> 0 <= v < value q.
Proof.
  revert rng vs. induction moduli as [|q0 moduli IH]; intros rng vs; simpl; [done|].
  destruct (draws (uniform_draw q0) n rng) as [[xs rng1]|] eqn:Hd; [|done].
  destruct (uniform_values moduli n rng1) as [[ws rng2]|] eqn:Hu; [|done].
  intros [= <- <-] i j q v Hi Hq Hpos Hv.
  pose proof (length_draws _ _ _ _ _ Hd) as Hlen.
  destruct j as [|j]; simpl in *.
  - injection Hq as ->. rewrite Nat.add_0_r, lookup_app_l in Hv by lia.
    assert (Hall : Forall (fun v => 0 <= v < value q) xs).
    { eapply draws_Forall; [|exact Hd]. intros r0 x r1. unfold uniform_draw.
      destruct (draw_rand _ _ r0) as [[rand r2]|]; [|done].
      intros [= <- _]. unfold barrett_reduce_64. by apply Z.mod_pos_bound. }
    rewrite Forall_lookup in Hall. by apply (Hall i).
  - rewrite lookup_app_r in Hv by lia.
    replace (i + (n + j * n) - length xs)%nat with (i + j * n)%nat in Hv by lia.
    by eapply (IH _ _ Hu i j).
Qed.

(** ** Limbs of a polynomial inside a buffer *)

Lemma read_write_block (blk mem : list Z) (ptr n : nat) :
  length blk = n -> (ptr + n <= length mem)%nat ->
  read_block (write_block mem ptr blk) ptr n = blk.
Proof. intros <- Hfit. by apply read_write_block_same. Qed.

Lemma length_zip_with_read (f : Z -> Z -> Z) (m1 m2 : list Z) (p1 p2 n : nat) :
  length (zip_with f (read_block m1 p1 n) (read_block m2 p2 n)) = n.
Proof.
  rewrite length_zip_with_l_eq; rewrite !length_read_block; done.
Qed.

Section Limbs.
Context `{Collaborators}.

Lemma length_transform_at f t n mem ptr :
  length (transform_at f t n mem ptr) = length mem.
Proof. apply length_write_block. Qed.

Lemma length_transform_limbs f count i n tables mem ptr :
  length (transform_limbs f count i n tables mem ptr) = length mem.
Proof.
  revert i mem. induction count as [|count IH]; intros i mem; simpl; [done|].
  by rewrite IH, length_transform_at.
Qed.

(** A per-limb transform rewrites the limbs it visits and nothing else. *)
Lemma transform_limbs_spec (f : NTTTables -> list Z -> list Z)
    (count i n : nat) (tables : list NTTTables) (mem : list Z) (ptr : nat) :
  (forall t a, length (f t a) = length a) ->
  (ptr + (i + count) * n <= length mem)%nat ->
  let mem' := transform_limbs f count i n tables mem ptr in
  (forall x, (x < ptr + i * n \/ ptr + (i + count) * n <= x)%nat ->
             mem' !! x = mem !! x)
  /\ (forall l, (i <= l < i + count)%nat ->
        read_block mem' (ptr + l * n) n
        = f (tables !!! l) (read_block mem (ptr + l * n) n)).
Proof.
  intros Hf. revert i mem.
  induction count as [|count IH]; intros i mem Hfit; simpl.
  - split; [done|]. intros l Hl. lia.
  - set (mem1 := transform_at f (tables !!! i) n mem (ptr + i * n)).
    assert (Hlen1 : length mem1 = length mem) by apply length_transform_at.
    destruct (IH (S i) mem1) as [Hout Hin]; [rewrite Hlen1; lia|].
    assert (Hout1 : forall x, (x < ptr + i * n \/ ptr + S i * n <= x)%nat ->
                              mem1 !! x = mem !! x).
    { intros x Hx. unfold mem1, transform_at.
      apply lookup_write_block_out. rewrite Hf, length_read_block. lia. }
    split.
    + intros x Hx. rewrite Hout by lia. apply Hout1. lia.
    + intros l Hl. destruct (decide (l = i)) as [->|Hne].
      * rewrite (read_block_ext _ mem1) by (intros x Hx; apply Hout; nia).
        unfold mem1, transform_at. apply read_write_block.
        -- by rewrite Hf, length_read_block.
        -- nia.
      * rewrite Hin by lia. f_equal.
        apply read_block_ext. intros x Hx. apply Hout1. nia.
Qed.

(** Limb [i] of [c0], from limb [i] of the secret key [s], of the
    second component [a] as the loop finds it, and of the noise [e]. *)
Definition c0_limb (is_ntt : bool) (q : Modulus) (t : NTTTables)
    (s a e : list Z) : list Z :=
  let product := zip_with (fun x y => (x * y) mod value q) s a in
  let product :=
    if is_ntt then product else inverse_ntt_negacyclic_harvey t product in
  let e := if is_ntt then ntt_negacyclic_harvey t e else e in
  (fun x => (- x) mod value q)
    <$> zip_with (fun x y => (x + y) mod value q) e product.

Lemma symmetric_limbs_spec (count i n : nat) (is_ntt : bool)
    (moduli : list Modulus) (tables : list NTTTables) (sk : SecretKey)
    (c0 c1 : nat) (noise mem : list Z) :
  (c0 + (i + count) * n <= c1)%nat ->
  (c1 + (i + count) * n <= length mem)%nat ->
  ((i + count) * n <= length noise)%nat ->
  let r := symmetric_limbs count i n is_ntt moduli tables sk c0 c1 noise mem in
  length r.2 = length mem
  /\ (forall x, (x < c0 + i * n \/ c0 + (i + count) * n <= x)%nat ->
                r.2 !! x = mem !! x)
  /\ (forall l, (i <= l < i + count)%nat ->
        read_block r.2 (c0 + l * n) n
        = c0_limb is_ntt (moduli !!! l) (tables !!! l)
            (read_block (sk_data sk) (l * n) n)
            (read_block mem (c1 + l * n) n)
            (read_block noise (l * n) n)).
Proof.
  revert i noise mem.
  induction count as [|count IH]; intros i noise mem Hsep Hfit Hnoise.
  - simpl. split; [done|]. split; [done|]. intros l Hl. lia.
  - cbn [symmetric_limbs].
    set (off := (i * n)%nat).
    set (q := moduli !!! i). set (t := tables !!! i).
    set (m1 := dyadic_product_coeffmod (sk_data sk) off mem (c1 + off) n q
                 mem (c0 + off)).
    set (noise1 := if is_ntt
                   then transform_at ntt_negacyclic_harvey t n noise off
                   else noise).
    set (m2 := if is_ntt then m1
               else transform_at inverse_ntt_negacyclic_harvey t n m1 (c0 + off)).
    assert (Hpair :
      (if is_ntt
       then (transform_at ntt_negacyclic_harvey t n noise off, m1)
       else (noise, transform_at inverse_ntt_negacyclic_harvey t n m1 (c0 + off)))
      = (noise1, m2)) by (unfold noise1, m2; by destruct is_ntt).
    rewrite Hpair. clear Hpair.
    set (m3 := add_poly_coeffmod noise1 off m2 (c0 + off) n q m2 (c0 + off)).
    set (m4 := negate_poly_coeffmod m3 (c0 + off) n q m3 (c0 + off)).
    (* lengths *)
    assert (Hl1 : length m1 = length mem) by apply length_write_block.
    assert (Hl2 : length m2 = length mem).
    { unfold m2. destruct is_ntt; [done|]. by rewrite length_transform_at. }
    assert (Hl3 : length m3 = length mem)
      by (unfold m3, add_poly_coeffmod; by rewrite length_write_block).
    assert (Hl4 : length m4 = length mem)
      by (unfold m4, negate_poly_coeffmod; by rewrite length_write_block).
    assert (Hln : length noise1 = length noise).
    { unfold noise1. destruct is_ntt; [|done]. by rewrite length_transform_at. }
    (* the block written in this turn *)
    pose proof (length_zip_with_read (fun a b => (a * b) mod value q)
                  (sk_data sk) mem off (c1 + off) n) as HB1.
    assert (Hr1 : read_block m1 (c0 + off) n
                  = zip_with (fun a b => (a * b) mod value q)
                      (read_block (sk_data sk) off n)
                      (read_block mem (c1 + off) n)).
    { unfold m1, dyadic_product_coeffmod. apply read_write_block; [done|].
      unfold off. nia. }
    assert (Hr2 : read_block m2 (c0 + off) n
                  = if is_ntt then read_block m1 (c0 + off) n
                    else inverse_ntt_negacyclic_harvey t
                           (read_block m1 (c0 + off) n)).
    { unfold m2. destruct is_ntt; [done|]. unfold transform_at.
      apply read_write_block.
      - by rewrite inverse_ntt_length, length_read_block.
      - rewrite Hl1. unfold off. nia. }
    assert (Hrn : read_block noise1 off n
                  = if is_ntt
                    then ntt_negacyclic_harvey t (read_block noise off n)
                    else read_block noise off n).
    { unfold noise1. destruct is_ntt; [|done]. unfold transform_at.
      apply read_write_block.
      - by rewrite ntt_length, length_read_block.
      - unfold off. nia. }
    assert (Hr3 : read_block m3 (c0 + off) n
                  = zip_with (fun a b => (a + b) mod value q)
                      (read_block noise1 off n) (read_block m2 (c0 + off) n)).
    { unfold m3, add_poly_coeffmod. apply read_write_block.
      - apply length_zip_with_read.
      - rewrite Hl2. unfold off. nia. }
    assert (Hr4 : read_block m4 (c0 + off) n
                  = (fun a => (- a) mod value q) <$> read_block m3 (c0 + off) n).
    { unfold m4, negate_poly_coeffmod. apply read_write_block.
      - by rewrite length_fmap, length_read_block.
      - rewrite Hl3. unfold off. nia. }
    (* what this turn leaves alone *)
    assert (Ho4 : forall x, (x < c0 + off \/ c0 + off + n <= x)%nat ->
                            m4 !! x = mem !! x).
    { intros x Hx. unfold m4, negate_poly_coeffmod.
      rewrite lookup_write_block_out
        by (rewrite length_fmap, length_read_block; lia).
      unfold m3, add_poly_coeffmod.
      rewrite lookup_write_block_out by (rewrite length_zip_with_read; lia).
      assert (m2 !! x = m1 !! x) as ->.
      { unfold m2. destruct is_ntt; [done|]. unfold transform_at.
        apply lookup_write_block_out.
        rewrite inverse_ntt_length, length_read_block. lia. }
      unfold m1, dyadic_product_coeffmod.
      apply lookup_write_block_out. rewrite HB1. lia. }
    assert (Hon : forall x, (x < off \/ off + n <= x)%nat ->
                            noise1 !! x = noise !! x).
    { intros x Hx. unfold noise1. destruct is_ntt; [|done].
      unfold transform_at. apply lookup_write_block_out.
      rewrite ntt_length, length_read_block. lia. }
    destruct (IH (S i) noise1 m4) as (Hlen & Hout & Hin);
      [lia|rewrite Hl4; lia|rewrite Hln; lia|].
    split; [by rewrite Hlen|]. split.
    + intros x Hx. rewrite Hout by lia. apply Ho4. unfold off. lia.
    + intros l Hl. destruct (decide (l = i)) as [->|Hne].
      * rewrite (read_block_ext _ m4) by (intros x Hx; apply Hout; nia).
        fold off. rewrite Hr4, Hr3, Hrn, Hr2, Hr1. unfold c0_limb.
        fold q t. by destruct is_ntt.
      * rewrite Hin by lia. f_equal.
        -- apply read_block_ext. intros x Hx. apply Ho4. unfold off. nia.
        -- apply read_block_ext. intros x Hx. apply Hon. unfold off. nia.
Qed.

End Limbs.

(** ** encrypt_zero_symmetric, step by step *)

Lemma read_block_inside_write (blk mem : list Z) (ptr o n : nat) :
  (o + n <= length blk)%nat -> (ptr + length blk <= length mem)%nat ->
  read_block (write_block mem ptr blk) (ptr + o) n = read_block blk o n.
Proof.
  intros Ho Hfit. apply list_eq. intros i.
  destruct (decide (i < n)%nat) as [Hi|Hi].
  - rewrite !lookup_read_block by done. f_equal.
    rewrite !list_lookup_total_alt, lookup_write_block_in by lia.
    f_equal. f_equal. lia.
  - rewrite !lookup_ge_None_2; [done|rewrite length_read_block; lia..].
Qed.

Lemma length_seed_words (count : nat) (bs : list byte) :
  length (seed_words count bs) = count.
Proof.
  revert bs. induction count as [|count IH]; intros bs; simpl; [done|].
  by rewrite IH.
Qed.

Lemma length_iterate_coeffs draw body count I stride moduli rng mem mem' rng' :
  iterate_coeffs draw body count I stride moduli rng mem = Some (mem', rng') ->
  length mem' = length mem.
Proof.
  revert I rng mem. induction count as [|count IH]; intros I rng mem; simpl.
  - by intros [= <- _].
  - destruct (draw rng) as [[x rng1]|]; [|done].
    intros Hrun. rewrite (IH _ _ _ Hrun). apply length_stride_store.
Qed.

Section Symmetric.
Context `{Collaborators}.

Lemma length_sample_noise b g rng parms mem destination mem' rng' :
  sample_noise b g rng parms mem destination = Ok (mem', rng') ->
  length mem' = length mem.
Proof.
  unfold sample_noise, sample_poly_normal, sample_poly_cbd, set_zero_poly.
  destruct (SEAL_USE_GAUSSIAN b);
    destruct (are_close (noise_max_deviation g) 0).
  - intros [= <- _]. apply length_write_block.
  - destruct (iterate_coeffs _ _ _ _ _ _ _ _) as [[m r]|] eqn:E; [|done].
    intros [= <- _]. by eapply length_iterate_coeffs.
  - intros [= <- _]. apply length_write_block.
  - destruct (negb _); [done|].
    destruct (iterate_coeffs _ _ _ _ _ _ _ _) as [[m r]|] eqn:E; [|done].
    intros [= <- _]. by eapply length_iterate_coeffs.
Qed.

Lemma seed_fits_true (save_seed : bool) (count : nat) :
  seed_fits save_seed count = true
  <-> save_seed = true /\ (prng_seed_uint64_count + 1 <= count)%nat.
Proof.
  unfold seed_fits. destruct save_seed; simpl.
  - destruct (Nat.ltb_spec count (prng_seed_uint64_count + 1)) as [Hlt|Hge].
    + split; [done|]. intros [_ Hle]. lia.
    + split; [|done]. intros _. split; [done|lia].
  - split; [done|]. by intros [? _].
Qed.

(** The destination right after the resize and the two assignments. *)
Definition prepared (destination : Ciphertext) (context : SEALContext)
    (parms_id : parms_id_type) (size : nat) (is_ntt : bool) : Ciphertext :=
  with_flags (resize destination context parms_id size) is_ntt 1.

Lemma length_prepared destination context parms_id size is_ntt :
  let p := parms (get_context_data context parms_id) in
  length (ct_data (prepared destination context parms_id size is_ntt))
  = (size * (poly_modulus_degree p * length (coeff_modulus p)))%nat.
Proof.
  simpl. rewrite length_take, length_app, length_replicate. lia.
Qed.

(** The buffer of the destination once [c1] has been sampled (and, on
    the compressing non-NTT path, transformed). *)
Definition after_sampling (is_ntt compress : bool) (n : nat)
    (moduli : list Modulus) (tables : list NTTTables)
    (data0 a : list Z) : list Z :=
  let c1 := (n * length moduli)%nat in
  let m1 := write_block data0 c1 a in
  if is_ntt || negb compress then m1
  else transform_limbs ntt_negacyclic_harvey (length moduli) 0 n tables m1 c1.

(** The buffer of the destination at the return. *)
Definition at_return (is_ntt compress : bool) (n : nat)
    (moduli : list Modulus) (tables : list NTTTables) (sk : SecretKey)
    (seed data0 a e : list Z) : list Z :=
  let c1 := (n * length moduli)%nat in
  let mw := after_sampling is_ntt compress n moduli tables data0 a in
  let m2 :=
    (symmetric_limbs (length moduli) 0 n is_ntt moduli tables sk 0 c1 e mw).2 in
  let m3 :=
    if negb is_ntt && negb compress
    then transform_limbs inverse_ntt_negacyclic_harvey (length moduli) 0 n
           tables m2 c1
    else m2 in
  if compress
  then write_block (<[c1 := 0xFFFFFFFFFFFFFFFF]> m3) (c1 + 1) seed
  else m3.

Lemma ct_component_prepared destination context parms_id size is_ntt j :
  let p := parms (get_context_data context parms_id) in
  ct_component (prepared destination context parms_id size is_ntt) j
  = (j * (poly_modulus_degree p * length (coeff_modulus p)))%nat.
Proof. done. Qed.

(** The run, past validation, in terms of what the samplers deliver. *)
Lemma encrypt_zero_symmetric_unfold b g entropy sk context parms_id
    is_ntt save_seed destination :
  let cd := get_context_data context parms_id in
  let p := parms cd in
  let n := poly_modulus_degree p in
  let moduli := coeff_modulus p in
  let tables := small_ntt_tables cd in
  let compress := seed_fits save_seed (n * length moduli) in
  let dest0 := prepared destination context parms_id 2 is_ntt in
  SEAL_DEBUG b && negb (is_valid_for_secret_key sk context) = false ->
  encrypt_zero_symmetric b g entropy sk context parms_id is_ntt save_seed
    destination
  = match generate (8 * prng_seed_uint64_count) entropy with
    | None => (Ran_dry, dest0)
    | Some (seed_bytes, boot) =>
        let seed := seed_words prng_seed_uint64_count seed_bytes in
        match uniform_values moduli n (blake_prng seed) with
        | None => (Ran_dry, dest0)
        | Some (a, _) =>
            let mw :=
              after_sampling is_ntt compress n moduli tables (ct_data dest0) a in
            match sample_noise b g boot p (allocate_poly n (length moduli)) 0 with
            | Throw e => (Threw e, with_data dest0 mw)
            | Starved => (Ran_dry, with_data dest0 mw)
            | Ok (e, _) =>
                (Returned,
                 with_data dest0
                   (at_return is_ntt compress n moduli tables sk seed
                      (ct_data dest0) a e))
            end
        end
    end.
Proof.
  intros cd p n moduli tables compress dest0 Hvalid.
  unfold encrypt_zero_symmetric. rewrite Hvalid.
  fold cd. fold p. fold n. fold moduli. fold tables. fold compress.
  change (with_flags (resize destination context parms_id 2) is_ntt 1)
    with dest0.
  destruct (generate (8 * prng_seed_uint64_count) entropy)
    as [[seed_bytes boot]|]; [|done].
  rewrite !sample_poly_uniform_closed. fold moduli. fold n.
  change (ct_component dest0 0) with 0%nat.
  change (ct_component dest0 1) with (1 * (n * length moduli))%nat.
  rewrite Nat.mul_1_l.
  destruct (uniform_values moduli n _) as [[a rng_a]|].
  - unfold at_return, after_sampling.
    destruct is_ntt, compress; simpl;
      destruct (sample_noise _ _ _ _ _ _) as [[e boot']| |]; try done;
      by destruct (symmetric_limbs _ _ _ _ _ _ _ _ _ _ _).
  - by destruct is_ntt, compress.
Qed.

End Symmetric.

Section SymmetricBuffers.
Context `{Collaborators}.

Variables (is_ntt compress : bool) (n : nat) (moduli : list Modulus).
Variables (tables : list NTTTables) (sk : SecretKey).
Variables (seed data0 a e : list Z).

Let k := length moduli.
Let c1 := (n * k)%nat.

Hypothesis Hdata0 : length data0 = (2 * c1)%nat.
Hypothesis Ha : length a = c1.

(** Limb [l] of the second component as the loop over the limbs reads it. *)
Definition working_limb (l : nat) : list Z :=
  if negb is_ntt && compress
  then ntt_negacyclic_harvey (tables !!! l) (read_block a (l * n) n)
  else read_block a (l * n) n.

Lemma after_sampling_spec :
  let mw := after_sampling is_ntt compress n moduli tables data0 a in
  length mw = (2 * c1)%nat
  /\ (forall x, (x < c1)%nat -> mw !! x = data0 !! x)
  /\ (forall l, (l < k)%nat ->
        read_block mw (c1 + l * n) n = working_limb l).
Proof.
  unfold after_sampling, working_limb. fold k. fold c1.
  set (m1 := write_block data0 c1 a).
  assert (Hl1 : length m1 = (2 * c1)%nat)
    by (unfold m1; by rewrite length_write_block).
  assert (Ho1 : forall x, (x < c1)%nat -> m1 !! x = data0 !! x).
  { intros x Hx. apply lookup_write_block_out. lia. }
  assert (Hr1 : forall l, (l < k)%nat ->
                 read_block m1 (c1 + l * n) n = read_block a (l * n) n).
  { intros l Hl. apply read_block_inside_write; rewrite Ha; unfold c1; nia. }
  destruct is_ntt, compress; simpl; try by repeat split.
  destruct (transform_limbs_spec ntt_negacyclic_harvey k 0 n tables m1 c1
              ntt_length) as [Hout Hin].
  { rewrite Hl1. unfold c1. nia. }
  split; [by rewrite length_transform_limbs|]. split.
  - intros x Hx. rewrite Hout by lia. by apply Ho1.
  - intros l Hl. rewrite Hin by lia. f_equal. by apply Hr1.
Qed.

Hypothesis He : length e = c1.
Hypothesis Hseed : length seed = prng_seed_uint64_count.
Hypothesis Hroom : compress = true -> (prng_seed_uint64_count + 1 <= c1)%nat.

Lemma at_return_spec :
  let m := at_return is_ntt compress n moduli tables sk seed data0 a e in
  length m = (2 * c1)%nat
  /\ (forall l, (l < k)%nat ->
        read_block m (l * n) n
        = c0_limb is_ntt (moduli !!! l) (tables !!! l)
            (read_block (sk_data sk) (l * n) n) (working_limb l)
            (read_block e (l * n) n))
  /\ (compress = false ->
      forall l, (l < k)%nat ->
        read_block m (c1 + l * n) n
        = if is_ntt then read_block a (l * n) n
          else inverse_ntt_negacyclic_harvey (tables !!! l)
                 (read_block a (l * n) n))
  /\ (compress = true ->
      m !! c1 = Some 0xFFFFFFFFFFFFFFFF
      /\ read_block m (c1 + 1) prng_seed_uint64_count = seed).
Proof.
  destruct after_sampling_spec as (Hlw & How & Hrw).
  unfold at_return. fold k. fold c1.
  set (mw := after_sampling is_ntt compress n moduli tables data0 a) in *.
  destruct (symmetric_limbs_spec k 0 n is_ntt moduli tables sk 0 c1 e mw)
    as (Hl2 & Ho2 & Hr2).
  { unfold c1. nia. } { rewrite Hlw. unfold c1. nia. } { rewrite He. unfold c1. nia. }
  set (m2 := (symmetric_limbs k 0 n is_ntt moduli tables sk 0 c1 e mw).2) in *.
  set (m3 := if negb is_ntt && negb compress
             then transform_limbs inverse_ntt_negacyclic_harvey k 0 n tables m2 c1
             else m2).
  assert (Hl3 : length m3 = (2 * c1)%nat).
  { unfold m3. destruct (negb is_ntt && negb compress);
      rewrite ?length_transform_limbs; congruence. }
  assert (Hc0 : forall l, (l < k)%nat ->
            read_block m2 (l * n) n
            = c0_limb is_ntt (moduli !!! l) (tables !!! l)
                (read_block (sk_data sk) (l * n) n) (working_limb l)
                (read_block e (l * n) n)).
  { intros l Hl. specialize (Hr2 l ltac:(lia)). simpl in Hr2.
    rewrite Hr2. by rewrite Hrw. }
  assert (Hc1 : forall l, (l < k)%nat ->
            read_block m2 (c1 + l * n) n = working_limb l).
  { intros l Hl. rewrite <- Hrw by done. apply read_block_ext.
    intros x Hx. apply Ho2. unfold c1. nia. }
  assert (Ho3 : forall x, (x < c1)%nat -> m3 !! x = m2 !! x).
  { intros x Hx. unfold m3. destruct (negb is_ntt && negb compress); [|done].
    destruct (transform_limbs_spec inverse_ntt_negacyclic_harvey k 0 n tables
                m2 c1 inverse_ntt_length) as [Hout _].
    { rewrite Hl2, Hlw. unfold c1. nia. }
    apply Hout. lia. }
  assert (Hr3 : forall l, (l < k)%nat ->
            read_block m3 (l * n) n = read_block m2 (l * n) n).
  { intros l Hl. apply read_block_ext. intros x Hx. apply Ho3.
    unfold c1. nia. }
  destruct compress eqn:Hc.
  - (* the marker and the seed overwrite the head of c1 *)
    specialize (Hroom eq_refl).
    set (m4 := write_block (<[c1:=18446744073709551615]> m3) (c1 + 1) seed).
    assert (Ho4 : forall x, (x < c1)%nat -> m4 !! x = m3 !! x).
    { intros x Hx. unfold m4. rewrite lookup_write_block_out by lia.
      apply list_lookup_insert_ne. lia. }
    split; [unfold m4; by rewrite length_write_block, length_insert|].
    split; [|split; [done|]].
    + intros l Hl. rewrite <- Hc0, <- Hr3 by done.
      apply read_block_ext. intros x Hx. apply Ho4. unfold c1. nia.
    + intros _. split.
      * unfold m4. rewrite lookup_write_block_out by lia.
        apply list_lookup_insert_eq. lia.
      * unfold m4. apply read_write_block; [done|].
        rewrite length_insert. lia.
  - split; [done|]. split; [|split; [|done]].
    + intros l Hl. rewrite Hr3 by done. by apply Hc0.
    + intros _ l Hl. unfold m3. unfold working_limb in Hc1.
      rewrite ?Hc, andb_false_r in Hc1. destruct is_ntt; simpl.
      * by apply Hc1.
      * destruct (transform_limbs_spec inverse_ntt_negacyclic_harvey k 0 n
                    tables m2 c1 inverse_ntt_length) as [_ Hin].
        { rewrite Hl2, Hlw. unfold c1. nia. }
        rewrite Hin by lia. f_equal. by apply Hc1.
Qed.

End SymmetricBuffers.

(** ** encrypt_zero_symmetric: what a returning run leaves in the destination *)

Section SymmetricRun.
Context `{Collaborators}.

Variables (b : build) (g : global_variables) (entropy : list byte).
Variables (sk : SecretKey) (context : SEALContext) (parms_id : parms_id_type).
Variables (is_ntt save_seed : bool) (destination : Ciphertext).

Let cd := get_context_data context parms_id.
Let p := parms cd.
Let n := poly_modulus_degree p.
Let moduli := coeff_modulus p.
Let k := length moduli.
Let tables := small_ntt_tables cd.
Let c1 := (n * k)%nat.
Let compress := seed_fits save_seed c1.

Variables (seed_bytes boot : list byte) (a : list Z) (rng_a : list byte).
Variables (e : list Z) (boot' : list byte).

Let seed := seed_words prng_seed_uint64_count seed_bytes.

Hypothesis Hvalid :
  SEAL_DEBUG b && negb (is_valid_for_secret_key sk context) = false.
Hypothesis Hgen :
  generate (8 * prng_seed_uint64_count) entropy = Some (seed_bytes, boot).
Hypothesis Huniform :
  uniform_values moduli n (blake_prng seed) = Some (a, rng_a).
Hypothesis Hnoise :
  sample_noise b g boot p (allocate_poly n k) 0 = Ok (e, boot').

Lemma encrypt_zero_symmetric_returns :
  exists ct,
    encrypt_zero_symmetric b g entropy sk context parms_id is_ntt save_seed
      destination = (Returned, ct)
    /\ (ct_size ct = 2%nat /\ is_ntt_form ct = is_ntt /\ scale ct = 1%Q
        /\ ct_parms_id ct = parms_id /\ ct_poly_modulus_degree ct = n
        /\ ct_coeff_modulus_size ct = k)
    /\ length (ct_data ct) = (2 * c1)%nat
    /\ (forall l, (l < k)%nat ->
          read_block (ct_data ct) (l * n) n
          = c0_limb is_ntt (moduli !!! l) (tables !!! l)
              (read_block (sk_data sk) (l * n) n)
              (working_limb is_ntt compress n tables a l)
              (read_block e (l * n) n))
    /\ (compress = false ->
        forall l, (l < k)%nat ->
          read_block (ct_data ct) (c1 + l * n) n
          = if is_ntt then read_block a (l * n) n
            else inverse_ntt_negacyclic_harvey (tables !!! l)
                   (read_block a (l * n) n))
    /\ (compress = true ->
        ct_data ct !! c1 = Some 0xFFFFFFFFFFFFFFFF
        /\ read_block (ct_data ct) (c1 + 1) prng_seed_uint64_count = seed).
Proof.
  pose proof (encrypt_zero_symmetric_unfold b g entropy sk context parms_id
                is_ntt save_seed destination Hvalid) as Hrun.
  cbv zeta in Hrun. fold cd p n moduli k tables c1 compress in Hrun.
  rewrite Hgen in Hrun. fold seed in Hrun.
  rewrite Huniform, Hnoise in Hrun.
  eexists. split; [exact Hrun|]. split; [done|].
  apply (at_return_spec is_ntt compress n moduli tables sk seed).
  - rewrite length_prepared. fold cd p n moduli k c1. lia.
  - rewrite (length_uniform_values _ _ _ _ _ Huniform). unfold c1, k. lia.
  - rewrite (length_sample_noise _ _ _ _ _ _ _ _ Hnoise).
    unfold allocate_poly. by rewrite length_replicate.
  - apply length_seed_words.
  - intros Hc. by apply seed_fits_true in Hc as [_ Hc].
Qed.

End SymmetricRun.

(** ** A concrete scenario: degree 8, limbs 97 and 113 *)

Module Scenario.
Import Reference.

Definition t97 : NTTTables := {| ntt_modulus := q97; ntt_root := 8 |}.
Definition t113 : NTTTables := {| ntt_modulus := q113; ntt_root := 35 |}.

Definition context : SEALContext :=
  {| get_context_data := fun _ =>
       {| parms := parms_8x2; small_ntt_tables := [t97; t113] |} |}.

(** Sixty-four bytes for the seed and six per coefficient for the noise. *)
Definition entropy : list byte := lcg_bytes 112 2024.

Definition secret_key : SecretKey :=
  {| sk_data := [3; 1; 4; 1; 5; 9; 2; 6; 5; 3; 5; 8; 9; 7; 9; 3] |}.

(** Standard deviation 3.2, maximum deviation six times that. *)
Definition globals : global_variables :=
  {| noise_standard_deviation := double_3_2;
     noise_max_deviation := (96 # 5)%Q |}.

(** A configuration the binomial sampler rejects. *)
Definition globals_unsupported : global_variables :=
  {| noise_standard_deviation := 1; noise_max_deviation := 6 |}.

Definition release : build :=
  {| SEAL_DEBUG := false; SEAL_USE_GAUSSIAN := false |}.

Definition empty_ciphertext : Ciphertext :=
  {| ct_parms_id := 0%nat; is_ntt_form := false; scale := 1; ct_size := 0;
     ct_poly_modulus_degree := 0; ct_coeff_modulus_size := 0;
     ct_data := [] |}.

(** The seed the run draws and the polynomial the seeded stream yields. *)
Definition seed : list Z := seed_words 8 (take 64 entropy).

Definition run (is_ntt save_seed : bool) : outcome * Ciphertext :=
  encrypt_zero_symmetric release globals entropy secret_key context 0%nat
    is_ntt save_seed empty_ciphertext.

(** The same call under the configuration the binomial sampler rejects. *)
Definition run_unsupported : outcome * Ciphertext :=
  encrypt_zero_symmetric release globals_unsupported entropy secret_key
    context 0%nat true false empty_ciphertext.

(** Another secret key of the same shape. *)
Definition other_secret_key : SecretKey :=
  {| sk_data := [2; 7; 1; 8; 2; 8; 1; 8; 2; 8; 4; 5; 9; 0; 4; 5] |}.

(** A public key: an NTT-form encryption of zero under [secret_key]. *)
Definition public_key : PublicKey := {| pk_data := (run true false).2 |}.

Definition run_asymmetric (g : global_variables) : outcome * Ciphertext :=
  encrypt_zero_asymmetric release g entropy public_key context 0%nat true
    empty_ciphertext.

(** Degree 4 and the single limb 97: four words, too few for a seed. *)
Definition small_context : SEALContext :=
  {| get_context_data := fun _ =>
       {| parms := {| poly_modulus_degree := 4; coeff_modulus := [q97] |};
          small_ntt_tables := [{| ntt_modulus := q97; ntt_root := 33 |}] |} |}.

Definition small_secret_key : SecretKey := {| sk_data := [3; 1; 4; 1] |}.

Definition run_small (is_ntt save_seed : bool) : outcome * Ciphertext :=
  encrypt_zero_symmetric release globals entropy small_secret_key
    small_context 0%nat is_ntt save_seed empty_ciphertext.

End Scenario.

Lemma write_block_whole (blk mem : list Z) :
  length blk = length mem -> write_block mem 0 blk = blk.
Proof.
  intros Hlen. apply list_eq. intros x.
  destruct (decide (x < length mem)%nat) as [Hx|Hx].
  - rewrite lookup_write_block_in by lia. by rewrite Nat.sub_0_r.
  - rewrite !lookup_ge_None_2; [done|rewrite ?length_write_block; lia..].
Qed.

(** The polynomial the uniform sampler produces, on a buffer of its own. *)
Lemma sample_poly_uniform_fresh (rng : list byte)
    (parms : EncryptionParameters) (a : list Z) (rng' : list byte) :
  sample_poly_uniform rng parms
    (replicate (poly_modulus_degree parms * length (coeff_modulus parms)) 0) 0
    = Ok (a, rng') ->
  uniform_values (coeff_modulus parms) (poly_modulus_degree parms) rng
    = Some (a, rng').
Proof.
  rewrite sample_poly_uniform_closed.
  destruct (uniform_values _ _ rng) as [[vs rng1]|] eqn:Hu; [|done].
  intros [= <- <-]. rewrite write_block_whole; [done|].
  rewrite (length_uniform_values _ _ _ _ _ Hu), length_replicate. lia.
Qed.

(** ** The claims about encrypt_zero_symmetric *)


Section SymmetricClaims.
Context `{Collaborators}.


(** C9 (amended).  When the output is to be in non-NTT form and the seed
    is not saved, the uniform sample is taken as an NTT-form polynomial:
    the stored [c1] is, limb by limb, the inverse transform of what the
    uniform sampler produced from the seeded stream. *)
Theorem encrypt_zero_symmetric_c1_is_inverse_transform
    (b : build) (g : global_variables) (entropy : list byte)
    (sk : SecretKey) (context : SEALContext) (parms_id : parms_id_type)
    (destination : Ciphertext)
    (seed_bytes boot : list byte) (a : list Z) (rng_a : list byte)
    (e : list Z) (boot' : list byte) :
  let cd := get_context_data context parms_id in
  let n := poly_modulus_degree (parms cd) in
  let moduli := coeff_modulus (parms cd) in
  let tables := small_ntt_tables cd in
  SEAL_DEBUG b && negb (is_valid_for_secret_key sk context) = false ->
  generate (8 * prng_seed_uint64_count) entropy = Some (seed_bytes, boot) ->
  sample_poly_uniform
    (blake_prng (seed_words prng_seed_uint64_count seed_bytes)) (parms cd)
    (replicate (n * length moduli) 0) 0 = Ok (a, rng_a) ->
  sample_noise b g boot (parms cd) (allocate_poly n (length moduli)) 0
    = Ok (e, boot') ->
  exists ct,
    encrypt_zero_symmetric b g entropy sk context parms_id false false
      destination = (Returned, ct)
    /\ forall l, (l < length moduli)%nat ->
         read_block (ct_data ct) (n * length moduli + l * n) n
         = inverse_ntt_negacyclic_harvey (tables !!! l)
             (read_block a (l * n) n).
Proof.
  intros cd n moduli tables Hvalid Hgen Hu Hnoise.
  apply sample_poly_uniform_fresh in Hu.
  destruct (encrypt_zero_symmetric_returns b g entropy sk context parms_id
              false false destination seed_bytes boot a rng_a e boot'
              Hvalid Hgen Hu Hnoise)
    as (ct & Hrun & _ & _ & _ & Hc1 & _).
  exists ct. split; [done|]. intros l Hl. by apply Hc1.
Qed.

End SymmetricClaims.

Section SymmetricSeed.
Context `{Collaborators}.

(** C7.  When [coeff_count * coeff_modulus_size] is below the seed length
    in 64-bit words plus one, asking for compression changes nothing: the
    run is the run without compression, whatever the inputs.  No error
    comes from the shortfall, and when the samplers deliver [a] and [e]
    the call returns a two-component ciphertext whose second component
    holds the sample itself (inverse-transformed for non-NTT output), not
    a seed, and whose first component is computed from it. *)
Theorem encrypt_zero_symmetric_small_polynomial_not_compressed
    (b : build) (g : global_variables) (entropy : list byte)
    (sk : SecretKey) (context : SEALContext) (parms_id : parms_id_type)
    (is_ntt : bool) (destination : Ciphertext) :
  let cd := get_context_data context parms_id in
  let n := poly_modulus_degree (parms cd) in
  let moduli := coeff_modulus (parms cd) in
  let tables := small_ntt_tables cd in
  (n * length moduli < prng_seed_uint64_count + 1)%nat ->
  encrypt_zero_symmetric b g entropy sk context parms_id is_ntt true
    destination
  = encrypt_zero_symmetric b g entropy sk context parms_id is_ntt false
      destination
  /\ forall seed_bytes boot a rng_a e boot',
       SEAL_DEBUG b && negb (is_valid_for_secret_key sk context) = false ->
       generate (8 * prng_seed_uint64_count) entropy
         = Some (seed_bytes, boot) ->
       sample_poly_uniform
         (blake_prng (seed_words prng_seed_uint64_count seed_bytes))
         (parms cd) (replicate (n * length moduli) 0) 0 = Ok (a, rng_a) ->
       sample_noise b g boot (parms cd) (allocate_poly n (length moduli)) 0
         = Ok (e, boot') ->
       exists ct,
         encrypt_zero_symmetric b g entropy sk context parms_id is_ntt true
           destination = (Returned, ct)
         /\ ct_size ct = 2%nat
         /\ is_ntt_form ct = is_ntt
         /\ length (ct_data ct) = (2 * (n * length moduli))%nat
         /\ forall l, (l < length moduli)%nat ->
              read_block (ct_data ct) (l * n) n
              = c0_limb is_ntt (moduli !!! l) (tables !!! l)
                  (read_block (sk_data sk) (l * n) n)
                  (read_block a (l * n) n) (read_block e (l * n) n)
              /\ read_block (ct_data ct) (n * length moduli + l * n) n
                 = if is_ntt then read_block a (l * n) n
                   else inverse_ntt_negacyclic_harvey (tables !!! l)
                          (read_block a (l * n) n).
Proof.
  intros cd n moduli tables Hsmall.
  assert (Hfits : seed_fits true (n * length moduli) = false).
  { unfold seed_fits. simpl.
    by destruct (Nat.ltb_spec (n * length moduli) (prng_seed_uint64_count + 1));
      [|lia]. }
  split.
  - unfold encrypt_zero_symmetric. fold cd n moduli. by rewrite Hfits.
  - intros seed_bytes boot a rng_a e boot' Hvalid Hgen Hu Hnoise.
    apply sample_poly_uniform_fresh in Hu.
    destruct (encrypt_zero_symmetric_returns b g entropy sk context parms_id
                is_ntt true destination seed_bytes boot a rng_a e boot'
                Hvalid Hgen Hu Hnoise)
      as (ct & Hrun & (Hsize & Hform & _) & Hlen & Hc0 & Hc1 & _).
    fold cd n moduli tables in Hlen, Hc0, Hc1. rewrite Hfits in Hc0, Hc1.
    exists ct. repeat (split; [done|]).
    intros l Hl. split.
    + rewrite (Hc0 l Hl). unfold working_limb. by rewrite andb_false_r.
    + by apply Hc1.
Qed.

(** The context's transform tables are those of its moduli. *)
Definition tables_match (cd : ContextData) : Prop :=
  Forall2 (fun t q => ntt_modulus t = q) (small_ntt_tables cd)
    (coeff_modulus (parms cd)).

(** C2.  After a returning run the first word of the second component is
    the all-ones word exactly when the component was stored compressed
    (compression was asked for and the polynomial has room for marker
    and seed).  When compressed, the words from offset 1 on are the
    words of the seed; when not, every word of [c1] is a residue below
    its limb's modulus and differs from the marker. *)
Theorem encrypt_zero_symmetric_marker_iff_compressed
    (b : build) (g : global_variables) (entropy : list byte)
    (sk : SecretKey) (context : SEALContext) (parms_id : parms_id_type)
    (is_ntt save_seed : bool) (destination : Ciphertext)
    (seed_bytes boot : list byte) (a : list Z) (rng_a : list byte)
    (e : list Z) (boot' : list byte) :
  let cd := get_context_data context parms_id in
  let n := poly_modulus_degree (parms cd) in
  let moduli := coeff_modulus (parms cd) in
  let c1 := (n * length moduli)%nat in
  let compressed := seed_fits save_seed c1 in
  Forall (fun q => 0 < value q < 2 ^ 64) moduli ->
  tables_match cd ->
  SEAL_DEBUG b && negb (is_valid_for_secret_key sk context) = false ->
  generate (8 * prng_seed_uint64_count) entropy = Some (seed_bytes, boot) ->
  sample_poly_uniform
    (blake_prng (seed_words prng_seed_uint64_count seed_bytes)) (parms cd)
    (replicate c1 0) 0 = Ok (a, rng_a) ->
  sample_noise b g boot (parms cd) (allocate_poly n (length moduli)) 0
    = Ok (e, boot') ->
  exists ct,
    encrypt_zero_symmetric b g entropy sk context parms_id is_ntt save_seed
      destination = (Returned, ct)
    /\ (ct_data ct !! c1 = Some (2 ^ 64 - 1) <-> compressed = true)
    /\ (compressed = true ->
        read_block (ct_data ct) (c1 + 1) prng_seed_uint64_count
        = seed_words prng_seed_uint64_count seed_bytes)
    /\ (compressed = false ->
        forall i l q, (i < n)%nat -> moduli !! l = Some q ->
          exists w, ct_data ct !! (c1 + (i + l * n))%nat = Some w
                    /\ 0 <= w < value q /\ w <> 2 ^ 64 - 1).
Proof.
  intros cd n moduli c1 compressed Hmod Htab Hvalid Hgen Hu Hnoise.
  apply sample_poly_uniform_fresh in Hu.
  destruct (encrypt_zero_symmetric_returns b g entropy sk context parms_id
              is_ntt save_seed destination seed_bytes boot a rng_a e boot'
              Hvalid Hgen Hu Hnoise)
    as (ct & Hrun & _ & Hlen & _ & Hplain & Hpacked).
  fold cd n moduli c1 compressed in Hlen, Hplain, Hpacked.
  (* the words of an uncompressed second component *)
  assert (Hwords : compressed = false ->
            forall i l q, (i < n)%nat -> moduli !! l = Some q ->
              exists w, ct_data ct !! (c1 + (i + l * n))%nat = Some w
                        /\ 0 <= w < value q /\ w <> 2 ^ 64 - 1).
  { intros Hc i l q Hi Hq.
    pose proof (lookup_lt_Some _ _ _ Hq) as Hl.
    assert (Hqr : 0 < value q < 2 ^ 64).
    { rewrite Forall_lookup in Hmod. by apply (Hmod l). }
    destruct (lookup_lt_is_Some_2 (ct_data ct) (c1 + (i + l * n))%nat)
      as [w Hw]; [rewrite Hlen; unfold c1; nia|].
    exists w. split; [done|].
    assert (Hrange : 0 <= w < value q); [|split; [done|lia]].
    pose proof (lookup_read_block (ct_data ct) (c1 + l * n) n i Hi) as Hrd.
    replace (c1 + l * n + i)%nat with (c1 + (i + l * n))%nat in Hrd by lia.
    rewrite list_lookup_total_alt, Hw in Hrd. simpl in Hrd.
    rewrite (Hplain Hc l Hl) in Hrd. destruct is_ntt.
    - rewrite lookup_read_block in Hrd by done. injection Hrd as Hrd.
      pose proof (length_uniform_values _ _ _ _ _ Hu) as Hla.
      destruct (lookup_lt_is_Some_2 a (i + l * n)%nat) as [v Hv];
        [rewrite Hla; fold moduli n; nia|].
      replace (l * n + i)%nat with (i + l * n)%nat in Hrd by lia.
      rewrite list_lookup_total_alt, Hv in Hrd. simpl in Hrd. subst v.
      eapply (uniform_values_residue _ _ _ _ _ Hu i l q); try done. lia.
    - unfold tables_match in Htab. fold moduli in Htab.
      destruct (Forall2_lookup_r _ _ _ _ _ Htab Hq) as (t & Ht & Htq).
      rewrite (list_lookup_total_correct _ _ _ Ht) in Hrd.
      pose proof (inverse_ntt_range t (read_block a (l * n) n)) as Hall.
      rewrite Htq in Hall. specialize (Hall ltac:(lia)).
      rewrite Forall_lookup in Hall. by apply (Hall i). }
  exists ct. split; [done|]. split; [|split; [|done]].
  - split.
    + intros Hfirst. destruct compressed eqn:Hc; [done|]. exfalso.
      destruct (decide (c1 = 0)%nat) as [Hz|Hnz].
      * rewrite lookup_ge_None_2 in Hfirst by (rewrite Hlen; lia). done.
      * assert (Hn : (0 < n)%nat) by (unfold c1 in Hnz; nia).
        destruct (lookup_lt_is_Some_2 moduli 0%nat) as [q Hq];
          [unfold c1 in Hnz; nia|].
        destruct (Hwords eq_refl 0%nat 0%nat q Hn Hq) as (w & Hw & _ & Hne).
        simpl in Hw. rewrite Nat.add_0_r in Hw. congruence.
    + intros Hc. by apply Hpacked.
  - intros Hc. by apply Hpacked.
Qed.

End SymmetricSeed.

(** ** The second component does not see the secret key *)

Lemma write_block_agree (blk m m' : list Z) (ptr x : nat) :
  length m = length m' -> m !! x = m' !! x ->
  write_block m ptr blk !! x = write_block m' ptr blk !! x.
Proof.
  intros Hlen Hx.
  destruct (decide (ptr <= x < ptr + length blk)%nat) as [Hin|Hout].
  - destruct (decide (x < length m)%nat) as [Hlt|Hge].
    + rewrite !lookup_write_block_in by lia. done.
    + rewrite !lookup_ge_None_2; [done|rewrite length_write_block; lia..].
  - rewrite !lookup_write_block_out by lia. done.
Qed.

Section Independence.
Context `{Collaborators}.

Lemma transform_limbs_agree (f : NTTTables -> list Z -> list Z)
    (count i n : nat) (tables : list NTTTables) (m m' : list Z)
    (ptr : nat) :
  length m = length m' ->
  (forall x, (ptr <= x)%nat -> m !! x = m' !! x) ->
  forall x, (ptr <= x)%nat ->
    transform_limbs f count i n tables m ptr !! x
    = transform_limbs f count i n tables m' ptr !! x.
Proof.
  revert i m m'. induction count as [|count IH]; intros i m m' Hlen Hag;
    simpl; [done|].
  apply IH.
  - by rewrite !length_transform_at.
  - intros x Hx. unfold transform_at.
    rewrite (read_block_ext m m') by (intros y Hy; apply Hag; lia).
    apply write_block_agree; [done|by apply Hag].
Qed.

Lemma at_return_agree (is_ntt compress : bool) (n : nat)
    (moduli : list Modulus) (tables : list NTTTables) (sk sk' : SecretKey)
    (seed data0 a e : list Z) :
  let c1 := (n * length moduli)%nat in
  length data0 = (2 * c1)%nat -> length a = c1 -> length e = c1 ->
  forall x, (c1 <= x)%nat ->
    at_return is_ntt compress n moduli tables sk seed data0 a e !! x
    = at_return is_ntt compress n moduli tables sk' seed data0 a e !! x.
Proof.
  intros c1 Hdata0 Ha He.
  destruct (after_sampling_spec is_ntt compress n moduli tables data0 a
              Hdata0 Ha) as (Hlw & _ & _).
  unfold at_return. fold c1.
  set (mw := after_sampling is_ntt compress n moduli tables data0 a) in *.
  destruct (symmetric_limbs_spec (length moduli) 0 n is_ntt moduli tables sk
              0 c1 e mw) as (Hl2 & Ho2 & _);
    [unfold c1; nia|rewrite Hlw; unfold c1; nia|rewrite He; unfold c1; nia|].
  destruct (symmetric_limbs_spec (length moduli) 0 n is_ntt moduli tables sk'
              0 c1 e mw) as (Hl2' & Ho2' & _);
    [unfold c1; nia|rewrite Hlw; unfold c1; nia|rewrite He; unfold c1; nia|].
  set (m2 := (symmetric_limbs _ 0 n is_ntt moduli tables sk 0 c1 e mw).2) in *.
  set (m2' := (symmetric_limbs _ 0 n is_ntt moduli tables sk' 0 c1 e mw).2) in *.
  assert (Hag2 : forall x, (c1 <= x)%nat -> m2 !! x = m2' !! x).
  { intros x Hx. rewrite Ho2, Ho2'; [done|unfold c1 in *; nia..]. }
  set (m3 := if negb is_ntt && negb compress then _ else m2).
  set (m3' := if negb is_ntt && negb compress then _ else m2').
  assert (Hl3 : length m3 = length m3').
  { unfold m3, m3'. destruct (negb is_ntt && negb compress);
      rewrite ?length_transform_limbs; congruence. }
  assert (Hag3 : forall x, (c1 <= x)%nat -> m3 !! x = m3' !! x).
  { unfold m3, m3'. destruct (negb is_ntt && negb compress); [|done].
    apply transform_limbs_agree; [congruence|done]. }
  intros x Hx. destruct compress; [|by apply Hag3].
  apply write_block_agree; [by rewrite !length_insert|].
  destruct (decide (x = c1)) as [->|Hne].
  - destruct (decide (c1 < length m3)%nat).
    + rewrite !list_lookup_insert_eq by lia. done.
    + rewrite !lookup_ge_None_2; [done|rewrite length_insert; lia..].
  - rewrite !list_lookup_insert_ne by done. by apply Hag3.
Qed.

(** C10.  Two runs of [encrypt_zero_symmetric] that differ in the secret
    key only (same build, globals, tapes, context, flags and
    destination, both keys past validation) end the same way and leave
    the same second component: the same words in the [c1] region of the
    destination, hence the same stored seed when the seed is saved. *)
Theorem encrypt_zero_symmetric_c1_ignores_secret_key
    (b : build) (g : global_variables) (entropy : list byte)
    (sk sk' : SecretKey) (context : SEALContext) (parms_id : parms_id_type)
    (is_ntt save_seed : bool) (destination : Ciphertext) :
  let cd := get_context_data context parms_id in
  let c1 := (poly_modulus_degree (parms cd)
             * length (coeff_modulus (parms cd)))%nat in
  let r := encrypt_zero_symmetric b g entropy sk context parms_id is_ntt
             save_seed destination in
  let r' := encrypt_zero_symmetric b g entropy sk' context parms_id is_ntt
              save_seed destination in
  SEAL_DEBUG b && negb (is_valid_for_secret_key sk context) = false ->
  SEAL_DEBUG b && negb (is_valid_for_secret_key sk' context) = false ->
  r.1 = r'.1
  /\ ct_size r.2 = ct_size r'.2
  /\ is_ntt_form r.2 = is_ntt_form r'.2
  /\ length (ct_data r.2) = length (ct_data r'.2)
  /\ read_block (ct_data r.2) c1 c1 = read_block (ct_data r'.2) c1 c1.
Proof.
  intros cd c1 r r' Hv Hv'. subst r r'.
  rewrite (encrypt_zero_symmetric_unfold b g entropy sk) by done.
  rewrite (encrypt_zero_symmetric_unfold b g entropy sk') by done.
  cbv zeta. fold cd.
  destruct (generate _ entropy) as [[seed_bytes boot]|]; [|done].
  destruct (uniform_values _ _ _) as [[a rng_a]|] eqn:Hu; [|done].
  destruct (sample_noise _ _ _ _ _ _) as [[e boot']| |] eqn:Hn; [|done..].
  cbn [fst snd with_data ct_size is_ntt_form ct_data].
  pose proof (length_uniform_values _ _ _ _ _ Hu) as Hla.
  pose proof (length_sample_noise _ _ _ _ _ _ _ _ Hn) as Hle.
  unfold allocate_poly in Hle. rewrite length_replicate in Hle.
  pose proof (length_prepared destination context parms_id 2 is_ntt) as Hld.
  cbv zeta in Hld. fold cd in Hld.
  assert (Hag := at_return_agree is_ntt
            (seed_fits save_seed c1)
            (poly_modulus_degree (parms cd)) (coeff_modulus (parms cd))
            (small_ntt_tables cd) sk sk'
            (seed_words prng_seed_uint64_count seed_bytes)
            (ct_data (prepared destination context parms_id 2 is_ntt)) a e
            Hld ltac:(rewrite Hla; lia) Hle).
  fold c1 in Hag. split; [done|]. split; [done|]. split; [done|].
  split.
  - assert (Hroom : seed_fits save_seed c1 = true ->
                    (prng_seed_uint64_count + 1 <= c1)%nat).
    { intros Hc. by apply seed_fits_true in Hc as [_ Hc]. }
    assert (Hlen : forall key,
              length (at_return is_ntt (seed_fits save_seed c1)
                        (poly_modulus_degree (parms cd))
                        (coeff_modulus (parms cd)) (small_ntt_tables cd) key
                        (seed_words prng_seed_uint64_count seed_bytes)
                        (ct_data (prepared destination context parms_id 2 is_ntt))
                        a e) = (2 * c1)%nat).
    { intros key.
      apply (at_return_spec is_ntt (seed_fits save_seed c1)
               (poly_modulus_degree (parms cd)) (coeff_modulus (parms cd))
               (small_ntt_tables cd) key
               (seed_words prng_seed_uint64_count seed_bytes)); try done.
      - rewrite Hla. lia.
      - apply length_seed_words. }
    by rewrite !Hlen.
  - apply read_block_ext. intros x Hx. apply Hag. lia.
Qed.

End Independence.

(** ** What a throwing run leaves in the destination *)

(** A destination that carries nothing: no component, or only zero words. *)
Definition cleared (ct : Ciphertext) : Prop :=
  ct_size ct = 0%nat \/ Forall (fun w => w = 0) (ct_data ct).

Section Throwing.
Context `{Collaborators}.

Lemma sample_noise_throws (b : build) (g : global_variables) rng parms mem
    destination :
  SEAL_USE_GAUSSIAN b = false ->
  are_close (noise_max_deviation g) 0 = false ->
  Qeq_bool (noise_standard_deviation g) double_3_2 = false ->
  sample_noise b g rng parms mem destination = Throw UnsupportedParameter.
Proof.
  intros Hb Hdev Hsd. unfold sample_noise, sample_poly_cbd.
  by rewrite Hb, Hdev, Hsd.
Qed.

(** The noise sampler throws nothing but [UnsupportedParameter]. *)
Lemma sample_noise_throw_inv (b : build) (g : global_variables) rng parms
    mem destination err :
  sample_noise b g rng parms mem destination = Throw err ->
  err = UnsupportedParameter
  /\ SEAL_USE_GAUSSIAN b = false
  /\ are_close (noise_max_deviation g) 0 = false
  /\ Qeq_bool (noise_standard_deviation g) double_3_2 = false.
Proof.
  unfold sample_noise, sample_poly_normal, sample_poly_cbd.
  destruct (SEAL_USE_GAUSSIAN b);
    destruct (are_close (noise_max_deviation g) 0); try done.
  - by destruct (iterate_coeffs _ _ _ _ _ _ _ _) as [[m r]|].
  - destruct (Qeq_bool (noise_standard_deviation g) double_3_2); simpl.
    + by destruct (iterate_coeffs _ _ _ _ _ _ _ _) as [[m r]|].
    + by intros [= <-].
Qed.

Lemma asymmetric_noise_throw_inv (count j : nat) (b : build)
    (g : global_variables) parms is_ntt tables destination rng u mem err mem' :
  asymmetric_noise count j b g parms is_ntt tables destination rng u mem
    = (Threw err, mem') ->
  err = UnsupportedParameter.
Proof.
  revert j rng u mem. induction count as [|count IH]; intros j rng u mem;
    simpl; [done|].
  destruct (sample_noise b g rng parms u 0) as [[u1 rng1]|e0|] eqn:Hn.
  - destruct (asymmetric_add_noise _ _ _ _ _ _ _ _ _ _) as [u2 mem2].
    apply IH.
  - intros [= <- _]. by apply sample_noise_throw_inv in Hn as [-> _].
  - done.
Qed.

(** C8 (amended).  A hard error of either generator is one of two.  The
    key-validation error of debug builds is raised before the
    destination is touched and leaves it unchanged.  The
    [UnsupportedParameter] error of the noise sampler is raised after
    the destination has been resized and flagged, and the destination is
    left that way: in the symmetric generator with its second component
    holding the uniform sample (forward-transformed on the compressing
    non-NTT path) and its first component holding what the resize left;
    in the asymmetric generator with as many components as the public
    key has. *)
Theorem encrypt_zero_throw_leaves_destination
    (b : build) (g : global_variables) (entropy : list byte)
    (sk : SecretKey) (pk : PublicKey) (context : SEALContext)
    (parms_id : parms_id_type) (is_ntt save_seed : bool)
    (destination : Ciphertext) (err : exception) (ct' : Ciphertext) :
  let cd := get_context_data context parms_id in
  let n := poly_modulus_degree (parms cd) in
  let moduli := coeff_modulus (parms cd) in
  let tables := small_ntt_tables cd in
  let c1 := (n * length moduli)%nat in
  let compress := seed_fits save_seed c1 in
  (encrypt_zero_symmetric b g entropy sk context parms_id is_ntt save_seed
     destination = (Threw err, ct') ->
   (err = invalid_argument
            "secret key is not valid for the encryption parameters"
    /\ ct' = destination)
   \/ (err = UnsupportedParameter
       /\ ct_size ct' = 2%nat
       /\ is_ntt_form ct' = is_ntt
       /\ length (ct_data ct') = (2 * c1)%nat
       /\ exists seed_bytes boot a rng_a,
            generate (8 * prng_seed_uint64_count) entropy
              = Some (seed_bytes, boot)
            /\ sample_poly_uniform
                 (blake_prng (seed_words prng_seed_uint64_count seed_bytes))
                 (parms cd) (replicate c1 0) 0 = Ok (a, rng_a)
            /\ (forall l, (l < length moduli)%nat ->
                  read_block (ct_data ct') (c1 + l * n) n
                  = working_limb is_ntt compress n tables a l)
            /\ (forall x, (x < c1)%nat ->
                  ct_data ct' !! x
                  = ct_data (resize destination context parms_id 2) !! x)))
  /\ (encrypt_zero_asymmetric b g entropy pk context parms_id is_ntt
        destination = (Threw err, ct') ->
      (err = invalid_argument
               "public key is not valid for the encryption parameters"
       /\ ct' = destination)
      \/ (err = UnsupportedParameter
          /\ ct_size ct' = ct_size (pk_data pk)
          /\ is_ntt_form ct' = is_ntt
          /\ scale ct' = 1%Q
          /\ ct_parms_id ct' = parms_id)).
Proof.
  intros cd n moduli tables c1 compress. split.
  - destruct (SEAL_DEBUG b && negb (is_valid_for_secret_key sk context))
      eqn:Hvalid.
    + unfold encrypt_zero_symmetric. rewrite Hvalid.
      intros [= <- <-]. by left.
    + rewrite encrypt_zero_symmetric_unfold by done. cbv zeta.
      fold cd n moduli tables c1 compress.
      destruct (generate _ entropy) as [[seed_bytes boot]|] eqn:Hgen; [|done].
      destruct (uniform_values _ _ _) as [[a rng_a]|] eqn:Hu; [|done].
      destruct (sample_noise _ _ _ _ _ _) as [[e boot']|e0|] eqn:Hn; [done| |done].
      intros [= <- <-]. right.
      apply sample_noise_throw_inv in Hn as [-> _].
      pose proof (length_prepared destination context parms_id 2 is_ntt) as Hld.
      cbv zeta in Hld. fold cd n moduli c1 in Hld.
      pose proof (length_uniform_values _ _ _ _ _ Hu) as Hla.
      destruct (after_sampling_spec is_ntt compress n moduli tables
                  (ct_data (prepared destination context parms_id 2 is_ntt)) a
                  Hld ltac:(rewrite Hla; unfold c1; lia))
        as (Hlw & How & Hrw).
      split; [done|]. split; [done|]. split; [done|]. split; [exact Hlw|].
      exists seed_bytes, boot, a, rng_a. split; [done|]. split.
      * rewrite sample_poly_uniform_closed. fold cd n moduli. rewrite Hu.
        rewrite write_block_whole; [done|].
        rewrite Hla, length_replicate. unfold c1. lia.
      * split; [exact Hrw|exact How].
  - unfold encrypt_zero_asymmetric.
    destruct (SEAL_DEBUG b && negb (is_valid_for_public_key pk context)).
    + intros [= <- <-]. by left.
    + fold cd n moduli tables.
      destruct (sample_poly_ternary _ _ _ _) as [[u rng]|e0|] eqn:Ht.
      * destruct (asymmetric_limbs _ _ _ _ _ _ _ _ _ _ _) as [u1 mem1].
        destruct (asymmetric_noise _ _ _ _ _ _ _ _ _ _ _) as [o mem2] eqn:Han.
        intros [= -> <-]. right.
        by apply asymmetric_noise_throw_inv in Han as ->.
      * unfold sample_poly_ternary in Ht.
        by destruct (iterate_coeffs _ _ _ _ _ _ _ _) as [[m r]|].
      * done.
Qed.

End Throwing.

(** ** The rejection loop of the uniform sampler *)

Lemma max_multiple_of_value (q : Modulus) :
  0 < value q < 2 ^ 64 ->
  max_multiple_of q = 2 ^ 64 - 1 - (2 ^ 64 - 1) mod value q - 1.
Proof.
  intros Hq. unfold max_multiple_of, barrett_reduce_64, max_random.
  change 18446744073709551615 with (2 ^ 64 - 1).
  pose proof (Z.mod_pos_bound (2 ^ 64 - 1) (value q) ltac:(lia)) as Hr.
  rewrite (to_uint64_small (2 ^ 64 - 1 - _)) by lia.
  apply to_uint64_small. lia.
Qed.

(** The draws the loop lets through are those of [[0, max_multiple)]; their
    number leaves remainder [q - 1] modulo [q]. *)
Lemma max_multiple_of_residue (q : Modulus) :
  2 <= value q < 2 ^ 64 ->
  max_multiple_of q mod value q = value q - 1.
Proof.
  intros Hq. rewrite max_multiple_of_value by lia.
  pose proof (Z.div_mod (2 ^ 64 - 1) (value q) ltac:(lia)) as Hdm.
  symmetry.
  apply (Z.mod_unique _ _ ((2 ^ 64 - 1) / value q - 1)); [lia|].
  lia.
Qed.

Lemma draw_rand_below (fuel : nat) (max_multiple : Z) rng rand rng' :
  draw_rand fuel max_multiple rng = Some (rand, rng') -> rand < max_multiple.
Proof.
  revert rng. induction fuel as [|fuel IH]; intros rng; simpl; [done|].
  destruct (engine rng) as [[hi rng1]|]; [|done].
  destruct (engine rng1) as [[lo rng2]|]; [|done].
  destruct (Z.geb_spec (Z.lor (to_uint64 (Z.shiftl hi 32)) lo) max_multiple).
  - apply IH.
  - intros [= <- _]. lia.
Qed.

(** A draw equal to [max_multiple] sends the loop round again. *)
Lemma draw_rand_rejects_max_multiple (fuel : nat) rng hi rng1 lo rng2 :
  engine rng = Some (hi, rng1) -> engine rng1 = Some (lo, rng2) ->
  draw_rand (S fuel) (Z.lor (to_uint64 (Z.shiftl hi 32)) lo) rng
  = draw_rand fuel (Z.lor (to_uint64 (Z.shiftl hi 32)) lo) rng2.
Proof.
  intros Hhi Hlo. simpl. rewrite Hhi, Hlo.
  by destruct (Z.geb_spec (Z.lor (to_uint64 (Z.shiftl hi 32)) lo)
                 (Z.lor (to_uint64 (Z.shiftl hi 32)) lo)); [|lia].
Qed.

(** A draw below [max_multiple] ends the loop at once. *)
Lemma draw_rand_accepts (fuel : nat) (max_multiple : Z) rng hi rng1 lo rng2 :
  engine rng = Some (hi, rng1) -> engine rng1 = Some (lo, rng2) ->
  Z.lor (to_uint64 (Z.shiftl hi 32)) lo < max_multiple ->
  draw_rand (S fuel) max_multiple rng
  = Some (Z.lor (to_uint64 (Z.shiftl hi 32)) lo, rng2).
Proof.
  intros Hhi Hlo Hlt. simpl. rewrite Hhi, Hlo.
  by destruct (Z.geb_spec (Z.lor (to_uint64 (Z.shiftl hi 32)) lo) max_multiple);
    [lia|].
Qed.

Lemma engine_length rng w rng' :
  engine rng = Some (w, rng') -> length rng = (4 + length rng')%nat.
Proof.
  unfold engine, generate.
  destruct (Nat.leb_spec 4 (length rng)) as [Hle|]; [|done].
  intros [= _ <-]. rewrite length_drop. lia.
Qed.

(** The fuel of the loop is never what stops it: with more turns than the
    tape has bytes, the loop ends by accepting a draw or by exhausting the
    tape, and more fuel changes nothing. *)
Lemma draw_rand_fuel (fuel : nat) (max_multiple : Z) (rng : list byte) :
  (length rng < fuel)%nat ->
  draw_rand fuel max_multiple rng
  = draw_rand (S (length rng)) max_multiple rng.
Proof.
  revert rng. induction (lt_wf fuel) as [fuel _ IH]. intros rng Hlt.
  destruct fuel as [|fuel]; [lia|]. simpl.
  destruct (engine rng) as [[hi rng1]|] eqn:Hhi; [|done].
  destruct (engine rng1) as [[lo rng2]|] eqn:Hlo; [|done].
  destruct (Z.lor (to_uint64 (Z.shiftl hi 32)) lo >=? max_multiple); [|done].
  apply engine_length in Hhi. apply engine_length in Hlo.
  rewrite (IH fuel) by lia. rewrite (IH (length rng)) by lia. done.
Qed.

(** The binomial sampler's draws return on any tape of six bytes per
    coefficient. *)
Lemma draws_cbd_returns (n : nat) (rng : list byte) :
  (n * 6 <= length rng)%nat ->
  exists vs, draws cbd n rng = Some (vs, drop (n * 6) rng).
Proof.
  revert rng. induction n as [|n IH]; intros rng Hlen.
  - by exists [].
  - destruct rng as [|b0 [|b1 [|b2 [|b3 [|b4 [|b5 rest]]]]]];
      simpl in Hlen; try lia.
    destruct (IH rest ltac:(lia)) as [vs Hvs].
    exists (cbd_value b0 b1 b2 b3 b4 b5 :: vs).
    cbn [draws]. unfold cbd at 1, generate. simpl.
    change (drop 0 rest) with rest. by rewrite Hvs.
Qed.

(** The [count] low bytes of [v], least significant first. *)
Fixpoint le_bytes (count : nat) (v : Z) : list byte :=
  match count with
  | O => []
  | S count' => Reference.byte_of_Z v :: le_bytes count' (v / 256)
  end.

(** C4 (the code departs from it).  One limb of modulus 97, one
    coefficient.  [max_multiple] is as the claim computes it, that is
    [2^64 - 62 = 0xFFFFFFFFFFFFFFC2].  The tape holds the sixteen bytes
    [ff ff ff ff  c2 ff ff ff  00 00 00 00  05 00 00 00]: the 32-bit
    outputs [0xFFFFFFFF] and [0xFFFFFFC2], which make a first 64-bit draw
    equal to [max_multiple], and then the outputs 0 and 5, which make a
    second draw equal to 5.  The loop rejects the first draw and stores
    the second.  The accepted draws are [0 .. max_multiple - 1]; their
    number is not a multiple of 97. *)
Theorem sample_poly_uniform_rejects_draw_equal_to_max_multiple :
  let q := Reference.q97 in
  let parms := {| poly_modulus_degree := 1; coeff_modulus := [q] |} in
  let max_multiple := max_multiple_of q in
  let tape := le_bytes 4 (max_multiple / 2 ^ 32)
              ++ le_bytes 4 (max_multiple mod 2 ^ 32)
              ++ le_bytes 4 0 ++ le_bytes 4 5 in
  max_multiple = 2 ^ 64 - 1 - (2 ^ 64 - 1) mod 97 - 1
  /\ (exists hi rng1 lo rng2,
        engine tape = Some (hi, rng1) /\ engine rng1 = Some (lo, rng2)
        /\ Z.lor (to_uint64 (Z.shiftl hi 32)) lo = max_multiple
        /\ draw_rand 1 max_multiple tape = None
        /\ draw_rand 2 max_multiple tape = Some (5, [])
        /\ hi = 0xFFFFFFFF /\ lo = 0xFFFFFFC2)
  /\ sample_poly_uniform tape parms [0] 0 = Ok ([5], [])
  /\ max_multiple mod 97 = 96
  /\ max_multiple = 2 ^ 64 - 62
  /\ tape = [xff; xff; xff; xff; xc2; xff; xff; xff;
             x00; x00; x00; x00; x05; x00; x00; x00].
Proof.
  cbv zeta. split; [reflexivity|]. split.
  - eexists _, _, _, _. repeat split; vm_compute; reflexivity.
  - repeat split; vm_compute; reflexivity.
Qed.

(** ** The claims at the concrete scenario *)

Section Concrete.
Import Reference Scenario.


(** C9, as stated, fails.  Non-NTT output without compression: the
    stored [c1] is not the polynomial the uniform sampler produced. *)
Lemma encrypt_zero_symmetric_c1_differs_from_sample :
  exists ct a rng_a,
    run false false = (Returned, ct)
    /\ sample_poly_uniform (prng seed) parms_8x2 (replicate 16 0) 0
       = Ok (a, rng_a)
    /\ read_block (ct_data ct) 16 16 <> a.
Proof.
  eexists _, _, _.
  split; [vm_compute; reflexivity|].
  split; [vm_compute; reflexivity|].
  vm_compute. discriminate.
Qed.

(** C8, as stated, fails.  Under a deviation the binomial sampler
    rejects, the call throws after the resize and after [c1] has been
    sampled: the destination, empty before the call, now has two
    components, the second filled with the uniform sample and the first
    still zero; it is neither what it was nor cleared. *)
Lemma encrypt_zero_symmetric_throw_leaves_half_populated :
  run_unsupported.1 = Threw UnsupportedParameter
  /\ ~ (run_unsupported.2 = empty_ciphertext \/ cleared run_unsupported.2)
  /\ ct_size run_unsupported.2 = 2%nat
  /\ (exists a rng_a,
        sample_poly_uniform (prng seed) parms_8x2 (replicate 16 0) 0
        = Ok (a, rng_a)
        /\ read_block (ct_data run_unsupported.2) 16 16 = a)
  /\ read_block (ct_data run_unsupported.2) 0 16 = replicate 16 0.
Proof.
  split; [vm_compute; reflexivity|]. split.
  - intros [Heq|[Hsize|Hzero]].
    + apply (f_equal ct_size) in Heq. vm_compute in Heq. discriminate.
    + vm_compute in Hsize. discriminate.
    + rewrite Forall_lookup in Hzero.
      specialize (Hzero 16%nat 60 ltac:(vm_compute; reflexivity)).
      discriminate.
  - split; [vm_compute; reflexivity|]. split.
    + eexists _, _. split; vm_compute; reflexivity.
    + vm_compute. reflexivity.
Qed.

End Concrete.

(** ** The theorems applied to the scenario *)

Definition ok_value {A} (d : A) (r : result A) : A :=
  match r with Ok a => a | _ => d end.

Section Witnesses.
Import Reference Scenario.

(** What the samplers deliver on the tapes of the scenario. *)
Definition ternary_tape : list byte := lcg_bytes 8 7.

Definition ternary_draws : list Z * list byte :=
  default ([], []) (draws uniform_int_0_2 8 ternary_tape).

Lemma ternary_draws_ok :
  draws uniform_int_0_2 (poly_modulus_degree parms_8x2) ternary_tape
  = Some (ternary_draws.1, ternary_draws.2).
Proof. vm_compute. reflexivity. Defined.

Definition noise_draws : list Z * list byte :=
  default ([], []) (draws cbd 8 (drop 64 entropy)).

Lemma noise_draws_ok :
  draws cbd (poly_modulus_degree parms_8x2) (drop 64 entropy)
  = Some (noise_draws.1, noise_draws.2).
Proof. vm_compute. reflexivity. Defined.

Definition sampled : list Z * list byte :=
  ok_value ([], [])
    (sample_poly_uniform (prng seed) parms_8x2 (replicate 16 0) 0).

Lemma sampled_ok :
  sample_poly_uniform (prng seed) parms_8x2 (replicate 16 0) 0
  = Ok (sampled.1, sampled.2).
Proof. vm_compute. reflexivity. Defined.

Definition noise : list Z * list byte :=
  ok_value ([], [])
    (sample_noise release globals (drop 64 entropy) parms_8x2
       (allocate_poly 8 2) 0).

Lemma noise_ok :
  sample_noise release globals (drop 64 entropy) parms_8x2
    (allocate_poly 8 2) 0
  = Ok (noise.1, noise.2).
Proof. vm_compute. reflexivity. Defined.

Lemma scenario_generate :
  generate (8 * prng_seed_uint64_count) entropy
  = Some (take 64 entropy, drop 64 entropy).
Proof. reflexivity. Defined.

Lemma scenario_moduli :
  Forall (fun q => 2 <= value q < 2 ^ 64) (coeff_modulus parms_8x2).
Proof. repeat constructor; simpl; lia. Defined.

Lemma scenario_fits :
  (0 + poly_modulus_degree parms_8x2 * length (coeff_modulus parms_8x2)
   <= length (replicate 16 0))%nat.
Proof. simpl. lia. Defined.

Lemma sample_poly_ternary_one_draw_per_coefficient_witness :
  Forall (fun q => 2 <= value q < 2 ^ 64) (coeff_modulus parms_8x2)
  /\ (0 + 8 * 2 <= length (replicate 16 0))%nat
  /\ exists mem',
       sample_poly_ternary ternary_tape parms_8x2 (replicate 16 0) 0
       = Ok (mem', ternary_draws.2)
       /\ length ternary_draws.1 = 8%nat.
Proof.
  split; [exact scenario_moduli|]. split; [exact scenario_fits|].
  pose proof (sample_poly_ternary_one_draw_per_coefficient ternary_tape
                parms_8x2 (replicate 16 0) 0 scenario_moduli scenario_fits)
    as T.
  cbv zeta in T. rewrite ternary_draws_ok in T.
  destruct T as (mem' & Hs & Hl & _).
  exists mem'. split; [exact Hs|exact Hl].
Defined.

Lemma sample_poly_cbd_unsupported_deviation_witness :
  Qeq_bool (noise_standard_deviation globals_unsupported) double_3_2 = false
  /\ sample_poly_cbd globals_unsupported entropy parms_8x2
       (replicate 16 0) 0 = Throw UnsupportedParameter.
Proof.
  split; [reflexivity|].
  exact (sample_poly_cbd_unsupported_deviation globals_unsupported entropy
           parms_8x2 (replicate 16 0) 0 eq_refl).
Defined.

Lemma scenario_cbd_active : cbd_active globals.
Proof. split; reflexivity. Defined.

Lemma cbd_popcount_difference_within_21_witness :
  cbd_active globals
  /\ (0 + 8 * 2 <= length (replicate 16 0))%nat
  /\ sample_poly_cbd globals (drop 64 entropy) parms_8x2 (replicate 16 0) 0
     = Ok (write_block (replicate 16 0) 0
             (limb_major noise_body (coeff_modulus parms_8x2) noise_draws.1),
           noise_draws.2)
  /\ noise_draws.2 = drop 48 (drop 64 entropy)
  /\ Forall (fun v => -21 <= v <= 21) noise_draws.1.
Proof.
  split; [exact scenario_cbd_active|]. split; [exact scenario_fits|].
  pose proof (cbd_popcount_difference_within_21 globals
                (drop 64 entropy) parms_8x2 (replicate 16 0) 0
                scenario_cbd_active scenario_fits) as T.
  destruct T as [_ T].
  rewrite noise_draws_ok in T. destruct T as (Hs & Hr & _ & Hall).
  split; [exact Hs|]. split; [exact Hr|exact Hall].
Defined.


Lemma encrypt_zero_symmetric_c1_is_inverse_transform_witness :
  sample_poly_uniform (prng seed) parms_8x2 (replicate 16 0) 0
    = Ok (sampled.1, sampled.2)
  /\ sample_noise release globals (drop 64 entropy) parms_8x2
       (allocate_poly 8 2) 0 = Ok (noise.1, noise.2)
  /\ exists ct,
       run false false = (Returned, ct)
       /\ read_block (ct_data ct) 16 8
          = inverse_ntt t97 (read_block sampled.1 0 8)
       /\ read_block (ct_data ct) 24 8
          = inverse_ntt t113 (read_block sampled.1 8 8).
Proof.
  split; [exact sampled_ok|]. split; [exact noise_ok|].
  destruct (encrypt_zero_symmetric_c1_is_inverse_transform release globals
              entropy secret_key context 0%nat empty_ciphertext
              (take 64 entropy) (drop 64 entropy) sampled.1 sampled.2
              noise.1 noise.2 eq_refl scenario_generate sampled_ok noise_ok)
    as (ct & Hrun & Hc1).
  exists ct. split; [exact Hrun|]. split.
  - exact (Hc1 0%nat ltac:(simpl; lia)).
  - exact (Hc1 1%nat ltac:(simpl; lia)).
Defined.

(** The small parameter set: four words, fewer than a seed and its marker. *)
Definition small_parms : EncryptionParameters :=
  parms (get_context_data small_context 0%nat).

Definition sampled_small : list Z * list byte :=
  ok_value ([], [])
    (sample_poly_uniform (prng seed) small_parms (replicate 4 0) 0).

Lemma sampled_small_ok :
  sample_poly_uniform (prng seed) small_parms (replicate 4 0) 0
  = Ok (sampled_small.1, sampled_small.2).
Proof. vm_compute. reflexivity. Defined.

Definition noise_small : list Z * list byte :=
  ok_value ([], [])
    (sample_noise release globals (drop 64 entropy) small_parms
       (allocate_poly 4 1) 0).

Lemma noise_small_ok :
  sample_noise release globals (drop 64 entropy) small_parms
    (allocate_poly 4 1) 0
  = Ok (noise_small.1, noise_small.2).
Proof. vm_compute. reflexivity. Defined.

Lemma small_is_small :
  (poly_modulus_degree small_parms * length (coeff_modulus small_parms)
   < prng_seed_uint64_count + 1)%nat.
Proof. simpl. lia. Defined.

Lemma encrypt_zero_symmetric_small_polynomial_not_compressed_witness :
  (4 * 1 < 8 + 1)%nat
  /\ run_small true true = run_small true false
  /\ exists ct,
       run_small true true = (Returned, ct)
       /\ ct_size ct = 2%nat
       /\ read_block (ct_data ct) 4 4 = read_block sampled_small.1 0 4.
Proof.
  split; [exact small_is_small|].
  destruct (encrypt_zero_symmetric_small_polynomial_not_compressed release
              globals entropy small_secret_key small_context 0%nat true
              empty_ciphertext small_is_small) as [Heq Hret].
  split; [exact Heq|].
  destruct (Hret (take 64 entropy) (drop 64 entropy) sampled_small.1
              sampled_small.2 noise_small.1 noise_small.2 eq_refl
              scenario_generate sampled_small_ok noise_small_ok)
    as (ct & Hrun & Hsize & _ & _ & Hlimbs).
  exists ct. split; [exact Hrun|]. split; [exact Hsize|].
  exact (proj2 (Hlimbs 0%nat ltac:(simpl; lia))).
Defined.

Lemma scenario_moduli_positive :
  Forall (fun q => 0 < value q < 2 ^ 64) (coeff_modulus parms_8x2).
Proof. repeat constructor; simpl; lia. Defined.

Lemma scenario_tables_match : tables_match (get_context_data context 0%nat).
Proof. repeat constructor. Defined.

Lemma encrypt_zero_symmetric_marker_iff_compressed_witness :
  Forall (fun q => 0 < value q < 2 ^ 64) (coeff_modulus parms_8x2)
  /\ tables_match (get_context_data context 0%nat)
  /\ exists ct,
       run true true = (Returned, ct)
       /\ ct_data ct !! 16%nat = Some (2 ^ 64 - 1)
       /\ read_block (ct_data ct) 17 8 = seed.
Proof.
  split; [exact scenario_moduli_positive|].
  split; [exact scenario_tables_match|].
  destruct (encrypt_zero_symmetric_marker_iff_compressed release globals
              entropy secret_key context 0%nat true true empty_ciphertext
              (take 64 entropy) (drop 64 entropy) sampled.1 sampled.2
              noise.1 noise.2 scenario_moduli_positive scenario_tables_match
              eq_refl scenario_generate sampled_ok noise_ok)
    as (ct & Hrun & Hiff & Hpacked & _).
  exists ct. split; [exact Hrun|]. split.
  - apply (proj2 Hiff). reflexivity.
  - apply Hpacked. reflexivity.
Defined.

Lemma encrypt_zero_symmetric_c1_ignores_secret_key_witness :
  let r := run false true in
  let r' := encrypt_zero_symmetric release globals entropy other_secret_key
              context 0%nat false true empty_ciphertext in
  sk_data secret_key <> sk_data other_secret_key
  /\ r.1 = r'.1
  /\ read_block (ct_data r.2) 16 16 = read_block (ct_data r'.2) 16 16.
Proof.
  intros r r'. split; [discriminate|].
  pose proof (encrypt_zero_symmetric_c1_ignores_secret_key release globals
                entropy secret_key other_secret_key context 0%nat false true
                empty_ciphertext eq_refl eq_refl) as T.
  cbv zeta in T. destruct T as (Hout & _ & _ & _ & Hc1).
  split; [exact Hout|exact Hc1].
Defined.

Lemma run_unsupported_throws :
  run_unsupported = (Threw UnsupportedParameter, run_unsupported.2).
Proof. vm_compute. reflexivity. Defined.

Lemma run_asymmetric_unsupported_throws :
  run_asymmetric globals_unsupported
  = (Threw UnsupportedParameter, (run_asymmetric globals_unsupported).2).
Proof. vm_compute. reflexivity. Defined.

Lemma encrypt_zero_throw_leaves_destination_witness :
  run_unsupported = (Threw UnsupportedParameter, run_unsupported.2)
  /\ ct_size run_unsupported.2 = 2%nat
  /\ run_asymmetric globals_unsupported
     = (Threw UnsupportedParameter, (run_asymmetric globals_unsupported).2)
  /\ ct_size (run_asymmetric globals_unsupported).2
     = ct_size (pk_data public_key).
Proof.
  split; [exact run_unsupported_throws|]. split.
  - destruct (encrypt_zero_throw_leaves_destination release
                globals_unsupported entropy secret_key public_key context
                0%nat true false empty_ciphertext UnsupportedParameter
                run_unsupported.2) as [Hsym _].
    destruct (Hsym run_unsupported_throws) as [[Hbad _]|(_ & Hsize & _)];
      [discriminate Hbad|exact Hsize].
  - split; [exact run_asymmetric_unsupported_throws|].
    destruct (encrypt_zero_throw_leaves_destination release
                globals_unsupported entropy secret_key public_key context
                0%nat true false empty_ciphertext UnsupportedParameter
                (run_asymmetric globals_unsupported).2) as [_ Hasym].
    destruct (Hasym run_asymmetric_unsupported_throws)
      as [[Hbad _]|(_ & Hsize & _)];
      [discriminate Hbad|exact Hsize].
Defined.

End Witnesses.

(** * Further properties of the samplers *)

(** The branchless reduction shared by the Gaussian and the binomial
    sampler: a signed value of magnitude below the modulus is stored as its
    residue. *)
Lemma noise_body_residue (v : Z) (q : Modulus) :
  0 < value q < 2 ^ 64 -> - value q <= v < value q ->
  noise_body v q = v mod value q.
Proof.
  intros Hq Hv. unfold noise_body. rewrite flag_value.
  destruct (Z.ltb_spec v 0) as [Hneg|Hpos].
  - rewrite land_all_ones by lia.
    assert (to_uint64 v = v + 2 ^ 64) as ->.
    { unfold to_uint64. symmetry. apply (Z.mod_unique v (2 ^ 64) (-1)); lia. }
    assert (v mod value q = v + value q) as ->.
    { symmetry. apply (Z.mod_unique v (value q) (-1)); lia. }
    unfold to_uint64. symmetry.
    apply (Z.mod_unique (v + 2 ^ 64 + value q) (2 ^ 64) 1); lia.
  - rewrite Z.land_0_l, Z.add_0_r, (to_uint64_small v) by lia.
    rewrite to_uint64_small by lia. by rewrite Z.mod_small by lia.
Qed.

Lemma iterate_coeffs_frame draw body moduli (n base : nat) rng mem mem' rng' :
  iterate_coeffs draw body n base n moduli rng mem = Some (mem', rng') ->
  length mem' = length mem
  /\ forall x, (x < base \/ base + n * length moduli <= x)%nat ->
       mem' !! x = mem !! x.
Proof.
  intros Hrun.
  pose proof (iterate_coeffs_draws draw body moduli n base n 0 rng mem
                ltac:(lia)) as Hspec.
  rewrite Nat.add_0_r in Hspec.
  destruct (draws draw n rng) as [[xs rng1]|]; [|congruence].
  destruct Hspec as (mem1 & Hrun1 & Hlen & _ & Hout).
  rewrite Hrun in Hrun1. injection Hrun1 as <- <-.
  split; [done|]. intros x Hx. apply Hout. intros i j Hi Hj. nia.
Qed.

Section NoiseSamplers.
Context `{Collaborators}.

(** X1.  None of the three strided samplers writes outside the
    [coeff_count * coeff_modulus_size] words at [destination]: when one of
    them returns, the buffer has its old length and every word outside
    that window is what it was, whatever the size of the buffer. *)
Theorem strided_samplers_write_inside_window
    (g : global_variables) (rng : list byte) (parms : EncryptionParameters)
    (mem : list Z) (destination : nat) (mem' : list Z) (rng' : list byte) :
  let window := (poly_modulus_degree parms * length (coeff_modulus parms))%nat in
  sample_poly_ternary rng parms mem destination = Ok (mem', rng')
  \/ sample_poly_normal g rng parms mem destination = Ok (mem', rng')
  \/ sample_poly_cbd g rng parms mem destination = Ok (mem', rng') ->
  length mem' = length mem
  /\ forall x, (x < destination \/ destination + window <= x)%nat ->
       mem' !! x = mem !! x.
Proof.
  intros window Hrun.
  assert (Hzero : length (set_zero_poly (poly_modulus_degree parms)
                            (length (coeff_modulus parms)) mem destination)
                  = length mem
                  /\ forall x, (x < destination \/ destination + window <= x)%nat ->
                       set_zero_poly (poly_modulus_degree parms)
                         (length (coeff_modulus parms)) mem destination !! x
                       = mem !! x).
  { unfold set_zero_poly. split; [apply length_write_block|].
    intros x Hx. apply lookup_write_block_out.
    rewrite length_replicate. fold window. lia. }
  destruct Hrun as [Hrun|[Hrun|Hrun]].
  - unfold sample_poly_ternary in Hrun.
    destruct (iterate_coeffs _ _ _ _ _ _ _ _) as [[m r]|] eqn:E; [|done].
    injection Hrun as <- <-. by eapply iterate_coeffs_frame.
  - unfold sample_poly_normal in Hrun.
    destruct (are_close (noise_max_deviation g) 0).
    + by injection Hrun as <- <-.
    + destruct (iterate_coeffs _ _ _ _ _ _ _ _) as [[m r]|] eqn:E; [|done].
      injection Hrun as <- <-. by eapply iterate_coeffs_frame.
  - unfold sample_poly_cbd in Hrun.
    destruct (are_close (noise_max_deviation g) 0).
    + by injection Hrun as <- <-.
    + destruct (negb _); [done|].
      destruct (iterate_coeffs _ _ _ _ _ _ _ _) as [[m r]|] eqn:E; [|done].
      injection Hrun as <- <-. by eapply iterate_coeffs_frame.
Qed.

(** X2.  With a maximum deviation that is numerically zero, the Gaussian
    and the binomial sampler return without reading the generator, whatever
    the standard deviation: the window at [destination] is all zero and
    the tape is untouched. *)
Theorem noise_samplers_zero_deviation
    (g : global_variables) (rng : list byte) (parms : EncryptionParameters)
    (mem : list Z) (destination : nat) :
  let window := (poly_modulus_degree parms * length (coeff_modulus parms))%nat in
  are_close (noise_max_deviation g) 0 = true ->
  (destination + window <= length mem)%nat ->
  exists mem',
    sample_poly_normal g rng parms mem destination = Ok (mem', rng)
    /\ sample_poly_cbd g rng parms mem destination = Ok (mem', rng)
    /\ read_block mem' destination window = replicate window 0.
Proof.
  intros window Hzero Hfit. unfold sample_poly_normal, sample_poly_cbd.
  rewrite Hzero. eexists. split; [reflexivity|]. split; [reflexivity|].
  unfold set_zero_poly. fold window.
  apply read_write_block; [apply length_replicate|done].
Qed.

(** X3.  Under a configuration that lets it draw, and with every modulus
    above 21, the binomial sampler stores in every limb the residue of the
    one value drawn for the coefficient: the word of position [i] in limb
    [j] is [v_i mod modulus_j], a value below the modulus. *)
Theorem sample_poly_cbd_stores_residues
    (g : global_variables) (rng : list byte) (parms : EncryptionParameters)
    (mem : list Z) (destination : nat) :
  let n := poly_modulus_degree parms in
  cbd_active g ->
  Forall (fun q => 21 < value q < 2 ^ 64) (coeff_modulus parms) ->
  (destination + n * length (coeff_modulus parms) <= length mem)%nat ->
  match draws cbd n rng with
  | None => sample_poly_cbd g rng parms mem destination = Starved
  | Some (vs, rng') =>
      exists mem',
        sample_poly_cbd g rng parms mem destination = Ok (mem', rng')
        /\ forall i j v q,
             vs !! i = Some v -> coeff_modulus parms !! j = Some q ->
             mem' !! (destination + (i + j * n))%nat = Some (v mod value q)
             /\ 0 <= v mod value q < value q
  end.
Proof.
  intros n Hg Hmod Hfit. rewrite sample_poly_cbd_closed by done. fold n.
  destruct (draws cbd n rng) as [[vs rng']|] eqn:Hd; [|done].
  eexists. split; [reflexivity|]. intros i j v q Hv Hq.
  pose proof (length_draws _ _ _ _ _ Hd) as Hlen.
  pose proof (lookup_lt_Some _ _ _ Hv) as Hi.
  pose proof (lookup_lt_Some _ _ _ Hq) as Hj.
  assert (Hq2 : 21 < value q < 2 ^ 64).
  { rewrite Forall_lookup in Hmod. by apply (Hmod j). }
  assert (Hv2 : -21 <= v <= 21).
  { assert (Hall : Forall (fun v => -21 <= v <= 21) vs).
    { eapply draws_Forall; [|exact Hd]. intros r0 x r1. unfold cbd.
      destruct (generate 6 r0)
        as [[[|b0 [|b1 [|b2 [|b3 [|b4 [|b5 [|]]]]]]] r2]|]; try done.
      intros [= <- _]. apply cbd_value_popcount. }
    rewrite Forall_lookup in Hall. by apply (Hall i). }
  split; [|apply Z.mod_pos_bound; lia].
  rewrite lookup_write_block_in; [|rewrite length_limb_major; nia|nia].
  replace (destination + (i + j * n) - destination)%nat
    with (i + j * length vs)%nat by lia.
  rewrite (lookup_limb_major _ _ _ _ _ _ _ Hv Hq).
  by rewrite noise_body_residue by lia.
Qed.

(** X4.  When the maximum deviation is not zero, the Gaussian sampler
    makes one draw of the clipped normal distribution per coefficient and
    stores it in every limb; a draw [v] of magnitude below the limb's
    modulus is stored as [v mod modulus_j]. *)
Theorem sample_poly_normal_stores_residues
    (g : global_variables) (rng : list byte) (parms : EncryptionParameters)
    (mem : list Z) (destination : nat) :
  let n := poly_modulus_degree parms in
  are_close (noise_max_deviation g) 0 = false ->
  Forall (fun q => 0 < value q < 2 ^ 64) (coeff_modulus parms) ->
  (destination + n * length (coeff_modulus parms) <= length mem)%nat ->
  match draws (clipped_normal g) n rng with
  | None => sample_poly_normal g rng parms mem destination = Starved
  | Some (vs, rng') =>
      exists mem',
        sample_poly_normal g rng parms mem destination = Ok (mem', rng')
        /\ length vs = n
        /\ forall i j v q,
             vs !! i = Some v -> coeff_modulus parms !! j = Some q ->
             - value q <= v < value q ->
             mem' !! (destination + (i + j * n))%nat = Some (v mod value q)
  end.
Proof.
  intros n Hdev Hmod Hfit. unfold sample_poly_normal. rewrite Hdev. fold n.
  rewrite iterate_coeffs_closed by done.
  destruct (draws (clipped_normal g) n rng) as [[vs rng']|] eqn:Hd; [|done].
  pose proof (length_draws _ _ _ _ _ Hd) as Hlen.
  eexists. split; [reflexivity|]. split; [done|].
  intros i j v q Hv Hq Hbound.
  pose proof (lookup_lt_Some _ _ _ Hv) as Hi.
  pose proof (lookup_lt_Some _ _ _ Hq) as Hj.
  assert (Hq2 : 0 < value q < 2 ^ 64).
  { rewrite Forall_lookup in Hmod. by apply (Hmod j). }
  rewrite lookup_write_block_in; [|rewrite length_limb_major; nia|nia].
  replace (destination + (i + j * n) - destination)%nat
    with (i + j * length vs)%nat by lia.
  rewrite (lookup_limb_major _ _ _ _ _ _ _ Hv Hq).
  by rewrite noise_body_residue.
Qed.

End NoiseSamplers.

(** ** The uniform sampler: tape and residues *)

Lemma engine_drop (rng : list byte) w rng' :
  engine rng = Some (w, rng') ->
  rng' = drop 4 rng /\ (4 <= length rng)%nat.
Proof.
  unfold engine, generate.
  destruct (Nat.leb_spec 4 (length rng)) as [Hle|]; [|done].
  by intros [= _ <-].
Qed.

(** The loop hands back the tape a whole number of 64-bit draws further. *)
Lemma draw_rand_tape (fuel : nat) (max_multiple : Z) rng rand rng' :
  draw_rand fuel max_multiple rng = Some (rand, rng') ->
  exists m, (0 < m)%nat /\ (8 * m <= length rng)%nat /\ rng' = drop (8 * m) rng.
Proof.
  revert rng. induction fuel as [|fuel IH]; intros rng; simpl; [done|].
  destruct (engine rng) as [[hi rng1]|] eqn:Hhi; [|done].
  destruct (engine rng1) as [[lo rng2]|] eqn:Hlo; [|done].
  apply engine_drop in Hhi as [-> Hl1]. apply engine_drop in Hlo as [-> Hl2].
  rewrite length_drop in Hl2. rewrite drop_drop in *.
  destruct (Z.lor (to_uint64 (Z.shiftl hi 32)) lo >=? max_multiple).
  - intros Hrun. destruct (IH _ Hrun) as (m & Hm & Hlen & ->).
    rewrite length_drop in Hlen. exists (S m).
    split; [lia|]. split; [lia|]. rewrite drop_drop. f_equal. lia.
  - intros [= _ <-]. exists 1%nat. split; [lia|]. split; [lia|]. done.
Qed.

Lemma draws_uniform_tape (q : Modulus) (count : nat) rng vs rng' :
  draws (uniform_draw q) count rng = Some (vs, rng') ->
  exists m, (count <= m)%nat /\ (8 * m <= length rng)%nat
            /\ rng' = drop (8 * m) rng.
Proof.
  revert rng vs. induction count as [|count IH]; intros rng vs; simpl.
  - intros [= _ <-]. exists 0%nat. split; [lia|]. split; [lia|done].
  - unfold uniform_draw at 1.
    destruct (draw_rand _ _ rng) as [[rand rng1]|] eqn:Hd; [|done].
    destruct (draws (uniform_draw q) count rng1) as [[xs rng2]|] eqn:Hr; [|done].
    intros [= _ <-].
    destruct (draw_rand_tape _ _ _ _ _ Hd) as (m1 & Hm1 & Hl1 & ->).
    destruct (IH _ _ Hr) as (m2 & Hm2 & Hl2 & ->).
    rewrite length_drop in Hl2. exists (m1 + m2)%nat.
    split; [lia|]. split; [lia|]. rewrite drop_drop. f_equal. lia.
Qed.

Lemma uniform_values_tape (moduli : list Modulus) (n : nat) rng vs rng' :
  uniform_values moduli n rng = Some (vs, rng') ->
  exists m, (length moduli * n <= m)%nat /\ (8 * m <= length rng)%nat
            /\ rng' = drop (8 * m) rng.
Proof.
  revert rng vs. induction moduli as [|q moduli IH]; intros rng vs; simpl.
  - intros [= _ <-]. exists 0%nat. split; [lia|]. split; [lia|done].
  - destruct (draws (uniform_draw q) n rng) as [[xs rng1]|] eqn:Hd; [|done].
    destruct (uniform_values moduli n rng1) as [[ws rng2]|] eqn:Hu; [|done].
    intros [= _ <-].
    destruct (draws_uniform_tape _ _ _ _ _ Hd) as (m1 & Hm1 & Hl1 & ->).
    destruct (IH _ _ Hu) as (m2 & Hm2 & Hl2 & ->).
    rewrite length_drop in Hl2. exists (m1 + m2)%nat.
    split; [lia|]. split; [lia|]. rewrite drop_drop. f_equal. lia.
Qed.

(** X5.  When the uniform sampler returns, it has written the
    [coeff_count * coeff_modulus_size] words at [destination] and nothing
    else; the word of coefficient [i] in limb [j] is below [modulus_j];
    and the generator has been advanced by a whole number of 64-bit draws,
    at least one per word written. *)
Theorem sample_poly_uniform_residues_and_tape
    (rng : list byte) (parms : EncryptionParameters) (mem : list Z)
    (destination : nat) (mem' : list Z) (rng' : list byte) :
  let n := poly_modulus_degree parms in
  let window := (n * length (coeff_modulus parms))%nat in
  Forall (fun q => 0 < value q) (coeff_modulus parms) ->
  (destination + window <= length mem)%nat ->
  sample_poly_uniform rng parms mem destination = Ok (mem', rng') ->
  length mem' = length mem
  /\ (forall x, (x < destination \/ destination + window <= x)%nat ->
        mem' !! x = mem !! x)
  /\ (forall i j q, (i < n)%nat -> coeff_modulus parms !! j = Some q ->
        exists w, mem' !! (destination + (i + j * n))%nat = Some w
                  /\ 0 <= w < value q)
  /\ exists draws64,
       (window <= draws64)%nat /\ (8 * draws64 <= length rng)%nat
       /\ rng' = drop (8 * draws64) rng.
Proof.
  intros n window Hmod Hfit. rewrite sample_poly_uniform_closed. fold n.
  destruct (uniform_values (coeff_modulus parms) n rng) as [[vs rng1]|] eqn:Hu;
    [|done].
  intros [= <- <-].
  pose proof (length_uniform_values _ _ _ _ _ Hu) as Hlen.
  split; [apply length_write_block|]. split.
  - intros x Hx. apply lookup_write_block_out. rewrite Hlen. unfold window. lia.
  - split.
    + intros i j q Hi Hq.
      pose proof (lookup_lt_Some _ _ _ Hq) as Hj.
      destruct (lookup_lt_is_Some_2 vs (i + j * n)%nat) as [w Hw];
        [rewrite Hlen; nia|].
      exists w. split.
      * rewrite lookup_write_block_in; [|rewrite Hlen; nia|unfold window in *; nia].
        rewrite <- Hw. f_equal. lia.
      * eapply (uniform_values_residue _ _ _ _ _ Hu i j q); try done.
        rewrite Forall_lookup in Hmod. by apply (Hmod j).
    + destruct (uniform_values_tape _ _ _ _ _ Hu) as (m & Hm & Hl & ->).
      exists m. split; [unfold window; lia|]. split; [done|done].
Qed.

(** * Further properties of encrypt_zero_symmetric *)

(** Adding back what was added before the negation leaves the negation of
    the other summand. *)
Lemma add_negated_sum (q : Z) (E P : list Z) :
  length E = length P ->
  zip_with (fun x y => (x + y) mod q)
    ((fun x => (- x) mod q) <$> zip_with (fun x y => (x + y) mod q) E P) P
  = (fun x => (- x) mod q) <$> E.
Proof.
  revert P. induction E as [|e E IH]; intros [|p P]; simpl; try done.
  intros [= Hlen]. f_equal; [|by apply IH].
  rewrite Zplus_mod_idemp_l.
  replace (- ((e + p) mod q) + p) with (p - (e + p) mod q) by lia.
  rewrite Zminus_mod_idemp_r. f_equal. lia.
Qed.

Section SymmetricRelations.
Context `{Collaborators}.

(** The relation between a limb of [c0] and the product it was built
    from, whatever the form. *)
Lemma c0_limb_plus_product (is_ntt : bool) (q : Modulus) (t : NTTTables)
    (s a e : list Z) :
  length s = length a -> length e = length a ->
  let product := zip_with (fun x y => (x * y) mod value q) s a in
  zip_with (fun x y => (x + y) mod value q) (c0_limb is_ntt q t s a e)
    (if is_ntt then product else inverse_ntt_negacyclic_harvey t product)
  = (fun x => (- x) mod value q)
      <$> (if is_ntt then ntt_negacyclic_harvey t e else e).
Proof.
  intros Hs He product. unfold c0_limb. fold product.
  apply add_negated_sum.
  assert (Hp : length product = length a).
  { unfold product. by rewrite length_zip_with_l_eq. }
  destruct is_ntt; rewrite ?ntt_length, ?inverse_ntt_length; congruence.
Qed.

(** X6.  An uncompressed encryption of zero decrypts to minus the noise.
    For NTT-form output, [c0 + s * c1 = - NTT(e)] limb by limb, with the
    stored [c1]; for non-NTT output the stored [c1] is the inverse
    transform of the sample [a] and [c0 + INTT(s * a) = - e]. *)
Theorem encrypt_zero_symmetric_uncompressed_decrypts_to_noise
    (b : build) (g : global_variables) (entropy : list byte)
    (sk : SecretKey) (context : SEALContext) (parms_id : parms_id_type)
    (is_ntt save_seed : bool) (destination : Ciphertext)
    (seed_bytes boot : list byte) (a : list Z) (rng_a : list byte)
    (e : list Z) (boot' : list byte) :
  let cd := get_context_data context parms_id in
  let n := poly_modulus_degree (parms cd) in
  let moduli := coeff_modulus (parms cd) in
  let tables := small_ntt_tables cd in
  let c1 := (n * length moduli)%nat in
  seed_fits save_seed c1 = false ->
  SEAL_DEBUG b && negb (is_valid_for_secret_key sk context) = false ->
  generate (8 * prng_seed_uint64_count) entropy = Some (seed_bytes, boot) ->
  sample_poly_uniform
    (blake_prng (seed_words prng_seed_uint64_count seed_bytes)) (parms cd)
    (replicate c1 0) 0 = Ok (a, rng_a) ->
  sample_noise b g boot (parms cd) (allocate_poly n (length moduli)) 0
    = Ok (e, boot') ->
  exists ct,
    encrypt_zero_symmetric b g entropy sk context parms_id is_ntt save_seed
      destination = (Returned, ct)
    /\ forall l, (l < length moduli)%nat ->
         let q := value (moduli !!! l) in
         let t := tables !!! l in
         let add x y := zip_with (fun u v => (u + v) mod q) x y in
         let mul x y := zip_with (fun u v => (u * v) mod q) x y in
         let neg x := (fun u => (- u) mod q) <$> x in
         let s_l := read_block (sk_data sk) (l * n) n in
         let e_l := read_block e (l * n) n in
         let a_l := read_block a (l * n) n in
         let c0_l := read_block (ct_data ct) (l * n) n in
         let c1_l := read_block (ct_data ct) (c1 + l * n) n in
         if is_ntt
         then add c0_l (mul s_l c1_l) = neg (ntt_negacyclic_harvey t e_l)
         else c1_l = inverse_ntt_negacyclic_harvey t a_l
              /\ add c0_l (inverse_ntt_negacyclic_harvey t (mul s_l a_l))
                 = neg e_l.
Proof.
  intros cd n moduli tables c1 Hplain Hvalid Hgen Hu Hnoise.
  apply sample_poly_uniform_fresh in Hu.
  destruct (encrypt_zero_symmetric_returns b g entropy sk context parms_id
              is_ntt save_seed destination seed_bytes boot a rng_a e boot'
              Hvalid Hgen Hu Hnoise)
    as (ct & Hrun & _ & _ & Hc0 & Hc1 & _).
  fold cd n moduli tables c1 in Hc0, Hc1. rewrite Hplain in Hc0.
  specialize (Hc1 Hplain).
  exists ct. split; [done|]. intros l Hl. cbv zeta.
  rewrite (Hc0 l Hl), (Hc1 l Hl).
  unfold working_limb. rewrite andb_false_r.
  pose proof (c0_limb_plus_product is_ntt (moduli !!! l) (tables !!! l)
                (read_block (sk_data sk) (l * n) n) (read_block a (l * n) n)
                (read_block e (l * n) n)) as Hrel.
  cbv zeta in Hrel. rewrite !length_read_block in Hrel.
  specialize (Hrel eq_refl eq_refl). by destruct is_ntt.
Qed.

(** X7.  A compressed encryption of zero can be expanded again.  The
    words behind the marker are the seed; the seeded generator started
    from them yields the polynomial [a] of the run once more; and with
    that polynomial as second component the ciphertext decrypts to minus
    the noise: [c0 + s * a = - NTT(e)] for NTT-form output and
    [c0 + INTT(s * NTT(a)) = - e] for non-NTT output. *)
Theorem encrypt_zero_symmetric_compressed_expands
    (b : build) (g : global_variables) (entropy : list byte)
    (sk : SecretKey) (context : SEALContext) (parms_id : parms_id_type)
    (is_ntt save_seed : bool) (destination : Ciphertext)
    (seed_bytes boot : list byte) (a : list Z) (rng_a : list byte)
    (e : list Z) (boot' : list byte) :
  let cd := get_context_data context parms_id in
  let n := poly_modulus_degree (parms cd) in
  let moduli := coeff_modulus (parms cd) in
  let tables := small_ntt_tables cd in
  let c1 := (n * length moduli)%nat in
  seed_fits save_seed c1 = true ->
  SEAL_DEBUG b && negb (is_valid_for_secret_key sk context) = false ->
  generate (8 * prng_seed_uint64_count) entropy = Some (seed_bytes, boot) ->
  sample_poly_uniform
    (blake_prng (seed_words prng_seed_uint64_count seed_bytes)) (parms cd)
    (replicate c1 0) 0 = Ok (a, rng_a) ->
  sample_noise b g boot (parms cd) (allocate_poly n (length moduli)) 0
    = Ok (e, boot') ->
  exists ct,
    encrypt_zero_symmetric b g entropy sk context parms_id is_ntt save_seed
      destination = (Returned, ct)
    /\ ct_data ct !! c1 = Some (2 ^ 64 - 1)
    /\ sample_poly_uniform
         (blake_prng (read_block (ct_data ct) (c1 + 1) prng_seed_uint64_count))
         (parms cd) (replicate c1 0) 0 = Ok (a, rng_a)
    /\ forall l, (l < length moduli)%nat ->
         let q := value (moduli !!! l) in
         let t := tables !!! l in
         let add x y := zip_with (fun u v => (u + v) mod q) x y in
         let mul x y := zip_with (fun u v => (u * v) mod q) x y in
         let neg x := (fun u => (- u) mod q) <$> x in
         let s_l := read_block (sk_data sk) (l * n) n in
         let e_l := read_block e (l * n) n in
         let a_l := read_block a (l * n) n in
         let c0_l := read_block (ct_data ct) (l * n) n in
         if is_ntt
         then add c0_l (mul s_l a_l) = neg (ntt_negacyclic_harvey t e_l)
         else add c0_l
                (inverse_ntt_negacyclic_harvey t
                   (mul s_l (ntt_negacyclic_harvey t a_l)))
              = neg e_l.
Proof.
  intros cd n moduli tables c1 Hpacked Hvalid Hgen Hu Hnoise.
  pose proof Hu as Hfresh. apply sample_poly_uniform_fresh in Hu.
  destruct (encrypt_zero_symmetric_returns b g entropy sk context parms_id
              is_ntt save_seed destination seed_bytes boot a rng_a e boot'
              Hvalid Hgen Hu Hnoise)
    as (ct & Hrun & _ & _ & Hc0 & _ & Hseed).
  fold cd n moduli tables c1 in Hc0, Hseed. rewrite Hpacked in Hc0.
  destruct (Hseed Hpacked) as [Hmark Hwords].
  exists ct. split; [done|]. split; [exact Hmark|].
  split; [by rewrite Hwords|].
  intros l Hl. cbv zeta. rewrite (Hc0 l Hl).
  unfold working_limb. rewrite andb_true_r.
  destruct is_ntt; simpl.
  - pose proof (c0_limb_plus_product true (moduli !!! l) (tables !!! l)
                  (read_block (sk_data sk) (l * n) n) (read_block a (l * n) n)
                  (read_block e (l * n) n)) as Hrel.
    cbv zeta in Hrel. rewrite !length_read_block in Hrel.
    exact (Hrel eq_refl eq_refl).
  - pose proof (c0_limb_plus_product false (moduli !!! l) (tables !!! l)
                  (read_block (sk_data sk) (l * n) n)
                  (ntt_negacyclic_harvey (tables !!! l) (read_block a (l * n) n))
                  (read_block e (l * n) n)) as Hrel.
    cbv zeta in Hrel. rewrite ntt_length, !length_read_block in Hrel.
    exact (Hrel eq_refl eq_refl).
Qed.

(** X8.  For NTT-form output compression loses nothing: the compressing
    run and the plain run on the same inputs return the same first
    component, and the second component of the plain run is the polynomial
    that the seed stored by the compressing run regenerates. *)
Theorem encrypt_zero_symmetric_ntt_compression_lossless
    (b : build) (g : global_variables) (entropy : list byte)
    (sk : SecretKey) (context : SEALContext) (parms_id : parms_id_type)
    (destination : Ciphertext)
    (seed_bytes boot : list byte) (a : list Z) (rng_a : list byte)
    (e : list Z) (boot' : list byte) :
  let cd := get_context_data context parms_id in
  let n := poly_modulus_degree (parms cd) in
  let moduli := coeff_modulus (parms cd) in
  let c1 := (n * length moduli)%nat in
  (prng_seed_uint64_count + 1 <= c1)%nat ->
  SEAL_DEBUG b && negb (is_valid_for_secret_key sk context) = false ->
  generate (8 * prng_seed_uint64_count) entropy = Some (seed_bytes, boot) ->
  sample_poly_uniform
    (blake_prng (seed_words prng_seed_uint64_count seed_bytes)) (parms cd)
    (replicate c1 0) 0 = Ok (a, rng_a) ->
  sample_noise b g boot (parms cd) (allocate_poly n (length moduli)) 0
    = Ok (e, boot') ->
  exists packed plain regenerated rest,
    encrypt_zero_symmetric b g entropy sk context parms_id true true
      destination = (Returned, packed)
    /\ encrypt_zero_symmetric b g entropy sk context parms_id true false
         destination = (Returned, plain)
    /\ sample_poly_uniform
         (blake_prng
            (read_block (ct_data packed) (c1 + 1) prng_seed_uint64_count))
         (parms cd) (replicate c1 0) 0 = Ok (regenerated, rest)
    /\ forall l, (l < length moduli)%nat ->
         read_block (ct_data packed) (l * n) n
         = read_block (ct_data plain) (l * n) n
         /\ read_block (ct_data plain) (c1 + l * n) n
            = read_block regenerated (l * n) n.
Proof.
  intros cd n moduli c1 Hroom Hvalid Hgen Hu Hnoise.
  pose proof Hu as Hfresh. apply sample_poly_uniform_fresh in Hu.
  assert (Hpacked : seed_fits true c1 = true) by (by apply seed_fits_true).
  destruct (encrypt_zero_symmetric_returns b g entropy sk context parms_id
              true true destination seed_bytes boot a rng_a e boot'
              Hvalid Hgen Hu Hnoise)
    as (packed & Hrun1 & _ & _ & Hc0 & _ & Hseed).
  destruct (encrypt_zero_symmetric_returns b g entropy sk context parms_id
              true false destination seed_bytes boot a rng_a e boot'
              Hvalid Hgen Hu Hnoise)
    as (plain & Hrun2 & _ & _ & Hc0' & Hc1' & _).
  fold cd n moduli c1 in Hc0, Hseed, Hc0', Hc1'.
  destruct (Hseed Hpacked) as [_ Hwords].
  exists packed, plain, a, rng_a.
  split; [done|]. split; [done|]. split; [by rewrite Hwords|].
  intros l Hl. split.
  - rewrite (Hc0 l Hl), (Hc0' l Hl). done.
  - by rewrite (Hc1' eq_refl l Hl).
Qed.

End SymmetricRelations.

(** * encrypt_zero_asymmetric, step by step *)

(** Two blocks of [n] words, at limb [l] of component [j] and at limb [l']
    of component [j'] (components [D] words apart), do not meet unless
    they are the same block. *)
Lemma block_disjoint (D n j l j' l' x : nat) :
  (l * n + n <= D)%nat -> (l' * n + n <= D)%nat ->
  (j * D + l * n <= x < j * D + l * n + n)%nat ->
  (j' * D + l' * n <= x < j' * D + l' * n + n)%nat ->
  j = j' /\ l = l'.
Proof.
  intros Hl Hl' Hx Hx'.
  assert (j = j') as <-.
  { destruct (Nat.lt_trichotomy j j') as [Hlt|[Heq|Hgt]]; [|done|]; exfalso; nia. }
  split; [done|].
  destruct (Nat.lt_trichotomy l l') as [Hlt|[Heq|Hgt]]; [|done|]; exfalso; nia.
Qed.

Section Asymmetric.
Context `{Collaborators}.

(** Limb of a component before the noise: the product of the transformed
    [u] with the public key's limb, inverse-transformed for non-NTT
    output. *)
Definition product_limb (is_ntt : bool) (q : Modulus) (t : NTTTables)
    (u p : list Z) : list Z :=
  let product := zip_with (fun x y => (x * y) mod value q) u p in
  if is_ntt then product else inverse_ntt_negacyclic_harvey t product.

(** Limb of the noise as it is added: forward-transformed for NTT-form
    output. *)
Definition noise_limb (is_ntt : bool) (t : NTTTables) (e : list Z) : list Z :=
  if is_ntt then ntt_negacyclic_harvey t e else e.

(** The noise polynomials of [count] successive calls of the noise
    sampler, each on a buffer of its own. *)
Fixpoint noise_sequence (count : nat) (b : build) (g : global_variables)
    (parms : EncryptionParameters) (rng : list byte)
    : result (list (list Z) * list byte) :=
  match count with
  | O => Ok ([], rng)
  | S count' =>
      match sample_noise b g rng parms
              (allocate_poly (poly_modulus_degree parms)
                 (length (coeff_modulus parms))) 0 with
      | Ok (e, rng') =>
          match noise_sequence count' b g parms rng' with
          | Ok (es, rng'') => Ok (e :: es, rng'')
          | Throw x => Throw x
          | Starved => Starved
          end
      | Throw x => Throw x
      | Starved => Starved
      end
  end.

(** The noise sampler overwrites a buffer of polynomial size entirely:
    what the buffer held before does not matter. *)
Lemma sample_noise_whole (b : build) (g : global_variables) rng parms
    (u : list Z) :
  length u = (poly_modulus_degree parms * length (coeff_modulus parms))%nat ->
  sample_noise b g rng parms u 0
  = sample_noise b g rng parms
      (allocate_poly (poly_modulus_degree parms)
         (length (coeff_modulus parms))) 0.
Proof.
  intros Hlen.
  assert (Hal : length (allocate_poly (poly_modulus_degree parms)
                          (length (coeff_modulus parms)))
                = (poly_modulus_degree parms * length (coeff_modulus parms))%nat)
    by (unfold allocate_poly; by rewrite length_replicate).
  assert (Hzero : set_zero_poly (poly_modulus_degree parms)
                    (length (coeff_modulus parms)) u 0
                  = set_zero_poly (poly_modulus_degree parms)
                      (length (coeff_modulus parms))
                      (allocate_poly (poly_modulus_degree parms)
                         (length (coeff_modulus parms))) 0).
  { unfold set_zero_poly.
    rewrite !write_block_whole; rewrite ?length_replicate; done. }
  assert (Hdraw : forall draw body,
            iterate_coeffs draw body (poly_modulus_degree parms) 0
              (poly_modulus_degree parms) (coeff_modulus parms) rng u
            = iterate_coeffs draw body (poly_modulus_degree parms) 0
                (poly_modulus_degree parms) (coeff_modulus parms) rng
                (allocate_poly (poly_modulus_degree parms)
                   (length (coeff_modulus parms)))).
  { intros draw body. rewrite !iterate_coeffs_closed by lia.
    destruct (draws draw _ rng) as [[xs rng']|] eqn:Hd; [|done].
    pose proof (length_draws _ _ _ _ _ Hd) as Hxs.
    rewrite !write_block_whole; [done|rewrite length_limb_major; lia..]. }
  unfold sample_noise, sample_poly_normal, sample_poly_cbd.
  rewrite Hzero, !Hdraw. done.
Qed.

Lemma asymmetric_components_spec (count j i n : nat) (is_ntt : bool)
    (q : Modulus) (t : NTTTables) (u : list Z) (pk dest : Ciphertext)
    (mem : list Z) :
  let D := (ct_poly_modulus_degree dest * ct_coeff_modulus_size dest)%nat in
  (i * n + n <= D)%nat -> ((j + count) * D <= length mem)%nat ->
  let mem' := asymmetric_components count j i n is_ntt q t u pk dest mem in
  length mem' = length mem
  /\ (forall x,
        (forall j', (j <= j' < j + count)%nat ->
           ~ (j' * D + i * n <= x < j' * D + i * n + n)%nat) ->
        mem' !! x = mem !! x)
  /\ (forall j', (j <= j' < j + count)%nat ->
        read_block mem' (j' * D + i * n) n
        = product_limb is_ntt q t (read_block u (i * n) n)
            (read_block (ct_data pk) (ct_component pk j' + i * n) n)).
Proof.
  intros D Hin. revert j mem.
  induction count as [|count IH]; intros j mem Hfit.
  - simpl. split; [done|]. split; [done|]. intros j' Hj'. lia.
  - cbn [asymmetric_components].
    change (ct_component dest j) with (j * D)%nat.
    set (dst := (j * D + i * n)%nat).
    set (m1 := dyadic_product_coeffmod u (i * n) (ct_data pk)
                 (ct_component pk j + i * n) n q mem dst).
    set (m2 := if negb is_ntt
               then transform_at inverse_ntt_negacyclic_harvey t n m1 dst
               else m1).
    pose proof (length_zip_with_read (fun a b => (a * b) mod value q)
                  u (ct_data pk) (i * n) (ct_component pk j + i * n) n) as HB.
    assert (Hl1 : length m1 = length mem) by apply length_write_block.
    assert (Hl2 : length m2 = length mem).
    { unfold m2. destruct is_ntt; simpl; [done|].
      by rewrite length_transform_at. }
    assert (Hr1 : read_block m1 dst n
                  = zip_with (fun a b => (a * b) mod value q)
                      (read_block u (i * n) n)
                      (read_block (ct_data pk) (ct_component pk j + i * n) n)).
    { unfold m1, dyadic_product_coeffmod. apply read_write_block; [done|].
      unfold dst. nia. }
    assert (Hr2 : read_block m2 dst n
                  = product_limb is_ntt q t (read_block u (i * n) n)
                      (read_block (ct_data pk) (ct_component pk j + i * n) n)).
    { unfold m2, product_limb. destruct is_ntt; simpl; [done|].
      unfold transform_at. rewrite Hr1. apply read_write_block.
      - by rewrite inverse_ntt_length.
      - rewrite Hl1. unfold dst. nia. }
    assert (Ho2 : forall x, (x < dst \/ dst + n <= x)%nat -> m2 !! x = mem !! x).
    { intros x Hx.
      assert (m2 !! x = m1 !! x) as ->.
      { unfold m2. destruct is_ntt; simpl; [done|]. unfold transform_at.
        apply lookup_write_block_out.
        rewrite inverse_ntt_length, length_read_block. lia. }
      unfold m1, dyadic_product_coeffmod. apply lookup_write_block_out.
      rewrite HB. lia. }
    destruct (IH (S j) m2) as (Hlen & Hout & Hblk); [rewrite Hl2; lia|].
    split; [congruence|]. split.
    + intros x Hx. rewrite Hout.
      * apply Ho2. specialize (Hx j ltac:(lia)). unfold dst. lia.
      * intros j' Hj'. apply Hx. lia.
    + intros j' Hj'. destruct (decide (j' = j)) as [->|Hne].
      * fold dst. rewrite <- Hr2. apply read_block_ext. intros x Hx.
        apply Hout. intros j2 Hj2 Hx2.
        destruct (block_disjoint D n j i j2 i x) as [? _]; unfold dst in *; lia.
      * apply Hblk. lia.
Qed.

Lemma asymmetric_limbs_spec (count i n size : nat) (is_ntt : bool)
    (moduli : list Modulus) (tables : list NTTTables) (pk dest : Ciphertext)
    (u mem : list Z) :
  let D := (ct_poly_modulus_degree dest * ct_coeff_modulus_size dest)%nat in
  ((i + count) * n <= D)%nat -> ((i + count) * n <= length u)%nat ->
  (size * D <= length mem)%nat ->
  let r := asymmetric_limbs count i n size is_ntt moduli tables pk dest u mem in
  length r.1 = length u /\ length r.2 = length mem
  /\ (forall j l, (j < size)%nat -> (i <= l < i + count)%nat ->
        read_block r.2 (j * D + l * n) n
        = product_limb is_ntt (moduli !!! l) (tables !!! l)
            (ntt_negacyclic_harvey (tables !!! l) (read_block u (l * n) n))
            (read_block (ct_data pk) (ct_component pk j + l * n) n)).
Proof.
  intros D. revert i u mem.
  induction count as [|count IH]; intros i u mem HD Hu Hmem.
  - simpl. split; [done|]. split; [done|]. intros j l Hj Hl. lia.
  - cbn [asymmetric_limbs].
    set (u1 := transform_at ntt_negacyclic_harvey (tables !!! i) n u (i * n)).
    set (m1 := asymmetric_components size 0 i n is_ntt (moduli !!! i)
                 (tables !!! i) u1 pk dest mem).
    assert (Hlu1 : length u1 = length u) by apply length_transform_at.
    assert (Hru1 : read_block u1 (i * n) n
                   = ntt_negacyclic_harvey (tables !!! i) (read_block u (i * n) n)).
    { unfold u1, transform_at. apply read_write_block.
      - by rewrite ntt_length, length_read_block.
      - nia. }
    assert (Hou1 : forall x, (x < i * n \/ i * n + n <= x)%nat ->
                             u1 !! x = u !! x).
    { intros x Hx. unfold u1, transform_at. apply lookup_write_block_out.
      rewrite ntt_length, length_read_block. lia. }
    destruct (asymmetric_components_spec size 0 i n is_ntt (moduli !!! i)
                (tables !!! i) u1 pk dest mem) as (Hlm1 & _ & Hblk1).
    { fold D. nia. } { fold D. lia. }
    fold D in Hblk1. fold m1 in Hlm1, Hblk1.
    destruct (IH (S i) u1 m1) as (Hlu & Hlm & Hblk);
      [lia|rewrite Hlu1; lia|rewrite Hlm1; lia|].
    split; [congruence|]. split; [congruence|].
    intros j l Hj Hl. destruct (decide (l = i)) as [->|Hne].
    + (* limb [i] is written in this turn and left alone afterwards *)
      rewrite <- Hru1, <- (Hblk1 j ltac:(lia)).
      clear Hblk Hblk1 Hru1.
      assert (Hlater : forall c i' u' mem',
                (i < i')%nat -> ((i' + c) * n <= D)%nat ->
                (size * D <= length mem')%nat ->
                read_block
                  (asymmetric_limbs c i' n size is_ntt moduli tables pk dest
                     u' mem').2 (j * D + i * n) n
                = read_block mem' (j * D + i * n) n).
      { induction c as [|c IHc]; intros i' u' mem' Hi' HD' Hm'; [done|].
        cbn [asymmetric_limbs].
        set (u2 := transform_at _ _ _ _ _).
        destruct (asymmetric_components_spec size 0 i' n is_ntt
                    (moduli !!! i') (tables !!! i') u2 pk dest mem')
          as (Hl2 & Ho2 & _).
        { fold D. nia. } { fold D. lia. }
        fold D in Ho2.
        rewrite IHc; [|lia|lia|rewrite Hl2; lia].
        apply read_block_ext. intros x Hx. apply Ho2. intros j' Hj' Hx'.
        destruct (block_disjoint D n j i j' i' x) as [_ ?]; [nia|nia|lia|lia|].
        lia. }
      apply Hlater; [lia|lia|rewrite Hlm1; lia].
    + rewrite (Hblk j l Hj ltac:(lia)). do 2 f_equal.
      apply read_block_ext. intros x Hx. apply Hou1. nia.
Qed.

Lemma asymmetric_add_noise_spec (count i j n : nat) (is_ntt : bool)
    (moduli : list Modulus) (tables : list NTTTables) (dest : Ciphertext)
    (u mem : list Z) :
  let D := (ct_poly_modulus_degree dest * ct_coeff_modulus_size dest)%nat in
  ((i + count) * n <= D)%nat -> ((i + count) * n <= length u)%nat ->
  ((j + 1) * D <= length mem)%nat ->
  let r := asymmetric_add_noise count i j n is_ntt moduli tables dest u mem in
  length r.1 = length u /\ length r.2 = length mem
  /\ (forall x, (x < j * D + i * n \/ j * D + (i + count) * n <= x)%nat ->
        r.2 !! x = mem !! x)
  /\ (forall l, (i <= l < i + count)%nat ->
        read_block r.2 (j * D + l * n) n
        = zip_with (fun a b => (a + b) mod value (moduli !!! l))
            (noise_limb is_ntt (tables !!! l) (read_block u (l * n) n))
            (read_block mem (j * D + l * n) n)).
Proof.
  intros D. revert i u mem.
  induction count as [|count IH]; intros i u mem HD Hu Hmem.
  - simpl. split; [done|]. split; [done|]. split; [done|]. intros l Hl. lia.
  - cbn [asymmetric_add_noise].
    change (ct_component dest j) with (j * D)%nat.
    set (dst := (j * D + i * n)%nat).
    set (u1 := if is_ntt
               then transform_at ntt_negacyclic_harvey (tables !!! i) n u (i * n)
               else u).
    set (m1 := add_poly_coeffmod u1 (i * n) mem dst n (moduli !!! i) mem dst).
    assert (Hlu1 : length u1 = length u).
    { unfold u1. destruct is_ntt; [|done]. apply length_transform_at. }
    assert (Hru1 : read_block u1 (i * n) n
                   = noise_limb is_ntt (tables !!! i) (read_block u (i * n) n)).
    { unfold u1, noise_limb. destruct is_ntt; [|done]. unfold transform_at.
      apply read_write_block.
      - by rewrite ntt_length, length_read_block.
      - nia. }
    assert (Hou1 : forall x, (x < i * n \/ i * n + n <= x)%nat ->
                             u1 !! x = u !! x).
    { intros x Hx. unfold u1. destruct is_ntt; [|done]. unfold transform_at.
      apply lookup_write_block_out.
      rewrite ntt_length, length_read_block. lia. }
    assert (Hlm1 : length m1 = length mem) by apply length_write_block.
    assert (Hrm1 : read_block m1 dst n
                   = zip_with (fun a b => (a + b) mod value (moduli !!! i))
                       (read_block u1 (i * n) n) (read_block mem dst n)).
    { unfold m1, add_poly_coeffmod. apply read_write_block.
      - apply length_zip_with_read.
      - unfold dst. nia. }
    assert (Hom1 : forall x, (x < dst \/ dst + n <= x)%nat -> m1 !! x = mem !! x).
    { intros x Hx. unfold m1, add_poly_coeffmod. apply lookup_write_block_out.
      rewrite length_zip_with_read. lia. }
    destruct (IH (S i) u1 m1) as (Hlu & Hlm & Hout & Hblk);
      [lia|rewrite Hlu1; lia|rewrite Hlm1; lia|].
    split; [congruence|]. split; [congruence|]. split.
    + intros x Hx. rewrite Hout by lia. apply Hom1. unfold dst. lia.
    + intros l Hl. destruct (decide (l = i)) as [->|Hne].
      * rewrite (read_block_ext _ m1) by (intros x Hx; apply Hout; nia).
        fold dst. by rewrite Hrm1, Hru1.
      * rewrite (Hblk l ltac:(lia)). f_equal.
        -- f_equal. apply read_block_ext. intros x Hx. apply Hou1. nia.
        -- apply read_block_ext. intros x Hx. apply Hom1. unfold dst. nia.
Qed.

Lemma asymmetric_noise_spec (count j : nat) (b : build) (g : global_variables)
    (parms : EncryptionParameters) (is_ntt : bool)
    (tables : list NTTTables) (dest : Ciphertext) (rng : list byte)
    (u mem : list Z) :
  let n := poly_modulus_degree parms in
  let moduli := coeff_modulus parms in
  let D := (ct_poly_modulus_degree dest * ct_coeff_modulus_size dest)%nat in
  D = (n * length moduli)%nat -> length u = D ->
  ((j + count) * D <= length mem)%nat ->
  match noise_sequence count b g parms rng with
  | Ok (es, _) =>
      exists mem',
        asymmetric_noise count j b g parms is_ntt tables dest rng u mem
          = (Returned, mem')
        /\ length mem' = length mem
        /\ (forall x, (x < j * D)%nat -> mem' !! x = mem !! x)
        /\ (forall j' l e, es !! j' = Some e -> (l < length moduli)%nat ->
              read_block mem' ((j + j') * D + l * n) n
              = zip_with (fun a b => (a + b) mod value (moduli !!! l))
                  (noise_limb is_ntt (tables !!! l) (read_block e (l * n) n))
                  (read_block mem ((j + j') * D + l * n) n))
  | Throw x =>
      exists mem',
        asymmetric_noise count j b g parms is_ntt tables dest rng u mem
          = (Threw x, mem')
  | Starved =>
      exists mem',
        asymmetric_noise count j b g parms is_ntt tables dest rng u mem
          = (Ran_dry, mem')
  end.
Proof.
  intros n moduli D HD. revert j rng u mem.
  induction count as [|count IH]; intros j rng u mem Hu Hmem.
  - simpl. exists mem. split; [done|]. split; [done|]. split; [done|].
    intros j' l e He. done.
  - cbn [noise_sequence asymmetric_noise].
    rewrite (sample_noise_whole b g rng parms u) by (fold n moduli; congruence).
    fold n moduli.
    destruct (sample_noise b g rng parms (allocate_poly n (length moduli)) 0)
      as [[e rng1]|x|] eqn:Hs; [|by eexists|by eexists].
    pose proof (length_sample_noise _ _ _ _ _ _ _ _ Hs) as Hle.
    unfold allocate_poly in Hle. rewrite length_replicate in Hle.
    destruct (asymmetric_add_noise_spec (length moduli) 0 j n is_ntt moduli
                tables dest e mem) as (Hlu2 & Hlm2 & Hout2 & Hblk2).
    { fold D. lia. } { lia. } { fold D. lia. }
    fold D in Hout2, Hblk2.
    destruct (asymmetric_add_noise (length moduli) 0 j n is_ntt moduli tables
                dest e mem) as [u2 m2] eqn:Han.
    simpl in Hlu2, Hlm2, Hout2, Hblk2.
    specialize (IH (S j) rng1 u2 m2 ltac:(lia) ltac:(rewrite Hlm2; lia)).
    destruct (noise_sequence count b g parms rng1) as [[es rng2]|x|];
      [|destruct IH as [mem' ->]; by eexists..].
    destruct IH as (mem' & -> & Hlen & Hout & Hblk).
    exists mem'. split; [done|]. split; [congruence|]. split.
    + intros x Hx. rewrite Hout by lia. apply Hout2. lia.
    + intros j' l e' He' Hl. destruct j' as [|j']; simpl in He'.
      * injection He' as <-. rewrite Nat.add_0_r.
        rewrite (read_block_ext mem' m2) by (intros x Hx; apply Hout; nia).
        apply Hblk2. lia.
      * replace (j + S j')%nat with (S j + j')%nat by lia.
        rewrite (Hblk j' l e' He' Hl). f_equal.
        apply read_block_ext. intros x Hx. apply Hout2. nia.
Qed.

End Asymmetric.

Section AsymmetricRun.
Context `{Collaborators}.

Lemma length_noise_sequence (count : nat) b g parms rng es rng' :
  noise_sequence count b g parms rng = Ok (es, rng') -> length es = count.
Proof.
  revert rng es. induction count as [|count IH]; intros rng es; simpl.
  - by intros [= <- _].
  - destruct (sample_noise _ _ _ _ _ _) as [[e rng1]| |]; [|done..].
    destruct (noise_sequence count b g parms rng1) as [[es1 rng2]| |] eqn:E;
      [|done..].
    intros [= <- <-]. simpl. f_equal. by eapply IH.
Qed.

Lemma length_sample_poly_ternary rng parms mem destination mem' rng' :
  sample_poly_ternary rng parms mem destination = Ok (mem', rng') ->
  length mem' = length mem.
Proof.
  unfold sample_poly_ternary.
  destruct (iterate_coeffs _ _ _ _ _ _ _ _) as [[m r]|] eqn:E; [|done].
  intros [= <- _]. by eapply length_iterate_coeffs.
Qed.

(** The run, past validation, up to the loop that adds the noise. *)
Lemma encrypt_zero_asymmetric_unfold (b : build) (g : global_variables)
    (entropy : list byte) (pk : PublicKey) (context : SEALContext)
    (parms_id : parms_id_type) (is_ntt : bool) (destination : Ciphertext)
    (u : list Z) (rng1 : list byte) :
  let cd := get_context_data context parms_id in
  let n := poly_modulus_degree (parms cd) in
  let moduli := coeff_modulus (parms cd) in
  let tables := small_ntt_tables cd in
  let size := ct_size (pk_data pk) in
  let dest0 := prepared destination context parms_id size is_ntt in
  SEAL_DEBUG b && negb (is_valid_for_public_key pk context) = false ->
  sample_poly_ternary entropy (parms cd) (allocate_poly n (length moduli)) 0
    = Ok (u, rng1) ->
  let r := asymmetric_limbs (length moduli) 0 n size is_ntt moduli tables
             (pk_data pk) dest0 u (ct_data dest0) in
  let r' := asymmetric_noise size 0 b g (parms cd) is_ntt tables dest0 rng1
              r.1 r.2 in
  encrypt_zero_asymmetric b g entropy pk context parms_id is_ntt destination
  = (r'.1, with_data dest0 r'.2).
Proof.
  intros cd n moduli tables size dest0 Hvalid Ht r r'.
  unfold encrypt_zero_asymmetric. rewrite Hvalid.
  fold cd n moduli tables size. rewrite Ht.
  change (with_flags (resize destination context parms_id size) is_ntt 1)
    with dest0.
  fold r. destruct r as [u1 m1]. simpl in r'. fold r'. by destruct r'.
Qed.

(** A returning run, component by component. *)
Lemma encrypt_zero_asymmetric_returns
    (b : build) (g : global_variables) (entropy : list byte)
    (pk : PublicKey) (context : SEALContext) (parms_id : parms_id_type)
    (is_ntt : bool) (destination : Ciphertext)
    (u : list Z) (rng1 : list byte) (es : list (list Z)) (rng2 : list byte) :
  let cd := get_context_data context parms_id in
  let n := poly_modulus_degree (parms cd) in
  let moduli := coeff_modulus (parms cd) in
  let tables := small_ntt_tables cd in
  let size := ct_size (pk_data pk) in
  SEAL_DEBUG b && negb (is_valid_for_public_key pk context) = false ->
  sample_poly_ternary entropy (parms cd) (allocate_poly n (length moduli)) 0
    = Ok (u, rng1) ->
  noise_sequence size b g (parms cd) rng1 = Ok (es, rng2) ->
  exists ct,
    encrypt_zero_asymmetric b g entropy pk context parms_id is_ntt destination
      = (Returned, ct)
    /\ ct_size ct = size /\ is_ntt_form ct = is_ntt /\ scale ct = 1%Q
    /\ length (ct_data ct) = (size * (n * length moduli))%nat
    /\ length es = size
    /\ forall j l e, es !! j = Some e -> (l < length moduli)%nat ->
         read_block (ct_data ct) (j * (n * length moduli) + l * n) n
         = zip_with (fun a c => (a + c) mod value (moduli !!! l))
             (noise_limb is_ntt (tables !!! l) (read_block e (l * n) n))
             (product_limb is_ntt (moduli !!! l) (tables !!! l)
                (ntt_negacyclic_harvey (tables !!! l) (read_block u (l * n) n))
                (read_block (ct_data (pk_data pk))
                   (ct_component (pk_data pk) j + l * n) n)).
Proof.
  intros cd n moduli tables size Hvalid Ht Hes.
  rewrite (encrypt_zero_asymmetric_unfold b g entropy pk context parms_id
             is_ntt destination u rng1 Hvalid Ht).
  fold cd n moduli tables size.
  set (dest0 := prepared destination context parms_id size is_ntt).
  pose proof (length_prepared destination context parms_id size is_ntt) as Hld.
  cbv zeta in Hld. fold cd n moduli dest0 in Hld.
  pose proof (length_sample_poly_ternary _ _ _ _ _ _ Ht) as Hlu.
  unfold allocate_poly in Hlu. rewrite length_replicate in Hlu.
  pose proof (length_noise_sequence _ _ _ _ _ _ _ Hes) as Hles.
  assert (HD : (ct_poly_modulus_degree dest0 * ct_coeff_modulus_size dest0)%nat
               = (n * length moduli)%nat) by reflexivity.
  destruct (asymmetric_limbs_spec (length moduli) 0 n size is_ntt moduli
              tables (pk_data pk) dest0 u (ct_data dest0))
    as (Hlu1 & Hlm1 & Hblk1).
  { rewrite HD. lia. } { lia. } { rewrite HD. lia. }
  rewrite HD in Hblk1.
  destruct (asymmetric_limbs (length moduli) 0 n size is_ntt moduli tables
              (pk_data pk) dest0 u (ct_data dest0)) as [u1 m1].
  cbn [fst snd] in Hlu1, Hlm1, Hblk1. rewrite Hld in Hlm1. cbn [fst snd].
  pose proof (asymmetric_noise_spec size 0 b g (parms cd) is_ntt tables dest0
                rng1 u1 m1 HD) as Hn.
  cbv zeta in Hn. fold n moduli in Hn. rewrite HD in Hn.
  specialize (Hn ltac:(lia) ltac:(lia)). rewrite Hes in Hn.
  destruct Hn as (mem' & -> & Hlen & _ & Hblk).
  eexists. split; [reflexivity|]. split; [done|]. split; [done|].
  split; [done|]. split; [simpl; lia|]. split; [done|].
  intros j l e He Hl. cbv zeta. cbn [ct_data with_data fst snd].
  pose proof (lookup_lt_Some _ _ _ He) as Hj.
  pose proof (Hblk j l e He Hl) as Hjl. rewrite Nat.add_0_l in Hjl.
  by rewrite Hjl, (Hblk1 j l ltac:(lia) ltac:(lia)).
Qed.

(** X9.  When the ternary sampler delivers [u] and the noise sampler,
    called once per component on the same generator, delivers the
    polynomials [e_0, e_1, ...], [encrypt_zero_asymmetric] returns a
    ciphertext with as many components as the public key, the requested
    form and scale 1, in which limb [l] of component [j] is
    [NTT(u) * pk_j + NTT(e_j)] for NTT-form output and
    [INTT(NTT(u) * pk_j) + e_j] for non-NTT output, all pointwise modulo
    the limb's modulus. *)
Theorem encrypt_zero_asymmetric_components
    (b : build) (g : global_variables) (entropy : list byte)
    (pk : PublicKey) (context : SEALContext) (parms_id : parms_id_type)
    (is_ntt : bool) (destination : Ciphertext)
    (u : list Z) (rng1 : list byte) (es : list (list Z)) (rng2 : list byte) :
  let cd := get_context_data context parms_id in
  let n := poly_modulus_degree (parms cd) in
  let moduli := coeff_modulus (parms cd) in
  let tables := small_ntt_tables cd in
  let size := ct_size (pk_data pk) in
  SEAL_DEBUG b && negb (is_valid_for_public_key pk context) = false ->
  sample_poly_ternary entropy (parms cd) (allocate_poly n (length moduli)) 0
    = Ok (u, rng1) ->
  noise_sequence size b g (parms cd) rng1 = Ok (es, rng2) ->
  exists ct,
    encrypt_zero_asymmetric b g entropy pk context parms_id is_ntt destination
      = (Returned, ct)
    /\ ct_size ct = size /\ is_ntt_form ct = is_ntt /\ scale ct = 1%Q
    /\ length (ct_data ct) = (size * (n * length moduli))%nat
    /\ length es = size
    /\ forall j l e, es !! j = Some e -> (l < length moduli)%nat ->
         let q := value (moduli !!! l) in
         let t := tables !!! l in
         let add x y := zip_with (fun a c => (a + c) mod q) x y in
         let mul x y := zip_with (fun a c => (a * c) mod q) x y in
         let u_l := ntt_negacyclic_harvey t (read_block u (l * n) n) in
         let e_l := read_block e (l * n) n in
         let pk_l := read_block (ct_data (pk_data pk))
                       (ct_component (pk_data pk) j + l * n) n in
         read_block (ct_data ct) (j * (n * length moduli) + l * n) n
         = if is_ntt
           then add (ntt_negacyclic_harvey t e_l) (mul u_l pk_l)
           else add e_l (inverse_ntt_negacyclic_harvey t (mul u_l pk_l)).
Proof.
  intros cd n moduli tables size Hvalid Ht Hes.
  destruct (encrypt_zero_asymmetric_returns b g entropy pk context parms_id
              is_ntt destination u rng1 es rng2 Hvalid Ht Hes)
    as (ct & Hrun & Hsize & Hform & Hscale & Hlen & Hles & Hblk).
  exists ct. repeat (split; [done|]).
  intros j l e He Hl. cbv zeta. subst cd n moduli tables size.
  rewrite (Hblk j l e He Hl). unfold noise_limb, product_limb.
  by destruct is_ntt.
Qed.

(** X10.  When the binomial sampler rejects the configured deviation and
    the public key has at least one component, [encrypt_zero_asymmetric]
    throws in the first turn of the noise loop, after every product has
    been stored: the destination is left with all its components holding
    the products of [u] with the public key and no noise. *)
Theorem encrypt_zero_asymmetric_throw_leaves_products
    (b : build) (g : global_variables) (entropy : list byte)
    (pk : PublicKey) (context : SEALContext) (parms_id : parms_id_type)
    (is_ntt : bool) (destination : Ciphertext)
    (u : list Z) (rng1 : list byte) :
  let cd := get_context_data context parms_id in
  let n := poly_modulus_degree (parms cd) in
  let moduli := coeff_modulus (parms cd) in
  let tables := small_ntt_tables cd in
  let size := ct_size (pk_data pk) in
  SEAL_DEBUG b && negb (is_valid_for_public_key pk context) = false ->
  SEAL_USE_GAUSSIAN b = false ->
  are_close (noise_max_deviation g) 0 = false ->
  Qeq_bool (noise_standard_deviation g) double_3_2 = false ->
  (0 < size)%nat ->
  sample_poly_ternary entropy (parms cd) (allocate_poly n (length moduli)) 0
    = Ok (u, rng1) ->
  exists ct,
    encrypt_zero_asymmetric b g entropy pk context parms_id is_ntt destination
      = (Threw UnsupportedParameter, ct)
    /\ ct_size ct = size
    /\ forall j l, (j < size)%nat -> (l < length moduli)%nat ->
         let q := value (moduli !!! l) in
         let t := tables !!! l in
         let mul x y := zip_with (fun a c => (a * c) mod q) x y in
         let u_l := ntt_negacyclic_harvey t (read_block u (l * n) n) in
         let pk_l := read_block (ct_data (pk_data pk))
                       (ct_component (pk_data pk) j + l * n) n in
         read_block (ct_data ct) (j * (n * length moduli) + l * n) n
         = if is_ntt then mul u_l pk_l
           else inverse_ntt_negacyclic_harvey t (mul u_l pk_l).
Proof.
  intros cd n moduli tables size Hvalid Hb Hdev Hsd Hsize Ht.
  rewrite (encrypt_zero_asymmetric_unfold b g entropy pk context parms_id
             is_ntt destination u rng1 Hvalid Ht).
  fold cd n moduli tables size.
  set (dest0 := prepared destination context parms_id size is_ntt).
  pose proof (length_prepared destination context parms_id size is_ntt) as Hld.
  cbv zeta in Hld. fold cd n moduli dest0 in Hld.
  pose proof (length_sample_poly_ternary _ _ _ _ _ _ Ht) as Hlu.
  unfold allocate_poly in Hlu. rewrite length_replicate in Hlu.
  assert (HD : (ct_poly_modulus_degree dest0 * ct_coeff_modulus_size dest0)%nat
               = (n * length moduli)%nat) by reflexivity.
  destruct (asymmetric_limbs_spec (length moduli) 0 n size is_ntt moduli
              tables (pk_data pk) dest0 u (ct_data dest0))
    as (Hlu1 & Hlm1 & Hblk1).
  { rewrite HD. lia. } { lia. } { rewrite HD. lia. }
  rewrite HD in Hblk1.
  destruct (asymmetric_limbs (length moduli) 0 n size is_ntt moduli tables
              (pk_data pk) dest0 u (ct_data dest0)) as [u1 m1].
  cbn [fst snd] in Hlu1, Hlm1, Hblk1. rewrite Hld in Hlm1. cbn [fst snd].
  destruct size as [|size']; [lia|]. cbn [asymmetric_noise].
  rewrite sample_noise_throws by done. cbn [fst snd].
  eexists. split; [reflexivity|]. split; [done|].
  intros j l Hj Hl. cbv zeta. cbn [ct_data with_data fst snd].
  rewrite (Hblk1 j l Hj ltac:(lia)). unfold product_limb. by destruct is_ntt.
Qed.

Lemma asymmetric_noise_throw_config (count j : nat) (b : build)
    (g : global_variables) parms is_ntt tables destination rng u mem err mem' :
  asymmetric_noise count j b g parms is_ntt tables destination rng u mem
    = (Threw err, mem') ->
  SEAL_USE_GAUSSIAN b = false
  /\ are_close (noise_max_deviation g) 0 = false
  /\ Qeq_bool (noise_standard_deviation g) double_3_2 = false.
Proof.
  revert j rng u mem. induction count as [|count IH]; intros j rng u mem;
    simpl; [done|].
  destruct (sample_noise b g rng parms u 0) as [[u1 rng1]|e0|] eqn:Hn.
  - destruct (asymmetric_add_noise _ _ _ _ _ _ _ _ _ _) as [u2 mem2].
    apply IH.
  - intros _. by apply sample_noise_throw_inv in Hn as (_ & ? & ? & ?).
  - done.
Qed.

(** X11.  With keys that pass validation (or a build without the check)
    and a noise configuration the build's sampler accepts (the Gaussian
    sampler, a zero maximum deviation, or the deviation 3.2), neither
    generator throws, whatever the tapes, flags and destination. *)
Theorem generators_do_not_throw_when_configured
    (b : build) (g : global_variables) (entropy : list byte)
    (sk : SecretKey) (pk : PublicKey) (context : SEALContext)
    (parms_id : parms_id_type) (is_ntt save_seed : bool)
    (destination : Ciphertext) (err : exception) :
  SEAL_USE_GAUSSIAN b = true
  \/ are_close (noise_max_deviation g) 0 = true
  \/ Qeq_bool (noise_standard_deviation g) double_3_2 = true ->
  (SEAL_DEBUG b && negb (is_valid_for_secret_key sk context) = false ->
   (encrypt_zero_symmetric b g entropy sk context parms_id is_ntt save_seed
      destination).1 <> Threw err)
  /\ (SEAL_DEBUG b && negb (is_valid_for_public_key pk context) = false ->
      (encrypt_zero_asymmetric b g entropy pk context parms_id is_ntt
         destination).1 <> Threw err).
Proof.
  intros Hcfg.
  assert (Hno : ~ (SEAL_USE_GAUSSIAN b = false
                   /\ are_close (noise_max_deviation g) 0 = false
                   /\ Qeq_bool (noise_standard_deviation g) double_3_2 = false)).
  { intros (H1 & H2 & H3). destruct Hcfg as [?|[?|?]]; congruence. }
  split; intros Hvalid.
  - rewrite encrypt_zero_symmetric_unfold by done. cbv zeta.
    destruct (generate _ entropy) as [[seed_bytes boot]|]; [|done].
    destruct (uniform_values _ _ _) as [[a rng_a]|]; [|done].
    destruct (sample_noise _ _ _ _ _ _) as [[e boot']|e0|] eqn:Hn; [done| |done].
    apply sample_noise_throw_inv in Hn as (_ & ? & ? & ?). by destruct Hno.
  - unfold encrypt_zero_asymmetric. rewrite Hvalid.
    destruct (sample_poly_ternary _ _ _ _) as [[u rng]|e0|] eqn:Ht.
    + destruct (asymmetric_limbs _ _ _ _ _ _ _ _ _ _ _) as [u1 mem1].
      destruct (asymmetric_noise _ _ _ _ _ _ _ _ _ _ _) as [o mem2] eqn:Han.
      simpl. intros ->.
      apply asymmetric_noise_throw_config in Han. by destruct Hno.
    + unfold sample_poly_ternary in Ht.
      by destruct (iterate_coeffs _ _ _ _ _ _ _ _) as [[m r]|].
    + done.
Qed.

End AsymmetricRun.

(** * The two generators together *)

Lemma length_zip_with_same (f : Z -> Z -> Z) (A B : list Z) (n : nat) :
  length A = n -> length B = n -> length (zip_with f A B) = n.
Proof. intros HA HB. rewrite length_zip_with_l_eq; congruence. Qed.

Lemma zip_with_total (f : Z -> Z -> Z) (A B : list Z) (n x : nat) :
  length A = n -> length B = n -> (x < n)%nat ->
  zip_with f A B !!! x = f (A !!! x) (B !!! x).
Proof.
  intros HA HB Hx.
  destruct (lookup_lt_is_Some_2 A x ltac:(lia)) as [a Ha].
  destruct (lookup_lt_is_Some_2 B x ltac:(lia)) as [c Hc].
  rewrite (list_lookup_total_correct _ _ _ Ha), (list_lookup_total_correct _ _ _ Hc).
  apply list_lookup_total_correct. rewrite lookup_zip_with, Ha, Hc. done.
Qed.

Lemma fmap_total (f : Z -> Z) (A : list Z) (n x : nat) :
  length A = n -> (x < n)%nat -> (f <$> A) !!! x = f (A !!! x).
Proof.
  intros HA Hx. destruct (lookup_lt_is_Some_2 A x ltac:(lia)) as [a Ha].
  rewrite (list_lookup_total_correct _ _ _ Ha).
  apply list_lookup_total_correct. by rewrite list_lookup_fmap, Ha.
Qed.

#[local] Existing Instances eqm_setoid Zplus_eqm Zminus_eqm Zmult_eqm Zopp_eqm.

(** The arithmetic of one coefficient. *)
Lemma decrypt_coefficient (q s a U E0 E1 Epk : Z) :
  let P0 := (- ((Epk + (s * a) mod q) mod q)) mod q in
  let c0 := (E0 + (U * P0) mod q) mod q in
  let c1 := (E1 + (U * a) mod q) mod q in
  (c0 + s * c1) mod q = (E0 + s * E1 - U * Epk) mod q.
Proof.
  intros P0 c0 c1. change (eqm q (c0 + s * c1) (E0 + s * E1 - U * Epk)).
  unfold c0, c1, P0. repeat setoid_rewrite (Zmod_eqm q).
  unfold eqm. f_equal. ring.
Qed.

Section Together.
Context `{Collaborators}.

(** X12.  The two generators fit together: the key terms of a
    public-key encryption of zero cancel in the transform domain.  Let
    the public key be an NTT-form, uncompressed encryption of zero that
    [encrypt_zero_symmetric] made under the secret key [s] with noise
    [e_pk], and let [encrypt_zero_asymmetric] return an NTT-form
    ciphertext [(c0, c1)] under that public key, having drawn [u], [e0]
    and [e1].  Then the ciphertext has two components and, position by
    position in every limb and modulo the limb's modulus,
    [c0 + s * c1 = NTT(e0) + s * NTT(e1) - NTT(u) * NTT(e_pk)], where
    [NTT] is the forward transform of the limb and [*] the product of
    the words at one position: the uniform sample of the public key does
    not occur on the right.  This is a congruence between transformed
    polynomials; it says nothing about the size of either side. *)
Theorem encrypt_zero_asymmetric_key_terms_cancel
    (b : build) (g : global_variables) (context : SEALContext)
    (parms_id : parms_id_type) (sk : SecretKey)
    (entropy_pk : list byte) (destination_pk : Ciphertext)
    (seed_bytes boot : list byte) (a : list Z) (rng_a : list byte)
    (e_pk : list Z) (boot' : list byte) (pkct : Ciphertext)
    (entropy : list byte) (destination : Ciphertext)
    (u : list Z) (rng1 : list byte) (e0 e1 : list Z) (rng2 : list byte) :
  let cd := get_context_data context parms_id in
  let n := poly_modulus_degree (parms cd) in
  let moduli := coeff_modulus (parms cd) in
  let tables := small_ntt_tables cd in
  let c1 := (n * length moduli)%nat in
  let pk := {| pk_data := pkct |} in
  SEAL_DEBUG b && negb (is_valid_for_secret_key sk context) = false ->
  generate (8 * prng_seed_uint64_count) entropy_pk = Some (seed_bytes, boot) ->
  sample_poly_uniform
    (blake_prng (seed_words prng_seed_uint64_count seed_bytes)) (parms cd)
    (replicate c1 0) 0 = Ok (a, rng_a) ->
  sample_noise b g boot (parms cd) (allocate_poly n (length moduli)) 0
    = Ok (e_pk, boot') ->
  encrypt_zero_symmetric b g entropy_pk sk context parms_id true false
    destination_pk = (Returned, pkct) ->
  SEAL_DEBUG b && negb (is_valid_for_public_key pk context) = false ->
  sample_poly_ternary entropy (parms cd) (allocate_poly n (length moduli)) 0
    = Ok (u, rng1) ->
  noise_sequence 2 b g (parms cd) rng1 = Ok ([e0; e1], rng2) ->
  exists ct,
    encrypt_zero_asymmetric b g entropy pk context parms_id true destination
      = (Returned, ct)
    /\ ct_size ct = 2%nat
    /\ forall l x, (l < length moduli)%nat -> (x < n)%nat ->
         let q := value (moduli !!! l) in
         let t := tables !!! l in
         let at_x (p : list Z) := p !!! x in
         let s := at_x (read_block (sk_data sk) (l * n) n) in
         let c0_x := at_x (read_block (ct_data ct) (l * n) n) in
         let c1_x := at_x (read_block (ct_data ct) (c1 + l * n) n) in
         let U := at_x (ntt_negacyclic_harvey t (read_block u (l * n) n)) in
         let E0 := at_x (ntt_negacyclic_harvey t (read_block e0 (l * n) n)) in
         let E1 := at_x (ntt_negacyclic_harvey t (read_block e1 (l * n) n)) in
         let Epk := at_x (ntt_negacyclic_harvey t (read_block e_pk (l * n) n)) in
         (c0_x + s * c1_x) mod q = (E0 + s * E1 - U * Epk) mod q.
Proof.
  intros cd n moduli tables c1 pk Hvsk Hgen Hu Hnoise Hpk Hvpk Ht Hes.
  apply sample_poly_uniform_fresh in Hu.
  destruct (encrypt_zero_symmetric_returns b g entropy_pk sk context parms_id
              true false destination_pk seed_bytes boot a rng_a e_pk boot'
              Hvsk Hgen Hu Hnoise)
    as (ct0 & Hrun0 & (Hsize & _ & _ & _ & Hdeg & Hk) & _ & Hp0 & Hp1 & _).
  rewrite Hpk in Hrun0. injection Hrun0 as <-.
  fold cd n moduli tables c1 in Hdeg, Hk, Hp0, Hp1.
  specialize (Hp1 eq_refl).
  assert (Hcomp : forall j, ct_component pkct j = (j * c1)%nat).
  { intros j. unfold ct_component. by rewrite Hdeg, Hk. }
  destruct (encrypt_zero_asymmetric_returns b g entropy pk context parms_id
              true destination u rng1 [e0; e1] rng2 Hvpk Ht)
    as (ct & Hrun & Hcs & _ & _ & _ & _ & Hblk).
  { cbn [pk_data pk]. by rewrite Hsize. }
  fold cd n moduli tables c1 in Hblk. cbn [pk_data pk] in Hblk, Hcs.
  exists ct. split; [done|]. split; [congruence|].
  intros l x Hl Hx. cbv zeta.
  pose proof (Hblk 0%nat l e0 eq_refl Hl) as H0.
  pose proof (Hblk 1%nat l e1 eq_refl Hl) as H1.
  rewrite !Hcomp in H0, H1. rewrite Nat.mul_0_l, Nat.add_0_l in H0.
  rewrite Nat.mul_1_l in H1.
  rewrite (Hp0 l Hl) in H0. rewrite (Hp1 l Hl) in H1.
  rewrite H0, H1. unfold noise_limb, product_limb, c0_limb, working_limb.
  simpl.
  set (q := value (moduli !!! l)). set (t := tables !!! l).
  set (s_l := read_block (sk_data sk) (l * n) n).
  set (a_l := read_block a (l * n) n).
  set (U_l := ntt_negacyclic_harvey t (read_block u (l * n) n)).
  set (E0_l := ntt_negacyclic_harvey t (read_block e0 (l * n) n)).
  set (E1_l := ntt_negacyclic_harvey t (read_block e1 (l * n) n)).
  set (Epk_l := ntt_negacyclic_harvey t (read_block e_pk (l * n) n)).
  assert (Hls : length s_l = n) by apply length_read_block.
  assert (Hla : length a_l = n) by apply length_read_block.
  assert (HlU : length U_l = n)
    by (unfold U_l; by rewrite ntt_length, length_read_block).
  assert (HlE0 : length E0_l = n)
    by (unfold E0_l; by rewrite ntt_length, length_read_block).
  assert (HlE1 : length E1_l = n)
    by (unfold E1_l; by rewrite ntt_length, length_read_block).
  assert (HlEpk : length Epk_l = n)
    by (unfold Epk_l; by rewrite ntt_length, length_read_block).
  assert (Hlsa : length (zip_with (fun x y => (x * y) mod q) s_l a_l) = n)
    by (by apply length_zip_with_same).
  assert (Hlsum : length (zip_with (fun x y => (x + y) mod q) Epk_l
                            (zip_with (fun x y => (x * y) mod q) s_l a_l)) = n)
    by (by apply length_zip_with_same).
  assert (Hlneg : length ((fun x => (- x) mod q)
                            <$> zip_with (fun x y => (x + y) mod q) Epk_l
                                  (zip_with (fun x y => (x * y) mod q) s_l a_l))
                  = n) by (by rewrite length_fmap).
  rewrite (zip_with_total _ E0_l _ n x), (zip_with_total _ U_l _ n x),
    (fmap_total _ _ n x), (zip_with_total _ Epk_l _ n x),
    (zip_with_total _ s_l a_l n x), (zip_with_total _ E1_l _ n x),
    (zip_with_total _ U_l a_l n x);
    try done; try (by apply length_zip_with_same).
  apply decrypt_coefficient.
Qed.

End Together.

(** ** The further properties applied to the scenario *)

Section FurtherWitnesses.
Import Reference Scenario.

(** A buffer of twenty words with the polynomial at offset 2. *)
Definition cbd_at_two : list Z * list byte :=
  ok_value ([], [])
    (sample_poly_cbd globals (drop 64 entropy) parms_8x2 (replicate 20 9) 2).

Lemma cbd_at_two_ok :
  sample_poly_cbd globals (drop 64 entropy) parms_8x2 (replicate 20 9) 2
  = Ok (cbd_at_two.1, cbd_at_two.2).
Proof. vm_compute. reflexivity. Defined.

Lemma strided_samplers_write_inside_window_witness :
  sample_poly_cbd globals (drop 64 entropy) parms_8x2 (replicate 20 9) 2
    = Ok (cbd_at_two.1, cbd_at_two.2)
  /\ length cbd_at_two.1 = 20%nat
  /\ cbd_at_two.1 !! 1%nat = Some 9
  /\ cbd_at_two.1 !! 18%nat = Some 9.
Proof.
  split; [exact cbd_at_two_ok|].
  destruct (strided_samplers_write_inside_window (H := collaborators) globals (drop 64 entropy)
              parms_8x2 (replicate 20 9) 2 cbd_at_two.1 cbd_at_two.2
              (or_intror (or_intror cbd_at_two_ok))) as [Hlen Hout].
  split; [exact Hlen|]. split.
  - exact (Hout 1%nat ltac:(left; lia)).
  - exact (Hout 18%nat ltac:(right; simpl; lia)).
Defined.

(** Deviation 1 with a zero maximum deviation. *)
Definition globals_no_noise : global_variables :=
  {| noise_standard_deviation := 1; noise_max_deviation := 0 |}.

Lemma noise_samplers_zero_deviation_witness :
  are_close (noise_max_deviation globals_no_noise) 0 = true
  /\ exists mem',
       sample_poly_normal globals_no_noise entropy parms_8x2 (replicate 16 7) 0
         = Ok (mem', entropy)
       /\ sample_poly_cbd globals_no_noise entropy parms_8x2 (replicate 16 7) 0
          = Ok (mem', entropy)
       /\ read_block mem' 0 16 = replicate 16 0.
Proof.
  split; [reflexivity|].
  exact (noise_samplers_zero_deviation (H := collaborators) globals_no_noise entropy parms_8x2
           (replicate 16 7) 0 eq_refl ltac:(simpl; lia)).
Defined.

Lemma scenario_moduli_above_21 :
  Forall (fun q => 21 < value q < 2 ^ 64) (coeff_modulus parms_8x2).
Proof. repeat constructor; simpl; lia. Defined.

Lemma sample_poly_cbd_stores_residues_witness :
  cbd_active globals
  /\ Forall (fun q => 21 < value q < 2 ^ 64) (coeff_modulus parms_8x2)
  /\ exists mem',
       sample_poly_cbd globals (drop 64 entropy) parms_8x2 (replicate 16 0) 0
       = Ok (mem', noise_draws.2).
Proof.
  split; [exact scenario_cbd_active|]. split; [exact scenario_moduli_above_21|].
  pose proof (sample_poly_cbd_stores_residues globals (drop 64 entropy)
                parms_8x2 (replicate 16 0) 0 scenario_cbd_active
                scenario_moduli_above_21 scenario_fits) as T.
  cbv zeta in T. rewrite noise_draws_ok in T.
  destruct T as (mem' & Hs & _). exists mem'. exact Hs.
Defined.

Definition normal_draws : list Z * list byte :=
  default ([], []) (draws (clipped_normal globals) 8 ternary_tape).

Lemma normal_draws_ok :
  draws (clipped_normal globals) (poly_modulus_degree parms_8x2) ternary_tape
  = Some (normal_draws.1, normal_draws.2).
Proof. vm_compute. reflexivity. Defined.

Lemma sample_poly_normal_stores_residues_witness :
  are_close (noise_max_deviation globals) 0 = false
  /\ Forall (fun q => 0 < value q < 2 ^ 64) (coeff_modulus parms_8x2)
  /\ exists mem',
       sample_poly_normal globals ternary_tape parms_8x2 (replicate 16 0) 0
       = Ok (mem', normal_draws.2)
       /\ length normal_draws.1 = 8%nat.
Proof.
  split; [reflexivity|]. split; [exact scenario_moduli_positive|].
  pose proof (sample_poly_normal_stores_residues (H := collaborators) globals ternary_tape
                parms_8x2 (replicate 16 0) 0 eq_refl scenario_moduli_positive
                scenario_fits) as T.
  cbv zeta in T. rewrite normal_draws_ok in T.
  destruct T as (mem' & Hs & Hl & _). exists mem'. split; [exact Hs|exact Hl].
Defined.

Lemma scenario_moduli_nonzero :
  Forall (fun q => 0 < value q) (coeff_modulus parms_8x2).
Proof. repeat constructor; simpl; lia. Defined.

Lemma sample_poly_uniform_residues_and_tape_witness :
  Forall (fun q => 0 < value q) (coeff_modulus parms_8x2)
  /\ sample_poly_uniform (prng seed) parms_8x2 (replicate 16 0) 0
     = Ok (sampled.1, sampled.2)
  /\ length sampled.1 = 16%nat
  /\ exists draws64,
       (16 <= draws64)%nat /\ sampled.2 = drop (8 * draws64) (prng seed).
Proof.
  split; [exact scenario_moduli_nonzero|]. split; [exact sampled_ok|].
  destruct (sample_poly_uniform_residues_and_tape (prng seed) parms_8x2
              (replicate 16 0) 0 sampled.1 sampled.2 scenario_moduli_nonzero
              scenario_fits sampled_ok) as (Hlen & _ & _ & d & Hd & _ & Htape).
  split; [exact Hlen|]. exists d. split; [exact Hd|exact Htape].
Defined.

Lemma encrypt_zero_symmetric_uncompressed_decrypts_to_noise_witness :
  seed_fits false 16 = false
  /\ exists ct, run true false = (Returned, ct).
Proof.
  split; [reflexivity|].
  destruct (encrypt_zero_symmetric_uncompressed_decrypts_to_noise (H := collaborators) release
              globals entropy secret_key context 0%nat true false
              empty_ciphertext (take 64 entropy) (drop 64 entropy) sampled.1
              sampled.2 noise.1 noise.2 eq_refl eq_refl scenario_generate
              sampled_ok noise_ok) as (ct & Hrun & _).
  exists ct. exact Hrun.
Defined.

Lemma encrypt_zero_symmetric_compressed_expands_witness :
  seed_fits true 16 = true
  /\ exists ct,
       run false true = (Returned, ct)
       /\ ct_data ct !! 16%nat = Some (2 ^ 64 - 1).
Proof.
  split; [reflexivity|].
  destruct (encrypt_zero_symmetric_compressed_expands (H := collaborators) release
              globals entropy secret_key context 0%nat false true
              empty_ciphertext (take 64 entropy) (drop 64 entropy) sampled.1
              sampled.2 noise.1 noise.2 eq_refl eq_refl scenario_generate
              sampled_ok noise_ok) as (ct & Hrun & Hmark & _).
  exists ct. split; [exact Hrun|exact Hmark].
Defined.

Lemma scenario_room :
  (prng_seed_uint64_count + 1
   <= poly_modulus_degree parms_8x2 * length (coeff_modulus parms_8x2))%nat.
Proof. simpl. lia. Defined.

Lemma encrypt_zero_symmetric_ntt_compression_lossless_witness :
  (8 + 1 <= 16)%nat
  /\ exists packed plain,
       run true true = (Returned, packed)
       /\ run true false = (Returned, plain)
       /\ read_block (ct_data packed) 0 8 = read_block (ct_data plain) 0 8.
Proof.
  split; [lia|].
  destruct (encrypt_zero_symmetric_ntt_compression_lossless (H := collaborators) release
              globals entropy secret_key context 0%nat
              empty_ciphertext (take 64 entropy) (drop 64 entropy) sampled.1
              sampled.2 noise.1 noise.2 scenario_room eq_refl
              scenario_generate sampled_ok noise_ok)
    as (packed & plain & re & rest & Hp & Hq & _ & Hl).
  exists packed, plain. split; [exact Hp|]. split; [exact Hq|].
  exact (proj1 (Hl 0%nat ltac:(simpl; lia))).
Defined.

(** The asymmetric run of the scenario. *)
Definition asym_u : list Z * list byte :=
  ok_value ([], [])
    (sample_poly_ternary entropy parms_8x2 (allocate_poly 8 2) 0).

Lemma asym_u_ok :
  sample_poly_ternary entropy parms_8x2 (allocate_poly 8 2) 0
  = Ok (asym_u.1, asym_u.2).
Proof. vm_compute. reflexivity. Defined.

Definition asym_noise : list (list Z) * list byte :=
  ok_value ([], []) (noise_sequence 2 release globals parms_8x2 asym_u.2).

Lemma public_key_size : ct_size (pk_data public_key) = 2%nat.
Proof. vm_compute. reflexivity. Defined.

Lemma asym_noise_ok :
  noise_sequence (ct_size (pk_data public_key)) release globals parms_8x2
    asym_u.2
  = Ok (asym_noise.1, asym_noise.2).
Proof. vm_compute. reflexivity. Defined.

Lemma encrypt_zero_asymmetric_components_witness :
  sample_poly_ternary entropy parms_8x2 (allocate_poly 8 2) 0
    = Ok (asym_u.1, asym_u.2)
  /\ exists ct,
       run_asymmetric globals = (Returned, ct)
       /\ ct_size ct = 2%nat
       /\ length (ct_data ct) = 32%nat.
Proof.
  split; [exact asym_u_ok|].
  destruct (encrypt_zero_asymmetric_components (H := collaborators) release globals entropy
              public_key context 0%nat true empty_ciphertext asym_u.1 asym_u.2
              asym_noise.1 asym_noise.2 eq_refl asym_u_ok asym_noise_ok)
    as (ct & Hrun & Hsize & _ & _ & Hlen & _).
  exists ct. split; [exact Hrun|].
  rewrite public_key_size in Hsize, Hlen. split; [exact Hsize|exact Hlen].
Defined.

Lemma encrypt_zero_asymmetric_throw_leaves_products_witness :
  (0 < ct_size (pk_data public_key))%nat
  /\ exists ct,
       run_asymmetric globals_unsupported = (Threw UnsupportedParameter, ct)
       /\ ct_size ct = 2%nat.
Proof.
  assert (Hpos : (0 < ct_size (pk_data public_key))%nat)
    by (rewrite public_key_size; lia).
  split; [exact Hpos|].
  destruct (encrypt_zero_asymmetric_throw_leaves_products (H := collaborators) release
              globals_unsupported entropy public_key context 0%nat true
              empty_ciphertext asym_u.1 asym_u.2 eq_refl eq_refl eq_refl
              eq_refl Hpos asym_u_ok) as (ct & Hrun & Hsize & _).
  exists ct. split; [exact Hrun|]. rewrite public_key_size in Hsize.
  exact Hsize.
Defined.

Lemma generators_do_not_throw_when_configured_witness :
  Qeq_bool (noise_standard_deviation globals) double_3_2 = true
  /\ (run true true).1 <> Threw UnsupportedParameter
  /\ (run_asymmetric globals).1 <> Threw UnsupportedParameter.
Proof.
  split; [reflexivity|].
  destruct (generators_do_not_throw_when_configured (H := collaborators) release globals entropy
              secret_key public_key context 0%nat true true empty_ciphertext
              UnsupportedParameter (or_intror (or_intror eq_refl)))
    as [Hsym Hasym].
  split; [exact (Hsym eq_refl)|exact (Hasym eq_refl)].
Defined.

Lemma public_key_is_a_symmetric_run :
  encrypt_zero_symmetric release globals entropy secret_key context 0%nat
    true false empty_ciphertext = (Returned, pk_data public_key).
Proof. vm_compute. reflexivity. Defined.

Definition asym_e0 : list Z := nth 0 asym_noise.1 [].
Definition asym_e1 : list Z := nth 1 asym_noise.1 [].

Lemma asym_noise_pair :
  noise_sequence 2 release globals parms_8x2 asym_u.2
  = Ok ([asym_e0; asym_e1], asym_noise.2).
Proof. vm_compute. reflexivity. Defined.

Lemma encrypt_zero_asymmetric_key_terms_cancel_witness :
  encrypt_zero_symmetric release globals entropy secret_key context 0%nat
    true false empty_ciphertext = (Returned, pk_data public_key)
  /\ noise_sequence 2 release globals parms_8x2 asym_u.2
     = Ok ([asym_e0; asym_e1], asym_noise.2)
  /\ exists ct,
       run_asymmetric globals = (Returned, ct) /\ ct_size ct = 2%nat.
Proof.
  split; [exact public_key_is_a_symmetric_run|].
  split; [exact asym_noise_pair|].
  destruct (encrypt_zero_asymmetric_key_terms_cancel (H := collaborators) release globals context
              0%nat secret_key entropy empty_ciphertext (take 64 entropy)
              (drop 64 entropy) sampled.1 sampled.2 noise.1 noise.2
              (pk_data public_key) entropy empty_ciphertext asym_u.1 asym_u.2
              asym_e0 asym_e1 asym_noise.2 eq_refl scenario_generate
              sampled_ok noise_ok public_key_is_a_symmetric_run eq_refl
              asym_u_ok asym_noise_pair) as (ct & Hrun & Hsize & _).
  exists ct. split; [exact Hrun|exact Hsize].
Defined.

End FurtherWitnesses.

(** * A returning run overwrites the whole destination *)

Lemma lookup_of_read_block_eq (A B : list Z) (p n x : nat) :
  read_block A p n = read_block B p n ->
  (p <= x < p + n)%nat -> (x < length A)%nat -> (x < length B)%nat ->
  A !! x = B !! x.
Proof.
  intros Heq Hx HA HB.
  pose proof (lookup_read_block A p n (x - p) ltac:(lia)) as H1.
  pose proof (lookup_read_block B p n (x - p) ltac:(lia)) as H2.
  rewrite Heq, H2 in H1. injection H1 as H1.
  replace (p + (x - p))%nat with x in H1 by lia.
  destruct (lookup_lt_is_Some_2 A x HA) as [a Ha].
  destruct (lookup_lt_is_Some_2 B x HB) as [c Hc].
  rewrite (list_lookup_total_correct _ _ _ Ha),
    (list_lookup_total_correct _ _ _ Hc) in H1.
  congruence.
Qed.

(** Buffers of one length that agree limb by limb agree on the limbs. *)
Lemma lookup_of_limbs_eq (A B : list Z) (base n k x : nat) :
  (forall l, (l < k)%nat ->
     read_block A (base + l * n) n = read_block B (base + l * n) n) ->
  (base <= x < base + k * n)%nat -> length A = length B ->
  A !! x = B !! x.
Proof.
  intros Hlimbs Hx Hlen.
  destruct (decide (x < length A)%nat) as [HA|HA];
    [|rewrite !lookup_ge_None_2; [done|lia..]].
  assert (Hn : (0 < n)%nat) by nia.
  pose proof (Nat.div_mod (x - base) n ltac:(lia)) as Hdm.
  pose proof (Nat.mod_upper_bound (x - base) n ltac:(lia)) as Hm.
  assert (Hl : ((x - base) / n < k)%nat)
    by (apply Nat.Div0.div_lt_upper_bound; nia).
  apply (lookup_of_read_block_eq A B (base + (x - base) / n * n) n);
    [by apply Hlimbs|nia|done|lia].
Qed.

Section Overwrite.
Context `{Collaborators}.

Lemma at_return_tail (is_ntt : bool) (n : nat) (moduli : list Modulus)
    (tables : list NTTTables) (sk : SecretKey) (seed data0 a e : list Z) :
  let c1 := (n * length moduli)%nat in
  length data0 = (2 * c1)%nat -> length a = c1 -> length e = c1 ->
  forall x, (c1 + length seed + 1 <= x)%nat ->
    at_return is_ntt true n moduli tables sk seed data0 a e !! x
    = after_sampling is_ntt true n moduli tables data0 a !! x.
Proof.
  intros c1 Hdata0 Ha He x Hx.
  destruct (after_sampling_spec is_ntt true n moduli tables data0 a Hdata0 Ha)
    as (Hlw & _ & _).
  unfold at_return. fold c1.
  set (mw := after_sampling is_ntt true n moduli tables data0 a) in *.
  destruct (symmetric_limbs_spec (length moduli) 0 n is_ntt moduli tables sk
              0 c1 e mw) as (_ & Ho2 & _);
    [unfold c1; nia|rewrite Hlw; unfold c1; nia|rewrite He; unfold c1; nia|].
  rewrite andb_false_r. rewrite lookup_write_block_out by lia.
  rewrite list_lookup_insert_ne by lia. apply Ho2. unfold c1 in *. nia.
Qed.

(** The buffer at the return does not depend on what the resized buffer
    held. *)
Lemma at_return_overwrites (is_ntt compress : bool) (n : nat)
    (moduli : list Modulus) (tables : list NTTTables) (sk : SecretKey)
    (seed data0 data0' a e : list Z) :
  let c1 := (n * length moduli)%nat in
  length data0 = (2 * c1)%nat -> length data0' = (2 * c1)%nat ->
  length a = c1 -> length e = c1 ->
  length seed = prng_seed_uint64_count ->
  (compress = true -> (prng_seed_uint64_count + 1 <= c1)%nat) ->
  at_return is_ntt compress n moduli tables sk seed data0 a e
  = at_return is_ntt compress n moduli tables sk seed data0' a e.
Proof.
  intros c1 Hd Hd' Ha He Hseed Hroom.
  destruct (at_return_spec is_ntt compress n moduli tables sk seed data0 a e
              Hd Ha He Hseed Hroom) as (Hl & Hc0 & Hplain & Hpacked).
  destruct (at_return_spec is_ntt compress n moduli tables sk seed data0' a e
              Hd' Ha He Hseed Hroom) as (Hl' & Hc0' & Hplain' & Hpacked').
  fold c1 in Hl, Hl', Hplain, Hplain', Hpacked, Hpacked'.
  set (m := at_return is_ntt compress n moduli tables sk seed data0 a e) in *.
  set (m' := at_return is_ntt compress n moduli tables sk seed data0' a e) in *.
  apply list_eq. intros x.
  destruct (decide (x < c1)%nat) as [Hx0|Hx0].
  { apply (lookup_of_limbs_eq m m' 0 n (length moduli)); [|unfold c1 in *; lia|lia].
    intros l Hl0. simpl. by rewrite Hc0, Hc0'. }
  destruct (decide (x < 2 * c1)%nat) as [Hx1|Hx1];
    [|rewrite !lookup_ge_None_2; [done|lia..]].
  destruct compress eqn:Hc.
  - destruct (Hpacked eq_refl) as [Hmark Hwords].
    destruct (Hpacked' eq_refl) as [Hmark' Hwords'].
    destruct (decide (x = c1)) as [->|Hne]; [congruence|].
    destruct (decide (x < c1 + 1 + prng_seed_uint64_count)%nat) as [Hs|Hs].
    + apply (lookup_of_read_block_eq m m' (c1 + 1) prng_seed_uint64_count);
        [congruence|lia|lia|lia].
    + unfold m, m'. rewrite !at_return_tail by (try done; lia).
      destruct (after_sampling_spec is_ntt true n moduli tables data0 a Hd Ha)
        as (Hlw & _ & Hrw).
      destruct (after_sampling_spec is_ntt true n moduli tables data0' a Hd' Ha)
        as (Hlw' & _ & Hrw').
      apply (lookup_of_limbs_eq _ _ c1 n (length moduli));
        [|unfold c1 in *; lia|congruence].
      intros l Hl0. fold c1 in Hrw, Hrw'. by rewrite Hrw, Hrw'.
  - apply (lookup_of_limbs_eq m m' c1 n (length moduli));
      [|unfold c1 in *; lia|lia].
    intros l Hl0. by rewrite Hplain, Hplain'.
Qed.

(** X13.  What a returning [encrypt_zero_symmetric] leaves in the
    destination does not depend on what the destination held before the
    call: two calls that differ in the destination only return the same
    ciphertext, word for word and field for field. *)
Theorem encrypt_zero_symmetric_overwrites_destination
    (b : build) (g : global_variables) (entropy : list byte)
    (sk : SecretKey) (context : SEALContext) (parms_id : parms_id_type)
    (is_ntt save_seed : bool) (destination destination' : Ciphertext)
    (ct : Ciphertext) :
  encrypt_zero_symmetric b g entropy sk context parms_id is_ntt save_seed
    destination = (Returned, ct) ->
  encrypt_zero_symmetric b g entropy sk context parms_id is_ntt save_seed
    destination' = (Returned, ct).
Proof.
  intros Hrun.
  destruct (SEAL_DEBUG b && negb (is_valid_for_secret_key sk context))
    eqn:Hvalid.
  { unfold encrypt_zero_symmetric in Hrun. by rewrite Hvalid in Hrun. }
  rewrite encrypt_zero_symmetric_unfold in Hrun |- * by done.
  cbv zeta in Hrun |- *.
  destruct (generate _ entropy) as [[seed_bytes boot]|]; [|done].
  destruct (uniform_values _ _ _) as [[a rng_a]|] eqn:Hu; [|done].
  destruct (sample_noise _ _ _ _ _ _) as [[e boot']| |] eqn:Hn; [|done..].
  injection Hrun as <-. f_equal.
  pose proof (length_uniform_values _ _ _ _ _ Hu) as Hla.
  pose proof (length_sample_noise _ _ _ _ _ _ _ _ Hn) as Hle.
  unfold allocate_poly in Hle. rewrite length_replicate in Hle.
  pose proof (length_prepared destination context parms_id 2 is_ntt) as Hld.
  pose proof (length_prepared destination' context parms_id 2 is_ntt) as Hld'.
  cbv zeta in Hld, Hld'.
  rewrite (at_return_overwrites is_ntt _ _ _ _ sk _
             (ct_data (prepared destination' context parms_id 2 is_ntt))
             (ct_data (prepared destination context parms_id 2 is_ntt)) a e);
    try done.
  - rewrite Hla. lia.
  - apply length_seed_words.
  - intros Hc. by apply seed_fits_true in Hc as [_ Hc].
Qed.

End Overwrite.

Section OverwriteAsymmetric.
Context `{Collaborators}.

(** How a call ends once the ternary sampler has delivered [u]: as the
    noise sampler's calls end. *)
Lemma encrypt_zero_asymmetric_outcome
    (b : build) (g : global_variables) (entropy : list byte)
    (pk : PublicKey) (context : SEALContext) (parms_id : parms_id_type)
    (is_ntt : bool) (destination : Ciphertext)
    (u : list Z) (rng1 : list byte) :
  let cd := get_context_data context parms_id in
  let n := poly_modulus_degree (parms cd) in
  let moduli := coeff_modulus (parms cd) in
  let size := ct_size (pk_data pk) in
  SEAL_DEBUG b && negb (is_valid_for_public_key pk context) = false ->
  sample_poly_ternary entropy (parms cd) (allocate_poly n (length moduli)) 0
    = Ok (u, rng1) ->
  (encrypt_zero_asymmetric b g entropy pk context parms_id is_ntt
     destination).1
  = match noise_sequence size b g (parms cd) rng1 with
    | Ok _ => Returned
    | Throw x => Threw x
    | Starved => Ran_dry
    end.
Proof.
  intros cd n moduli size Hvalid Ht.
  rewrite (encrypt_zero_asymmetric_unfold b g entropy pk context parms_id
             is_ntt destination u rng1 Hvalid Ht).
  fold cd n moduli size.
  set (tables := small_ntt_tables cd).
  set (dest0 := prepared destination context parms_id size is_ntt).
  pose proof (length_prepared destination context parms_id size is_ntt) as Hld.
  cbv zeta in Hld. fold cd n moduli dest0 in Hld.
  pose proof (length_sample_poly_ternary _ _ _ _ _ _ Ht) as Hlu.
  unfold allocate_poly in Hlu. rewrite length_replicate in Hlu.
  assert (HD : (ct_poly_modulus_degree dest0 * ct_coeff_modulus_size dest0)%nat
               = (n * length moduli)%nat) by reflexivity.
  destruct (asymmetric_limbs_spec (length moduli) 0 n size is_ntt moduli
              tables (pk_data pk) dest0 u (ct_data dest0))
    as (Hlu1 & Hlm1 & _).
  { rewrite HD. lia. } { lia. } { rewrite HD. lia. }
  destruct (asymmetric_limbs (length moduli) 0 n size is_ntt moduli tables
              (pk_data pk) dest0 u (ct_data dest0)) as [u1 m1].
  cbn [fst snd] in Hlu1, Hlm1. rewrite Hld in Hlm1. cbn [fst snd].
  pose proof (asymmetric_noise_spec size 0 b g (parms cd) is_ntt tables dest0
                rng1 u1 m1 HD) as Hn.
  cbv zeta in Hn. fold n moduli in Hn. rewrite HD in Hn.
  specialize (Hn ltac:(lia) ltac:(lia)).
  destruct (noise_sequence size b g (parms cd) rng1) as [[es rng2]|x|].
  - by destruct Hn as (mem' & -> & _).
  - by destruct Hn as (mem' & ->).
  - by destruct Hn as (mem' & ->).
Qed.

(** X14.  What a returning [encrypt_zero_asymmetric] leaves in the
    destination does not depend on what the destination held before the
    call. *)
Theorem encrypt_zero_asymmetric_overwrites_destination
    (b : build) (g : global_variables) (entropy : list byte)
    (pk : PublicKey) (context : SEALContext) (parms_id : parms_id_type)
    (is_ntt : bool) (destination destination' : Ciphertext)
    (ct : Ciphertext) :
  encrypt_zero_asymmetric b g entropy pk context parms_id is_ntt destination
    = (Returned, ct) ->
  encrypt_zero_asymmetric b g entropy pk context parms_id is_ntt destination'
    = (Returned, ct).
Proof.
  intros Hrun.
  destruct (SEAL_DEBUG b && negb (is_valid_for_public_key pk context))
    eqn:Hvalid.
  { unfold encrypt_zero_asymmetric in Hrun. by rewrite Hvalid in Hrun. }
  set (cd := get_context_data context parms_id) in *.
  set (n := poly_modulus_degree (parms cd)).
  set (moduli := coeff_modulus (parms cd)).
  set (size := ct_size (pk_data pk)).
  destruct (sample_poly_ternary entropy (parms cd)
              (allocate_poly n (length moduli)) 0) as [[u rng1]|x|] eqn:Ht.
  2,3: unfold encrypt_zero_asymmetric in Hrun; rewrite Hvalid in Hrun;
       fold cd n moduli in Hrun; by rewrite Ht in Hrun.
  pose proof (encrypt_zero_asymmetric_unfold b g entropy pk context parms_id
                is_ntt destination u rng1 Hvalid Ht) as Hu1.
  pose proof (encrypt_zero_asymmetric_unfold b g entropy pk context parms_id
                is_ntt destination' u rng1 Hvalid Ht) as Hu2.
  cbv zeta in Hu1, Hu2. fold cd n moduli size in Hu1, Hu2.
  destruct (noise_sequence size b g (parms cd) rng1) as [[es rng2]|x|] eqn:Hes.
  2,3: pose proof (encrypt_zero_asymmetric_outcome b g entropy pk context
                     parms_id is_ntt destination u rng1 Hvalid Ht) as Ho;
       cbv zeta in Ho; fold cd n moduli size in Ho;
       rewrite Hes, Hrun in Ho; discriminate Ho.
  destruct (encrypt_zero_asymmetric_returns b g entropy pk context parms_id
              is_ntt destination u rng1 es rng2 Hvalid Ht Hes)
    as (ct1 & Hr1 & _ & _ & _ & Hl1 & Hles & Hb1).
  destruct (encrypt_zero_asymmetric_returns b g entropy pk context parms_id
              is_ntt destination' u rng1 es rng2 Hvalid Ht Hes)
    as (ct2 & Hr2 & _ & _ & _ & Hl2 & _ & Hb2).
  fold cd n moduli size in Hl1, Hl2, Hb1, Hb2.
  assert (ct1 = ct) as -> by congruence.
  rewrite Hr2. f_equal.
  assert (Hdata : ct_data ct = ct_data ct2).
  { apply list_eq. intros x.
    destruct (decide (x < size * (n * length moduli))%nat) as [Hx|Hx];
      [|rewrite !lookup_ge_None_2; [done|lia..]].
    apply (lookup_of_limbs_eq _ _ 0 n (size * length moduli));
      [|lia|lia].
    intros l' Hl'.
    assert (Hk : (0 < length moduli)%nat) by nia.
    pose proof (Nat.div_mod l' (length moduli) ltac:(lia)) as Hdm.
    pose proof (Nat.mod_upper_bound l' (length moduli) ltac:(lia)) as Hm.
    assert (Hj : (l' / length moduli < size)%nat)
      by (apply Nat.Div0.div_lt_upper_bound; nia).
    destruct (lookup_lt_is_Some_2 es (l' / length moduli) ltac:(lia))
      as [e He].
    replace (0 + l' * n)%nat
      with (l' / length moduli * (n * length moduli)
            + l' mod length moduli * n)%nat by nia.
    by rewrite (Hb1 _ _ e He Hm), (Hb2 _ _ e He Hm). }
  rewrite Hr1 in Hu1. rewrite Hr2 in Hu2.
  injection Hu1 as _ ->. injection Hu2 as _ ->.
  cbn [ct_data with_data] in Hdata. rewrite Hdata. reflexivity.
Qed.

End OverwriteAsymmetric.

Section OverwriteWitnesses.
Import Reference Scenario.

(** A destination that already holds something: the public key's words
    under other flags. *)
Definition used_ciphertext : Ciphertext :=
  {| ct_parms_id := 7%nat; is_ntt_form := false; scale := 1; ct_size := 3;
     ct_poly_modulus_degree := 8; ct_coeff_modulus_size := 2;
     ct_data := ct_data (pk_data public_key) ++ replicate 16 5 |}.

Lemma encrypt_zero_symmetric_overwrites_destination_witness :
  encrypt_zero_symmetric release globals entropy secret_key context 0%nat
    true false empty_ciphertext = (Returned, pk_data public_key)
  /\ encrypt_zero_symmetric release globals entropy secret_key context 0%nat
       true false used_ciphertext = (Returned, pk_data public_key).
Proof.
  split; [exact public_key_is_a_symmetric_run|].
  exact (encrypt_zero_symmetric_overwrites_destination (H := collaborators)
           release globals entropy secret_key context 0%nat true false
           empty_ciphertext used_ciphertext (pk_data public_key)
           public_key_is_a_symmetric_run).
Defined.

Lemma run_asymmetric_returns :
  encrypt_zero_asymmetric release globals entropy public_key context 0%nat
    true empty_ciphertext = (Returned, (run_asymmetric globals).2).
Proof. vm_compute. reflexivity. Defined.

Lemma encrypt_zero_asymmetric_overwrites_destination_witness :
  encrypt_zero_asymmetric release globals entropy public_key context 0%nat
    true empty_ciphertext = (Returned, (run_asymmetric globals).2)
  /\ encrypt_zero_asymmetric release globals entropy public_key context 0%nat
       true used_ciphertext = (Returned, (run_asymmetric globals).2).
Proof.
  split; [exact run_asymmetric_returns|].
  exact (encrypt_zero_asymmetric_overwrites_destination (H := collaborators)
           release globals entropy public_key context 0%nat true
           empty_ciphertext used_ciphertext (run_asymmetric globals).2
           run_asymmetric_returns).
Defined.

End OverwriteWitnesses.
